(** * Images -> R2: reconciliation engine, transfer orchestrator, blob client
      and record store, embedded from the TypeScript sources
      (view.ts, main.ts, records.ts, settings.ts). *)

From Stdlib Require Import Ascii String DecimalString.
From Stdlib Require Import Bool Arith NArith ZArith Lia List.
Import ListNotations.

Set Implicit Arguments.

(** ** JavaScript strings

    A JavaScript string is a sequence of UTF-16 code units; [index],
    [substring], [split] and the regular expressions of the sources all work
    on code units. *)
Module JS.

Definition str := list N.

Definition cu (a : ascii) : N := N_of_ascii a.

Fixpoint u (s : string) : str :=
  match s with
  | EmptyString => []
  | String a s' => cu a :: u s'
  end.

Fixpoint str_eqb (a b : str) : bool :=
  match a, b with
  | [], [] => true
  | x :: a', y :: b' => N.eqb x y && str_eqb a' b'
  | _, _ => false
  end.

(** Truthiness of a string: the empty string is the only falsy one. *)
Definition truthy (s : str) : bool :=
  match s with [] => false | _ :: _ => true end.

(** [s.startsWith(p)] *)
Fixpoint startsWith (p s : str) : bool :=
  match p, s with
  | [], _ => true
  | x :: p', y :: s' => N.eqb x y && startsWith p' s'
  | _ :: _, [] => false
  end.

(** [s.includes(p)] *)
Fixpoint includes (p s : str) : bool :=
  startsWith p s ||
  match s with
  | [] => false
  | _ :: s' => includes p s'
  end.

(** [s.split(sep)] for a string separator.  [skip] counts the code units of
    a separator occurrence still to be stepped over, [cur] is the piece being
    accumulated (reversed). *)
Fixpoint split_go (sep s : str) (skip : nat) (cur : str) : list str :=
  match s with
  | [] => [rev cur]
  | c :: s' =>
      match skip with
      | S k => split_go sep s' k cur
      | O =>
          if startsWith sep s
          then rev cur :: split_go sep s' (length sep - 1) []
          else split_go sep s' 0 (c :: cur)
      end
  end.

Definition split (sep s : str) : list str :=
  match sep with
  | [] => map (fun c => [c]) s
  | _ :: _ => split_go sep s 0 []
  end.

(** [pieces.join(sep)] *)
Fixpoint join (sep : str) (pieces : list str) : str :=
  match pieces with
  | [] => []
  | [p] => p
  | p :: rest => p ++ sep ++ join sep rest
  end.

(** [s.substring(0, n)] and [s.slice(n)] for [0 <= n]. *)
Definition substring0 (n : nat) (s : str) : str := firstn n s.

Definition sliceFrom (n : nat) (s : str) : str := skipn n s.

(** [s.lastIndexOf(c)] for a one-unit needle; [None] is JavaScript's -1. *)
Fixpoint lastIndexOf_go (c : N) (s : str) (pos : nat) (found : option nat)
  : option nat :=
  match s with
  | [] => found
  | x :: s' =>
      lastIndexOf_go c s' (S pos) (if N.eqb x c then Some pos else found)
  end.

Definition lastIndexOf (c : N) (s : str) : option nat :=
  lastIndexOf_go c s 0 None.

(** [arr.pop()] on a freshly built array: its last element, if any. *)
Definition pop (l : list str) : option str :=
  match rev l with
  | [] => None
  | x :: _ => Some x
  end.

(** Template-literal rendering of an integer. *)
Definition ofZ (z : Z) : str := u (NilEmpty.string_of_int (Z.to_int z)).

Definition newline : N := 10%N.

End JS.

Import JS.

(** ** Regular expressions

    The three patterns of view.ts are built from literals, one-unit classes,
    greedy repetition of a class, an optional literal, alternation and
    capturing groups.  They are run by a backtracking matcher in
    continuation-passing style, which is the matching order of ECMAScript.
    All three carry the [i] flag and none the [u] flag: a pattern unit is
    compared after canonicalisation, and for a pattern made of ASCII units
    only the ASCII case variants compare equal (a unit at or above 128 never
    canonicalises to one below 128). *)
Module Regex.

Inductive re : Type :=
| Eps
| Lit (c : N)
| Cls (p : N -> bool)
| Star (p : N -> bool)
| Plus (p : N -> bool)
| Opt (r : re)
| Seq (a b : re)
| Alt (a b : re)
| Grp (i : nat) (r : re).

Definition canon (c : N) : N :=
  if (97 <=? c)%N && (c <=? 122)%N then (c - 32)%N else c.

Definition lit (c ch : N) : bool := N.eqb (canon c) (canon ch).

Definition caps := list (nat * str).

Fixpoint cap (i : nat) (cs : caps) : option str :=
  match cs with
  | [] => None
  | (j, s) :: cs' => if Nat.eqb i j then Some s else cap i cs'
  end.

Section Run.
Variable A : Type.

(** Greedy repetition of a class: as many units as possible first, one
    fewer on each backtrack. *)
Fixpoint rep (p : N -> bool) (s : str) (k : str -> option A) : option A :=
  match s with
  | c :: s' =>
      if p c
      then match rep p s' k with
           | Some x => Some x
           | None => k s
           end
      else k s
  | [] => k s
  end.

Fixpoint run (r : re) (s : str) (cs : caps)
         (k : str -> caps -> option A) : option A :=
  match r with
  | Eps => k s cs
  | Lit c =>
      match s with
      | ch :: s' => if lit c ch then k s' cs else None
      | [] => None
      end
  | Cls p =>
      match s with
      | ch :: s' => if p ch then k s' cs else None
      | [] => None
      end
  | Star p => rep p s (fun s' => k s' cs)
  | Plus p =>
      match s with
      | ch :: s' => if p ch then rep p s' (fun s'' => k s'' cs) else None
      | [] => None
      end
  | Opt r1 =>
      match run r1 s cs k with
      | Some x => Some x
      | None => k s cs
      end
  | Seq a b => run a s cs (fun s' cs' => run b s' cs' k)
  | Alt a b =>
      match run a s cs k with
      | Some x => Some x
      | None => run b s cs k
      end
  | Grp i r1 =>
      run r1 s cs
          (fun s' cs' => k s' ((i, firstn (length s - length s') s) :: cs'))
  end.
End Run.

(** One attempt at the start of [s]: the length of the match and its
    captures. *)
Definition exec (r : re) (s : str) : option (nat * caps) :=
  run r s [] (fun s' cs => Some (length s - length s', cs)).

(** An element of [content.matchAll(r)]: [index], [m[0]], [m[1]], [m[2]]. *)
Record Match : Type := mkMatch {
  index : nat;
  m0 : str;
  m1 : option str;
  m2 : option str
}.

(** The global scan: after a match the search resumes at its end (one unit
    further after an empty match); [skip] counts the units of the last match
    still to be stepped over. *)
Fixpoint scan (r : re) (s : str) (pos skip : nat) : list Match :=
  match s with
  | [] =>
      match exec r [] with
      | Some (_, cs) => [mkMatch pos [] (cap 1 cs) (cap 2 cs)]
      | None => []
      end
  | _ :: s' =>
      match skip with
      | S k => scan r s' (S pos) k
      | O =>
          match exec r s with
          | Some (len, cs) =>
              mkMatch pos (firstn len s) (cap 1 cs) (cap 2 cs)
                :: scan r s' (S pos) (len - 1)
          | None => scan r s' (S pos) 0
          end
      end
  end.

Definition matchAll (r : re) (content : str) : list Match :=
  scan r content 0 0.

(** [r.test(s)] for a pattern without the [g] flag: a match anywhere. *)
Fixpoint test (r : re) (s : str) : bool :=
  match exec r s with
  | Some _ => true
  | None =>
      match s with
      | [] => false
      | _ :: s' => test r s'
      end
  end.

(** A literal word, a sequence and an alternation of patterns. *)
Fixpoint word (s : str) : re :=
  match s with
  | [] => Eps
  | [c] => Lit c
  | c :: s' => Seq (Lit c) (word s')
  end.

Fixpoint seqs (l : list re) : re :=
  match l with
  | [] => Eps
  | [r] => r
  | r :: l' => Seq r (seqs l')
  end.

Fixpoint alts (l : list re) : re :=
  match l with
  | [] => Cls (fun _ => false)
  | [r] => r
  | r :: l' => Alt r (alts l')
  end.

Definition w (s : string) : re := word (u s).

Definition isNot (c : N) (ch : N) : bool := negb (N.eqb ch c).

(** [\s]: WhiteSpace and LineTerminator code units. *)
Definition isSpace (c : N) : bool :=
  ((9 <=? c) && (c <=? 13) || (c =? 32) || (c =? 160) || (c =? 5760)
   || ((8192 <=? c) && (c <=? 8202)) || (c =? 8232) || (c =? 8233)
   || (c =? 8239) || (c =? 8287) || (c =? 12288) || (c =? 65279))%N.

(** [/!\[\[([^\]]+\.(png|jpg|jpeg|gif|webp|svg|bmp|ico|tiff|tif))\]\]/gi] *)
Definition localRegex : re :=
  seqs [ w "![[";
         Grp 1 (seqs [ Plus (isNot 93); Lit 46;
                       Grp 2 (alts (map w ["png"; "jpg"; "jpeg"; "gif"; "webp";
                                           "svg"; "bmp"; "ico"; "tiff"; "tif"]%string)) ]);
         w "]]" ].

(** The remote pattern, flags [gi], written with its groups spaced out:
    [!\[ ( [^\]]* ) \]\( ( https?:\/\/ [^)\s]+ ) \)] *)
Definition remoteRegex : re :=
  seqs [ w "![";
         Grp 1 (Star (isNot 93));
         w "](";
         Grp 2 (seqs [ w "http"; Opt (Lit 115); w "://";
                       Plus (fun c => isNot 41 c && negb (isSpace c)) ]);
         Lit 41 ].

(** [/https?:\/\/[^/]+\.r2\.dev\//i] *)
Definition r2devRegex : re :=
  seqs [ w "http"; Opt (Lit 115); w "://"; Plus (isNot 47); w ".r2.dev/" ].

End Regex.

Import Regex.

(** ** [encodeURIComponent] *)
Module Uri.

(** The units left as they are: ASCII letters, digits and [-_.!~*'()]. *)
Definition unreserved (c : N) : bool :=
  ((65 <=? c) && (c <=? 90) || (97 <=? c) && (c <=? 122)
   || (48 <=? c) && (c <=? 57)
   || (c =? 45) || (c =? 95) || (c =? 46) || (c =? 33) || (c =? 126)
   || (c =? 42) || (c =? 39) || (c =? 40) || (c =? 41))%N.

Definition utf8 (cp : N) : list N :=
  (if cp <? 128 then [cp]
   else if cp <? 2048 then [192 + cp / 64; 128 + cp mod 64]
   else if cp <? 65536 then
     [224 + cp / 4096; 128 + (cp / 64) mod 64; 128 + cp mod 64]
   else
     [240 + cp / 262144; 128 + (cp / 4096) mod 64;
      128 + (cp / 64) mod 64; 128 + cp mod 64])%N.

Definition hexDigit (d : N) : N :=
  (if d <? 10 then 48 + d else 55 + d)%N.

Definition pct (octets : list N) : str :=
  flat_map (fun b => [37%N; hexDigit (b / 16); hexDigit (b mod 16)]) octets.

Definition isLead (c : N) : bool := ((55296 <=? c) && (c <=? 56319))%N.

Definition isTrail (c : N) : bool := ((56320 <=? c) && (c <=? 57343))%N.

(** [None] is the URIError thrown on an unpaired surrogate. *)
Fixpoint encodeURIComponent (s : str) : option str :=
  match s with
  | [] => Some []
  | c :: s' =>
      if unreserved c then option_map (cons c) (encodeURIComponent s')
      else if isLead c then
        match s' with
        | d :: s'' =>
            if isTrail d
            then option_map
                   (app (pct (utf8 ((c - 55296) * 1024 + (d - 56320) + 65536)%N)))
                   (encodeURIComponent s'')
            else None
        | [] => None
        end
      else if isTrail c then None
      else option_map (app (pct (utf8 c))) (encodeURIComponent s')
  end.

Definition URIError : str := u "URI malformed".

End Uri.

Import Uri.

(** ** Host objects *)

(** A [TFile] of the vault. *)
Record TFile : Type := mkTFile {
  path : str;
  name : str;
  extension : str;
  (** [parent?.path] *)
  parent : option str
}.

Definition bytes := list N.

(** ** records.ts *)
Module Records.

Definition RECORDS_PATH : str := u ".obsidian/images-r2-records.json".

Record UploadRecord : Type := mkUpload {
  up_fileName : str;
  up_localPath : str;
  up_publicUrl : str;
  up_customUrl : str;
  up_notePath : str;
  up_noteFileName : str
}.

Record DownloadRecord : Type := mkDownload {
  dl_fileName : str;
  dl_localPath : str;
  dl_remoteUrl : str;
  dl_notePath : str;
  dl_noteFileName : str
}.

(** [ImageRecord]: the [type] tag is the constructor, [at] its first
    argument. *)
Inductive ImageRecord : Type :=
| RUpload (at_ : str) (r : UploadRecord)
| RDownload (at_ : str) (r : DownloadRecord).

(** What [JSON.parse(raw)] gives: a SyntaxError, or a value that is [null],
    an array (taken to hold records, as the cast [as ImageRecord[]] does), or
    anything else. *)
Inductive Parsed : Type :=
| SyntaxError
| PNull
| PArray (l : list ImageRecord)
| POther.

(** The field [records: ImageRecord[] | null]; [COther] is a parsed value
    that is neither [null] nor an array, stored through the unchecked
    cast. *)
Inductive Cache : Type :=
| CNull
| CArray (l : list ImageRecord)
| COther.

(** The durable file at [RECORDS_PATH]: absent, or its text. *)
Definition Disk := option str.

(** How a promise settles. *)
Inductive Settled : Type :=
| Resolved
| Rejected (msg : str).

(** The TypeError of [records.push(...)] when [load] returned [null], and
    when it returned a value that is neither [null] nor an array. *)
Definition TypeError_null_push : str :=
  u "Cannot read properties of null (reading 'push')".

Definition TypeError_push : str := u "records.push is not a function".

Section Manager.
(** [JSON.parse] and [JSON.stringify(_, null, '\t')] of the platform. *)
Variable JSON_parse : str -> Parsed.
Variable JSON_stringify : Cache -> str.

(** [load()]: the cache when it is not [null]; otherwise the file is read
    and parsed, and any exception of either step gives the empty array. *)
Definition load (c : Cache) (d : Disk) : Cache :=
  match c with
  | CNull =>
      match d with
      | None => CArray []
      | Some raw =>
          match JSON_parse raw with
          | SyntaxError => CArray []
          | PNull => CNull
          | PArray l => CArray l
          | POther => COther
          end
      end
  | _ => c
  end.

(** [save()]: the whole file is rewritten; [fault] is the exception of
    [adapter.write], if it throws. *)
Definition save (fault : option str) (c : Cache) (d : Disk)
  : Disk * Settled :=
  match fault with
  | Some msg => (d, Rejected msg)
  | None => (Some (JSON_stringify c), Resolved)
  end.

(** The body shared by [addUpload] and [addDownload]: load, push, save,
    for an append that runs from its call to its settling with no other
    append in between.  [load] then returns the cached array itself, so the
    push is seen by [save].  The body has two [await]s, and its callers do
    not await it: module [Appends] below gives its steps one by one, shows
    that run back to back they are [add], and what appends that overlap
    do. *)
Definition add (fault : option str) (r : ImageRecord) (c : Cache) (d : Disk)
  : Cache * Disk * Settled :=
  match load c d with
  | CArray l =>
      let c' := CArray (l ++ [r]) in
      let '(d', st) := save fault c' d in
      (c', d', st)
  | CNull => (CNull, d, Rejected TypeError_null_push)
  | COther => (COther, d, Rejected TypeError_push)
  end.

Definition addUpload (now : str) (fault : option str) (r : UploadRecord) :=
  add fault (RUpload now r).

Definition addDownload (now : str) (fault : option str) (r : DownloadRecord) :=
  add fault (RDownload now r).

(** A run of appends, each with its own write outcome, each settled before
    the next is called. *)
Fixpoint addAll (ops : list (option str * ImageRecord)) (c : Cache) (d : Disk)
  : Cache * Disk :=
  match ops with
  | [] => (c, d)
  | (fault, r) :: ops' =>
      let '(c', d', _) := add fault r c d in
      addAll ops' c' d'
  end.
End Manager.

End Records.

(** ** settings.ts *)
Record ImagesR2Settings : Type := mkSettings {
  accountId : str;
  r2Token : str;
  bucketName : str;
  customDomain : str;
  downloadFolder : str
}.

Definition DEFAULT_SETTINGS : ImagesR2Settings := mkSettings [] [] [] [] [].

(** ** The network, as [requestUrl] shows it *)
Module Net.

Inductive Method : Type := GET | PUT.

(** A header value as the code hands it to [requestUrl]: a string, or the
    object that a plain object literal inherits from [Object.prototype] under
    the given name (a function or the prototype itself, never a string). *)
Inductive HeaderValue : Type :=
| Text (s : str)
| Inherited (name : str).

Record Request : Type := mkRequest {
  url : str;
  method : Method;
  headers : list (str * HeaderValue);
  body : option bytes
}.

(** The envelope of the store's API, with the fields the sources read. *)
Record ApiError : Type := mkApiError {
  code : Z;
  message : option str
}.

Record ApiResult : Type := mkApiResult {
  domain : option str;
  key : option str
}.

Record Envelope : Type := mkEnvelope {
  success : bool;
  errors : list ApiError;
  result : option ApiResult
}.

(** The getter [response.json]: it throws when the body is not JSON, and
    may be [null]. *)
Inductive Json : Type :=
| JsonThrows (msg : str)
| JsonNull
| JsonOf (e : Envelope).

Record Response : Type := mkResponse {
  status : Z;
  json : Json;
  arrayBuffer : bytes
}.

(** [requestUrl({..., throw: false})]: a network error still throws. *)
Inductive NetResult : Type :=
| NetThrows (msg : str)
| NetResponse (r : Response).

(** [j?.errors?.[0]?.message], [None] for [undefined] or [null]. *)
Definition firstErrorMessage (e : Envelope) : option str :=
  match errors e with
  | a :: _ => message a
  | [] => None
  end.

End Net.

(** ** The host: what Obsidian, the platform and the network answer during
       one operation *)
Record Host : Type := mkHost {
  (** [requestUrl] *)
  requestUrl : Net.Request -> Net.NetResult;
  (** [vault.readBinary]: [inl msg] when it throws *)
  readBinary : option TFile -> str + bytes;
  (** [vault.cachedRead] *)
  cachedRead : TFile -> str;
  (** [metadataCache.getFirstLinkpathDest], [None] unless a [TFile] *)
  getFirstLinkpathDest : str -> str -> option TFile;
  (** [new URL(url).pathname], [None] when the constructor throws *)
  URL_pathname : str -> option str;
  (** [decodeURIComponent], [None] when it throws *)
  decodeURIComponent : str -> option str;
  (** [crypto.randomUUID()] *)
  randomUUID : str;
  (** [new Date().toISOString()] *)
  toISOString : str;
  (** [vault.getConfig('attachmentFolderPath')] *)
  attachmentFolderPath : option str;
  (** exceptions of [adapter.write], [editor.setValue], [vault.createBinary]
      and [vault.createFolder], when the host raises one *)
  writeFault : option str;
  setValueFault : option str;
  createBinaryFault : option str;
  createFolderFault : option str;
  (** [JSON.parse] and [JSON.stringify] on the record log *)
  JSON_parse : str -> Records.Parsed;
  JSON_stringify : Records.Cache -> str
}.

(** ** main.ts *)
Module Plugin.
Import Net.

Definition MIME_TYPES : list (str * str) :=
  map (fun p => (u (fst p), u (snd p)))
      [ ("png", "image/png"); ("jpg", "image/jpeg"); ("jpeg", "image/jpeg");
        ("gif", "image/gif"); ("webp", "image/webp"); ("svg", "image/svg+xml");
        ("bmp", "image/bmp"); ("ico", "image/x-icon"); ("tiff", "image/tiff");
        ("tif", "image/tiff") ]%string.

Fixpoint lookup (k : str) (t : list (str * str)) : option str :=
  match t with
  | [] => None
  | (k', v) :: t' => if str_eqb k k' then Some v else lookup k t'
  end.

(** [toLowerCase] on the units that can reach a key of [MIME_TYPES] or a
    name of [Object.prototype]: the ASCII capitals.  (The one other unit
    that lowers to an ASCII letter is the Kelvin sign, to k, which no key
    holds.) *)
Definition toLowerCase (s : str) : str :=
  map (fun c => if (65 <=? c)%N && (c <=? 90)%N then (c + 32)%N else c) s.

(** The names [Object.prototype] defines.  [MIME_TYPES] is an object
    literal, so it inherits a value, none of them nullish, under each. *)
Definition Object_prototype : list str :=
  map u [ "constructor"; "__defineGetter__"; "__defineSetter__";
          "hasOwnProperty"; "__lookupGetter__"; "__lookupSetter__";
          "isPrototypeOf"; "propertyIsEnumerable"; "toString"; "valueOf";
          "__proto__"; "toLocaleString" ]%string.

(** [MIME_TYPES[k] ?? 'application/octet-stream']: the object's own entry,
    else the value it inherits under [k], else the default. *)
Definition mimeTypeOf (k : str) : HeaderValue :=
  match lookup k MIME_TYPES with
  | Some v => Text v
  | None =>
      if existsb (str_eqb k) Object_prototype then Inherited k
      else Text (u "application/octet-stream")
  end.

Definition orElse (A : Type) (o : option A) (d : A) : A :=
  match o with Some x => x | None => d end.

Definition api (accountId bucketName rest : str) : str :=
  u "https://api.cloudflare.com/client/v4/accounts/" ++ accountId
    ++ u "/r2/buckets/" ++ bucketName ++ rest.

Definition bearer (r2Token : str) : str * HeaderValue :=
  (u "Authorization", Text (u "Bearer " ++ r2Token)).

(** The result of a function together with the requests it sent, in
    order. *)
Definition Traced (A : Type) : Type := A * list Request.

(** The request of [fetchManagedDomain]. *)
Definition managedRequest (accountId r2Token bucketName : str) : Request :=
  mkRequest (api accountId bucketName (u "/domains/managed")) GET
            [bearer r2Token] None.

(** [fetchManagedDomain] *)
Definition fetchManagedDomain (h : Host) (accountId r2Token bucketName : str)
  : Traced (option str) :=
  let req := managedRequest accountId r2Token bucketName in
  (match requestUrl h req with
   | NetThrows _ => None
   | NetResponse response =>
       if negb (status response =? 200)%Z then None
       else
         match json response with
         | JsonThrows _ => None
         | JsonNull => None
         | JsonOf e =>
             match result e with
             | None => None
             | Some r =>
                 match domain r with
                 | None => None
                 | Some d => if truthy d then Some (u "https://" ++ d) else None
                 end
             end
         end
   end, [req]).

(** [resolveBaseUrl] *)
Definition resolveBaseUrl (h : Host) (s : ImagesR2Settings)
  : Traced (option str) :=
  if truthy (customDomain s) then (Some (customDomain s), [])
  else if negb (truthy (accountId s)) || negb (truthy (r2Token s))
          || negb (truthy (bucketName s))
  then (None, [])
  else fetchManagedDomain h (accountId s) (r2Token s) (bucketName s).

(** [resolveImageFile]; [files] is [vault.getFiles()]. *)
Definition resolveImageFile (h : Host) (files : list TFile)
           (imagePath : str) (activeFile : TFile) : option TFile :=
  match getFirstLinkpathDest h imagePath (path activeFile) with
  | Some f => Some f
  | None =>
      let fileName := orElse (pop (split (u "/") imagePath)) imagePath in
      find (fun f => str_eqb (name f) fileName) files
  end.

(** The claim's reading of a failed managed-domain query: a network error,
    a status other than 200, or a body that names no domain. *)
Definition namesDomain (j : Json) (d : str) : Prop :=
  exists e r, j = JsonOf e /\ result e = Some r /\ domain r = Some d
              /\ d <> [].

(** The managed-domain endpoint as the claim reads it: a GET of the
    bucket's [domains/managed] resource of the store's API, carrying the
    token as bearer and no body. *)
Definition managedEndpoint (s : ImagesR2Settings) : Request :=
  mkRequest
    (u "https://api.cloudflare.com/client/v4/accounts/" ++ accountId s
       ++ u "/r2/buckets/" ++ bucketName s ++ u "/domains/managed")
    GET [(u "Authorization", Text (u "Bearer " ++ r2Token s))] None.

Definition queryFails (h : Host) (s : ImagesR2Settings) : Prop :=
  match requestUrl h (managedEndpoint s)
  with
  | NetThrows _ => True
  | NetResponse r => status r <> 200%Z \/ forall d, ~ namesDomain (json r) d
  end.

Inductive UploadResult : Type :=
| Success (publicUrl : str)
| Failure (error : str).

Definition TypeError_null : str :=
  u "Cannot read properties of null (reading 'extension')".

(** [uploadImageFile].  The caller passes [item.file!], which may be [null]:
    then reading [imageFile.extension] raises a TypeError inside the outer
    [try].  The request URL is built inside the inner [try], so the URIError
    of [encodeURIComponent] is reported by the inner [catch]. *)
Definition uploadImageFile (h : Host) (s : ImagesR2Settings)
           (imageFile : option TFile) (baseUrl : str) : Traced UploadResult :=
  if negb (truthy (accountId s)) || negb (truthy (r2Token s))
     || negb (truthy (bucketName s))
  then (Failure (u "Missing configuration"), [])
  else
    match readBinary h imageFile with
    | inl msg => (Failure msg, [])
    | inr fileBuffer =>
        match imageFile with
        | None => (Failure TypeError_null, [])
        | Some f =>
            let mimeType := mimeTypeOf (toLowerCase (extension f)) in
            let fileName := name f in
            match encodeURIComponent fileName with
            | None => (Failure URIError, [])
            | Some enc =>
                let req :=
                  mkRequest
                    (api (accountId s) (bucketName s) (u "/objects/" ++ enc))
                    PUT
                    [bearer (r2Token s); (u "Content-Type", mimeType)]
                    (Some fileBuffer) in
                match requestUrl h req with
                | NetThrows msg => (Failure msg, [req])
                | NetResponse response =>
                    if negb (status response =? 200)%Z then
                      let errMsg := u "HTTP " ++ ofZ (status response) in
                      (Failure
                         match json response with
                         | JsonOf e => orElse (firstErrorMessage e) errMsg
                         | _ => errMsg
                         end, [req])
                    else
                      match json response with
                      | JsonThrows _ => (Failure (u "Invalid response"), [req])
                      | JsonNull => (Failure (u "Unknown error"), [req])
                      | JsonOf data =>
                          if success data
                          then (Success (baseUrl ++ u "/" ++ enc), [req])
                          else (Failure (orElse (firstErrorMessage data)
                                                (u "Unknown error")), [req])
                      end
                end
            end
        end
    end.

End Plugin.

(** ** view.ts *)
Module View.
Import Plugin.

Inductive ItemStatus : Type := idle | uploading | done | failed.

Definition status_eqb (x y : ItemStatus) : bool :=
  match x, y with
  | idle, idle | uploading, uploading | done, done | failed, failed => true
  | _, _ => false
  end.

Record ImageItem : Type := mkImageItem {
  fullMatch : str;
  imagePath : str;
  fileName : str;
  file : option TFile;
  status : ItemStatus;
  line : nat;
  error : option str
}.

Record RemoteImageItem : Type := mkRemoteImageItem {
  rFullMatch : str;
  altText : str;
  url : str;
  rFileName : str;
  isR2 : bool;
  rStatus : ItemStatus;
  rLine : nat;
  rError : option str
}.

(** The object spreads [{...existing, line}]. *)
Definition withLine (l : nat) (i : ImageItem) : ImageItem :=
  mkImageItem (fullMatch i) (imagePath i) (fileName i) (file i) (status i) l
              (error i).

Definition rWithLine (l : nat) (i : RemoteImageItem) : RemoteImageItem :=
  mkRemoteImageItem (rFullMatch i) (altText i) (url i) (rFileName i) (isR2 i)
                    (rStatus i) l (rError i).

(** The assignments [item.status = s; item.error = e]. *)
Definition withStatus (s : ItemStatus) (e : option str) (i : ImageItem)
  : ImageItem :=
  mkImageItem (fullMatch i) (imagePath i) (fileName i) (file i) s (line i) e.

Definition rWithStatus (s : ItemStatus) (e : option str) (i : RemoteImageItem)
  : RemoteImageItem :=
  mkRemoteImageItem (rFullMatch i) (altText i) (url i) (rFileName i) (isR2 i)
                    s (rLine i) e.

(** A markdown view of the workspace: its file and its editor's buffer. *)
Record MarkdownView : Type := mkMarkdownView {
  mvFile : option TFile;
  editorValue : str
}.

(** What [vault.getAbstractFileByPath] can find. *)
Inductive Entry : Type :=
| EFile (f : TFile)
| EFolder (p : str).

(** The callbacks handed to [window.setTimeout]. *)
Inductive Callback : Type :=
| RefreshFromEditor
| RemoveUploaded (item : nat) (activeFile : TFile)
| RemoveDownloaded (item : nat) (activeFile : TFile).

Record Timer : Type := mkTimer {
  timerId : N;
  delay : N;
  callback : Callback
}.

Record App : Type := mkApp {
  (** the [ImageItem] and [RemoteImageItem] objects ever created, an object
      being named by its position *)
  localHeap : list ImageItem;
  remoteHeap : list RemoteImageItem;
  (** [R2UploaderView]: [items], [remoteItems], [currentFilePath],
      [refreshTimer] *)
  items : list nat;
  remoteItems : list nat;
  currentFilePath : option str;
  refreshTimer : option N;
  (** [ImagesR2Plugin]: [settings] and the [records] manager's cache *)
  settings : ImagesR2Settings;
  records : Records.Cache;
  (** the workspace's markdown views and the active one *)
  leaves : list MarkdownView;
  activeLeaf : option nat;
  (** the vault's files and folders, and the record log on disk *)
  vault : list Entry;
  disk : Records.Disk;
  (** [window]: pending timeouts and the next timer id *)
  timers : list Timer;
  nextTimer : N;
  (** notices shown, and rejections of promises nobody awaits *)
  notices : list str;
  unhandled : list str
}.

Definition set_localHeap (v : list ImageItem) (a : App) : App :=
  mkApp v (remoteHeap a) (items a) (remoteItems a) (currentFilePath a)
    (refreshTimer a) (settings a) (records a) (leaves a) (activeLeaf a)
    (vault a) (disk a) (timers a) (nextTimer a) (notices a) (unhandled a).

Definition set_remoteHeap (v : list RemoteImageItem) (a : App) : App :=
  mkApp (localHeap a) v (items a) (remoteItems a) (currentFilePath a)
    (refreshTimer a) (settings a) (records a) (leaves a) (activeLeaf a)
    (vault a) (disk a) (timers a) (nextTimer a) (notices a) (unhandled a).

Definition set_items (v : list nat) (a : App) : App :=
  mkApp (localHeap a) (remoteHeap a) v (remoteItems a) (currentFilePath a)
    (refreshTimer a) (settings a) (records a) (leaves a) (activeLeaf a)
    (vault a) (disk a) (timers a) (nextTimer a) (notices a) (unhandled a).

Definition set_remoteItems (v : list nat) (a : App) : App :=
  mkApp (localHeap a) (remoteHeap a) (items a) v (currentFilePath a)
    (refreshTimer a) (settings a) (records a) (leaves a) (activeLeaf a)
    (vault a) (disk a) (timers a) (nextTimer a) (notices a) (unhandled a).

Definition set_currentFilePath (v : option str) (a : App) : App :=
  mkApp (localHeap a) (remoteHeap a) (items a) (remoteItems a) v
    (refreshTimer a) (settings a) (records a) (leaves a) (activeLeaf a)
    (vault a) (disk a) (timers a) (nextTimer a) (notices a) (unhandled a).

Definition set_refreshTimer (v : option N) (a : App) : App :=
  mkApp (localHeap a) (remoteHeap a) (items a) (remoteItems a)
    (currentFilePath a) v (settings a) (records a) (leaves a) (activeLeaf a)
    (vault a) (disk a) (timers a) (nextTimer a) (notices a) (unhandled a).

Definition set_settings (v : ImagesR2Settings) (a : App) : App :=
  mkApp (localHeap a) (remoteHeap a) (items a) (remoteItems a)
    (currentFilePath a) (refreshTimer a) v (records a) (leaves a)
    (activeLeaf a) (vault a) (disk a) (timers a) (nextTimer a) (notices a)
    (unhandled a).

Definition set_records (v : Records.Cache) (a : App) : App :=
  mkApp (localHeap a) (remoteHeap a) (items a) (remoteItems a)
    (currentFilePath a) (refreshTimer a) (settings a) v (leaves a)
    (activeLeaf a) (vault a) (disk a) (timers a) (nextTimer a) (notices a)
    (unhandled a).

Definition set_leaves (v : list MarkdownView) (a : App) : App :=
  mkApp (localHeap a) (remoteHeap a) (items a) (remoteItems a)
    (currentFilePath a) (refreshTimer a) (settings a) (records a) v
    (activeLeaf a) (vault a) (disk a) (timers a) (nextTimer a) (notices a)
    (unhandled a).

Definition set_activeLeaf (v : option nat) (a : App) : App :=
  mkApp (localHeap a) (remoteHeap a) (items a) (remoteItems a)
    (currentFilePath a) (refreshTimer a) (settings a) (records a) (leaves a)
    v (vault a) (disk a) (timers a) (nextTimer a) (notices a) (unhandled a).

Definition set_vault (v : list Entry) (a : App) : App :=
  mkApp (localHeap a) (remoteHeap a) (items a) (remoteItems a)
    (currentFilePath a) (refreshTimer a) (settings a) (records a) (leaves a)
    (activeLeaf a) v (disk a) (timers a) (nextTimer a) (notices a)
    (unhandled a).

Definition set_disk (v : Records.Disk) (a : App) : App :=
  mkApp (localHeap a) (remoteHeap a) (items a) (remoteItems a)
    (currentFilePath a) (refreshTimer a) (settings a) (records a) (leaves a)
    (activeLeaf a) (vault a) v (timers a) (nextTimer a) (notices a)
    (unhandled a).

Definition set_timers (v : list Timer) (a : App) : App :=
  mkApp (localHeap a) (remoteHeap a) (items a) (remoteItems a)
    (currentFilePath a) (refreshTimer a) (settings a) (records a) (leaves a)
    (activeLeaf a) (vault a) (disk a) v (nextTimer a) (notices a)
    (unhandled a).

Definition set_nextTimer (v : N) (a : App) : App :=
  mkApp (localHeap a) (remoteHeap a) (items a) (remoteItems a)
    (currentFilePath a) (refreshTimer a) (settings a) (records a) (leaves a)
    (activeLeaf a) (vault a) (disk a) (timers a) v (notices a) (unhandled a).

Definition set_notices (v : list str) (a : App) : App :=
  mkApp (localHeap a) (remoteHeap a) (items a) (remoteItems a)
    (currentFilePath a) (refreshTimer a) (settings a) (records a) (leaves a)
    (activeLeaf a) (vault a) (disk a) (timers a) (nextTimer a) v
    (unhandled a).

Definition set_unhandled (v : list str) (a : App) : App :=
  mkApp (localHeap a) (remoteHeap a) (items a) (remoteItems a)
    (currentFilePath a) (refreshTimer a) (settings a) (records a) (leaves a)
    (activeLeaf a) (vault a) (disk a) (timers a) (nextTimer a) (notices a) v.

(** *** Objects and references *)

(** The objects a list of references denotes. *)
Definition objs (A : Type) (heap : list A) (refs : list nat) : list A :=
  flat_map (fun r => match nth_error heap r with
                     | Some x => [x]
                     | None => []
                     end) refs.

(** The values of [this.items] and of [this.remoteItems]. *)
Definition tracked (a : App) : list ImageItem := objs (localHeap a) (items a).

Definition trackedRemote (a : App) : list RemoteImageItem :=
  objs (remoteHeap a) (remoteItems a).

(** A field assignment on the object [r]. *)
Fixpoint assign (A : Type) (r : nat) (f : A -> A) (heap : list A) : list A :=
  match heap, r with
  | [], _ => []
  | x :: heap', O => f x :: heap'
  | x :: heap', S r' => x :: assign r' f heap'
  end.

(** *** [Map<string, V>] *)

Section JsMap.
Variable V : Type.

Definition Map := list (str * V).

Fixpoint mapSet (k : str) (v : V) (m : Map) : Map :=
  match m with
  | [] => [(k, v)]
  | (k', v') :: m' =>
      if str_eqb k k' then (k, v) :: m' else (k', v') :: mapSet k v m'
  end.

(** [new Map(entries)] *)
Definition mapOf (entries : list (str * V)) : Map :=
  fold_left (fun m e => mapSet (fst e) (snd e) m) entries [].

Fixpoint mapGet (k : str) (m : Map) : option V :=
  match m with
  | [] => None
  | (k', v) :: m' => if str_eqb k k' then Some v else mapGet k m'
  end.
End JsMap.

(** The entries [list.map(i => [i.fullMatch, i])]. *)
Definition keyed (V : Type) (key : V -> str) (l : list V) : list (str * V) :=
  map (fun i => (key i, i)) l.

(** The last element of [l] filed under [k]. *)
Definition lastWith (V : Type) (key : V -> str) (k : str) (l : list V)
  : option V :=
  find (fun i => str_eqb k (key i)) (rev l).

(** *** Extraction *)

(** The filter over [new Set<string>()]: a match is kept when its text has
    not been seen, and is then added to the set. *)
Fixpoint dedup (seen : list str) (ms : list Match) : list Match :=
  match ms with
  | [] => []
  | m :: ms' =>
      if existsb (str_eqb (m0 m)) seen
      then dedup seen ms'
      else m :: dedup (m0 m :: seen) ms'
  end.

(** The claim's reading of the filter: a match is kept exactly when no
    earlier match of the pass has the same raw text. *)
Fixpoint firstOccurrences (earlier ms : list Match) : list Match :=
  match ms with
  | [] => []
  | m :: ms' =>
      if existsb (fun e => str_eqb (m0 e) (m0 m)) earlier
      then firstOccurrences (earlier ++ [m]) ms'
      else m :: firstOccurrences (earlier ++ [m]) ms'
  end.

Definition localMatches (content : str) : list Match :=
  dedup [] (matchAll localRegex content).

Definition remoteMatches (content : str) : list Match :=
  dedup [] (matchAll remoteRegex content).

(** [content.substring(0, m.index ?? 0).split('\n').length - 1] *)
Definition lineOf (content : str) (m : Match) : nat :=
  length (split [newline] (substring0 (index m) content)) - 1.

(** *** [isR2Url], [fileNameFromUrl] *)

Definition isR2Url (s : ImagesR2Settings) (url : str) : bool :=
  if truthy (customDomain s) && startsWith (customDomain s) url then true
  else test r2devRegex url.

Definition image_jpg : str := u "image.jpg".

(** The class replaced by an underscore in [fileNameFromUrl]: the units
    less-than, greater-than, colon, double quote, slash, backslash, bar,
    question mark and star. *)
Definition forbidden (c : N) : bool :=
  existsb (N.eqb c) [60; 62; 58; 34; 47; 92; 124; 63; 42]%N.

Definition fileNameFromUrl (h : Host) (url : str) : str :=
  match URL_pathname h url with
  | None => image_jpg
  | Some pathname =>
      let rawName := orElse (pop (split (u "/") pathname)) [] in
      match decodeURIComponent h rawName with
      | None => image_jpg
      | Some decoded =>
          let name := map (fun c => if forbidden c then 95%N else c) decoded in
          if negb (truthy name) || negb (includes (u ".") name)
          then image_jpg
          else name
      end
  end.

(** *** The vault *)

Definition entryPath (e : Entry) : str :=
  match e with
  | EFile f => path f
  | EFolder p => p
  end.

Definition getAbstractFileByPath (v : list Entry) (p : str) : option Entry :=
  find (fun e => str_eqb (entryPath e) p) v.

(** [vault.getFiles()] *)
Definition getFiles (v : list Entry) : list TFile :=
  flat_map (fun e => match e with EFile f => [f] | EFolder _ => [] end) v.

Definition optstr_eqb (x y : option str) : bool :=
  match x, y with
  | Some s, Some t => str_eqb s t
  | None, None => true
  | _, _ => false
  end.

(** *** [buildItems] *)

Definition newLocalItem (h : Host) (a : App) (file : TFile) (content : str)
           (existingLocalMap : Map ImageItem) (m : Match) : ImageItem :=
  let line := lineOf content m in
  match mapGet (m0 m) existingLocalMap with
  | Some existing => withLine line existing
  | None =>
      let imagePath := orElse (m1 m) [] in
      let resolvedFile :=
        resolveImageFile h (getFiles (vault a)) imagePath file in
      mkImageItem (m0 m) imagePath
                  (match resolvedFile with
                   | Some f => name f
                   | None => imagePath
                   end)
                  resolvedFile idle line None
  end.

Definition newRemoteItem (h : Host) (a : App) (content : str)
           (existingRemoteMap : Map RemoteImageItem) (m : Match)
  : RemoteImageItem :=
  let line := lineOf content m in
  match mapGet (m0 m) existingRemoteMap with
  | Some existing => rWithLine line existing
  | None =>
      let altText := orElse (m1 m) [] in
      let url := orElse (m2 m) [] in
      mkRemoteImageItem (m0 m) altText url (fileNameFromUrl h url)
                        (isR2Url (settings a) url) idle line None
  end.

(** The maps [existingLocalMap] and [existingRemoteMap]. *)
Definition existingLocal (f : TFile) (a : App) : Map ImageItem :=
  if negb (optstr_eqb (Some (path f)) (currentFilePath a)) then []
  else mapOf (keyed fullMatch (tracked a)).

Definition existingRemote (f : TFile) (a : App) : Map RemoteImageItem :=
  if negb (optstr_eqb (Some (path f)) (currentFilePath a)) then []
  else mapOf (keyed rFullMatch (trackedRemote a)).

Definition buildItems (h : Host) (file : TFile) (content : str) (a : App)
  : App :=
  let newLocal :=
    map (newLocalItem h a file content (existingLocal file a))
        (localMatches content) in
  let newRemote :=
    map (newRemoteItem h a content (existingRemote file a))
        (remoteMatches content) in
  set_remoteItems (seq (length (remoteHeap a)) (length newRemote))
    (set_remoteHeap (remoteHeap a ++ newRemote)
       (set_items (seq (length (localHeap a)) (length newLocal))
          (set_localHeap (localHeap a ++ newLocal)
             (set_currentFilePath (Some (path file)) a)))).

(** The ordered reference lists a rebuild leaves: raw text and line of each
    tracked item. *)
Definition localRefs (a : App) : list (str * nat) :=
  map (fun i => (fullMatch i, line i)) (tracked a).

Definition remoteRefs (a : App) : list (str * nat) :=
  map (fun i => (rFullMatch i, rLine i)) (trackedRemote a).

(** *** Refreshing *)

(** [workspace.getActiveViewOfType(MarkdownView)] *)
Definition getActiveView (a : App) : option MarkdownView :=
  match activeLeaf a with
  | Some i => nth_error (leaves a) i
  | None => None
  end.

(** [refreshFromEditor] *)
Definition refreshFromEditor (h : Host) (a : App) : App :=
  match getActiveView a with
  | Some markdownView =>
      match mvFile markdownView with
      | Some f => buildItems h f (editorValue markdownView) a
      | None => a
      end
  | None => a
  end.

(** [refreshForFile], the handler of [file-open]. *)
Definition refreshForFile (h : Host) (file : option TFile) (a : App) : App :=
  match file with
  | Some f =>
      if str_eqb (extension f) (u "md")
      then buildItems h f (cachedRead h f) a
      else set_remoteItems [] (set_items [] (set_currentFilePath None a))
  | None => set_remoteItems [] (set_items [] (set_currentFilePath None a))
  end.

(** [refreshCurrentFile] *)
Definition refreshCurrentFile (h : Host) (a : App) : App :=
  match currentFilePath a with
  | None => a
  | Some p =>
      if negb (truthy p) then a
      else
        match getAbstractFileByPath (vault a) p with
        | Some (EFile f) => buildItems h f (cachedRead h f) a
        | _ => set_currentFilePath None a
        end
  end.

(** [refresh], the authoritative refresh. *)
Definition refresh (h : Host) (a : App) : App :=
  match getActiveView a with
  | Some markdownView =>
      match mvFile markdownView with
      | Some f => buildItems h f (editorValue markdownView) a
      | None => refreshCurrentFile h a
      end
  | None => refreshCurrentFile h a
  end.

(** *** Timers *)

Definition setTimeout (cb : Callback) (ms : N) (a : App) : N * App :=
  (nextTimer a,
   set_nextTimer (nextTimer a + 1)%N
     (set_timers (timers a ++ [mkTimer (nextTimer a) ms cb]) a)).

Definition clearTimeout (id : N) (a : App) : App :=
  set_timers (filter (fun t => negb (N.eqb (timerId t) id)) (timers a)) a.

Definition transferring (a : App) : bool :=
  existsb (fun i => status_eqb (status i) uploading) (tracked a)
  || existsb (fun i => status_eqb (rStatus i) uploading) (trackedRemote a).

(** The handler of [editor-change] registered in [onOpen]. *)
Definition onEditorChange (a : App) : App :=
  if transferring a then a
  else
    let a1 :=
      match refreshTimer a with
      | Some id => if N.eqb id 0 then a else clearTimeout id a
      | None => a
      end in
    let '(id, a2) := setTimeout RefreshFromEditor 800 a1 in
    set_refreshTimer (Some id) a2.

(** *** Download destination *)

Definition resolveDownloadFolder (h : Host) (a : App) (activeFile : TFile)
  : str :=
  let custom := downloadFolder (settings a) in
  if truthy custom then custom
  else
    let cfg := orElse (attachmentFolderPath h) [] in
    if negb (truthy cfg) || str_eqb cfg (u ".") || str_eqb cfg (u "./")
    then orElse (parent activeFile) []
    else if startsWith (u "./") cfg then
      let base := orElse (parent activeFile) [] in
      let sub := sliceFrom 2 cfg in
      if truthy base then base ++ u "/" ++ sub else sub
    else cfg.

(** [ensureFolder]: the exception of [createFolder] is swallowed. *)
Fixpoint ensureParts (h : Host) (parts : list str) (current : str)
         (v : list Entry) : list Entry :=
  match parts with
  | [] => v
  | part :: parts' =>
      let current' :=
        if truthy current then current ++ u "/" ++ part else part in
      let v' :=
        match getAbstractFileByPath v current' with
        | Some _ => v
        | None =>
            match createFolderFault h with
            | Some _ => v
            | None => v ++ [EFolder current']
            end
        end in
      ensureParts h parts' current' v'
  end.

Definition ensureFolder (h : Host) (folderPath : str) (v : list Entry)
  : list Entry :=
  if negb (truthy folderPath) then v
  else ensureParts h (split (u "/") folderPath) [] v.

(** [uniquePath] *)
Definition uniquePath (h : Host) (v : list Entry) (path : str) : str :=
  match getAbstractFileByPath v path with
  | None => path
  | Some _ =>
      let lastDot := lastIndexOf 46 path in
      let base :=
        match lastDot with Some d => substring0 d path | None => path end in
      let ext :=
        match lastDot with Some d => sliceFrom d path | None => [] end in
      let uid := substring0 8 (randomUUID h) in
      base ++ u "-" ++ uid ++ ext
  end.

(** [vault.createBinary]: it refuses an existing path; otherwise the file
    appears in the vault. *)
Definition createBinary (h : Host) (p : str) (v : list Entry)
  : str + list Entry :=
  match createBinaryFault h with
  | Some msg => inl msg
  | None =>
      match getAbstractFileByPath v p with
      | Some _ => inl (u "File already exists.")
      | None =>
          let segs := split (u "/") p in
          let nm := orElse (pop segs) [] in
          let ex :=
            match lastIndexOf 46 nm with
            | Some d => sliceFrom (S d) nm
            | None => []
            end in
          inr (v ++ [EFile (mkTFile p nm ex
                                    (Some (join (u "/") (removelast segs))))])
      end
  end.

(** *** The editor *)

(** [findEditorForFile]: the first leaf showing the file. *)
Fixpoint findLeaf (p : str) (l : list MarkdownView) (i : nat) : option nat :=
  match l with
  | [] => None
  | mv :: l' =>
      match mvFile mv with
      | Some f => if str_eqb (path f) p then Some i else findLeaf p l' (S i)
      | None => findLeaf p l' (S i)
      end
  end.

Definition findEditorForFile (a : App) (file : TFile) : option nat :=
  findLeaf (path file) (leaves a) 0.

Definition getValue (a : App) (i : nat) : str :=
  match nth_error (leaves a) i with
  | Some mv => editorValue mv
  | None => []
  end.

Definition setValue (i : nat) (text : str) (a : App) : App :=
  set_leaves (assign i (fun mv => mkMarkdownView (mvFile mv) text) (leaves a))
             a.

(** How a call ends. *)
Inductive Outcome : Type :=
| Returned
| Threw (msg : str).

(** The rewrite shared by [doUpload] and [doDownload]:
    [current.split(fullMatch).join(replacement)], written back when it
    differs. *)
Definition rewrite (h : Host) (activeFile : TFile) (target replacement : str)
           (a : App) : App * Outcome :=
  match findEditorForFile a activeFile with
  | None => (a, Returned)
  | Some i =>
      let current := getValue a i in
      let updated := join replacement (split target current) in
      if str_eqb updated current then (a, Returned)
      else
        match setValueFault h with
        | Some msg => (a, Threw msg)
        | None => (setValue i updated a, Returned)
        end
  end.

(** *** Local image upload

    The sources are [async]: a handler runs until its next [await], where
    other handlers may run.  [doUpload] and [doDownload] are therefore given
    in two parts, before and after the awaited network call, so that a
    property of the second part holds whatever ran in between; their
    compositions, and the handlers built on them, run the parts back to
    back.  Host calls made after the network call (folder and file creation,
    the record log) are run as one step with the code around them. *)

Definition setStatus (s : ItemStatus) (i : ImageItem) : ImageItem :=
  withStatus s (error i) i.

Definition TypeError_path : str :=
  u "Cannot read properties of null (reading 'path')".

(** A promise that is not awaited: its rejection reaches nobody. *)
Definition floating (st : Records.Settled) (a : App) : App :=
  match st with
  | Records.Resolved => a
  | Records.Rejected msg => set_unhandled (unhandled a ++ [msg]) a
  end.

(** [this.plugin.records.addUpload(r)], started and not awaited.  Its body
    is run here as one step: the append is taken to settle before another
    append is called (see [Records.add]; an append that is overtaken by
    another is followed step by step in module [Appends]). *)
Definition recordUpload (h : Host) (r : Records.UploadRecord) (a : App) : App :=
  let '(c, d, st) :=
    Records.addUpload (JSON_parse h) (JSON_stringify h) (toISOString h)
                      (writeFault h) r (records a) (disk a) in
  floating st (set_disk d (set_records c a)).

(** [this.plugin.records.addDownload(r)], under the same reading. *)
Definition recordDownload (h : Host) (r : Records.DownloadRecord) (a : App)
  : App :=
  let '(c, d, st) :=
    Records.addDownload (JSON_parse h) (JSON_stringify h) (toISOString h)
                        (writeFault h) r (records a) (disk a) in
  floating st (set_disk d (set_records c a)).

(** [doUpload] up to its [await]. *)
Definition doUpload_start (item : nat) (a : App) : App :=
  set_localHeap (assign item (withStatus uploading None) (localHeap a)) a.

(** [doUpload] from the moment [uploadImageFile] has answered [result]. *)
Definition doUpload_finish (h : Host) (item : nat) (activeFile : TFile)
           (result : UploadResult) (a : App) : App * Outcome :=
  match result with
  | Failure e =>
      (set_localHeap (assign item (withStatus failed (Some e)) (localHeap a)) a,
       Returned)
  | Success publicUrl =>
      let a1 := set_localHeap (assign item (setStatus done) (localHeap a)) a in
      match nth_error (localHeap a1) item with
      | None => (a1, Returned)
      | Some it =>
          match rewrite h activeFile (fullMatch it)
                        (u "![" ++ fileName it ++ u "](" ++ publicUrl ++ u ")")
                        a1 with
          | (a2, Threw msg) => (a2, Threw msg)
          | (a2, Returned) =>
              match file it with
              | None => (a2, Threw TypeError_path)
              | Some f =>
                  let custom := customDomain (settings a2) in
                  match (if truthy custom
                         then option_map (fun e => custom ++ u "/" ++ e)
                                         (encodeURIComponent (fileName it))
                         else Some []) with
                  | None => (a2, Threw URIError)
                  | Some customUrl =>
                      let a3 :=
                        recordUpload h
                          (Records.mkUpload (fileName it) (path f) publicUrl
                                            customUrl (path activeFile)
                                            (name activeFile)) a2 in
                      (snd (setTimeout (RemoveUploaded item activeFile) 1000 a3),
                       Returned)
                  end
              end
          end
      end
  end.

(** [doUpload], run without another handler in between. *)
Definition doUpload (h : Host) (item : nat) (activeFile : TFile)
           (baseUrl : str) (a : App) : App * Outcome :=
  let a1 := doUpload_start item a in
  let f := match nth_error (localHeap a1) item with
           | Some it => file it
           | None => None
           end in
  doUpload_finish h item activeFile
                  (fst (uploadImageFile h (settings a1) f baseUrl)) a1.

(** The notice text; 8594 is the arrow of the plugin's name. *)
Definition noPublicUrl : str :=
  u "Images " ++ [8594%N]
    ++ u " R2: No public URL. Enable managed domain or set a Custom Domain in settings.".

Definition notice (msg : str) (a : App) : App :=
  set_notices (notices a ++ [msg]) a.

(** An exception leaving an [async] handler rejects a promise nobody
    awaits. *)
Definition handler (r : App * Outcome) : App :=
  match r with
  | (a, Returned) => a
  | (a, Threw msg) => set_unhandled (unhandled a ++ [msg]) a
  end.

(** [baseUrl] when it is truthy. *)
Definition usable (baseUrl : option str) : option str :=
  match baseUrl with
  | Some b => if truthy b then Some b else None
  | None => None
  end.

(** [uploadItem] *)
Definition uploadItem (h : Host) (item : nat) (activeFile : TFile) (a : App)
  : App :=
  match nth_error (localHeap a) item with
  | None => a
  | Some it =>
      match file it with
      | None => a
      | Some _ =>
          match usable (fst (resolveBaseUrl h (settings a))) with
          | None => notice noPublicUrl a
          | Some baseUrl => handler (doUpload h item activeFile baseUrl a)
          end
      end
  end.

Definition pendingStatus (s : ItemStatus) : bool :=
  status_eqb s idle || status_eqb s failed.

(** The [for] loop of [uploadAll] and [downloadAll]: an exception ends
    it. *)
Fixpoint forEach (step : nat -> App -> App * Outcome) (pending : list nat)
         (a : App) : App * Outcome :=
  match pending with
  | [] => (a, Returned)
  | item :: rest =>
      match step item a with
      | (a', Returned) => forEach step rest a'
      | (a', Threw msg) => (a', Threw msg)
      end
  end.

(** [uploadAll] *)
Definition uploadAll (h : Host) (activeFile : TFile) (a : App) : App :=
  match usable (fst (resolveBaseUrl h (settings a))) with
  | None => notice noPublicUrl a
  | Some baseUrl =>
      let pending :=
        filter (fun r => match nth_error (localHeap a) r with
                         | Some i =>
                             pendingStatus (status i)
                             && match file i with
                                | Some _ => true
                                | None => false
                                end
                         | None => false
                         end) (items a) in
      handler (forEach (fun item => doUpload h item activeFile baseUrl)
                       pending a)
  end.

(** *** Remote image download *)

Definition rSetStatus (s : ItemStatus) (i : RemoteImageItem)
  : RemoteImageItem :=
  rWithStatus s (rError i) i.

Definition doDownload_start (item : nat) (a : App) : App :=
  set_remoteHeap (assign item (rWithStatus uploading None) (remoteHeap a)) a.

Definition failDownload (item : nat) (msg : str) (a : App) : App :=
  set_remoteHeap (assign item (rWithStatus failed (Some msg)) (remoteHeap a)) a.

(** The file-saving steps of [doDownload]: the destination folder, the free
    path, [createBinary], and the saved file looked up again.  [inl] is the
    exception raised on the way. *)
Definition saveDownload (h : Host) (activeFile : TFile) (fileName : str)
           (a : App) : App * (str + TFile) :=
  let folder := resolveDownloadFolder h a activeFile in
  let a1 := set_vault (ensureFolder h folder (vault a)) a in
  let basePath :=
    if truthy folder then folder ++ u "/" ++ fileName else fileName in
  let savePath := uniquePath h (vault a1) basePath in
  match createBinary h savePath (vault a1) with
  | inl msg => (a1, inl msg)
  | inr v =>
      let a2 := set_vault v a1 in
      match getAbstractFileByPath (vault a2) savePath with
      | Some (EFile savedFile) => (a2, inr savedFile)
      | _ => (a2, inl (u "File not saved"))
      end
  end.

(** [doDownload] from the moment [requestUrl] has answered [net].  Every
    step up to the timer is inside the [try]. *)
Definition doDownload_finish (h : Host) (item : nat) (activeFile : TFile)
           (net : Net.NetResult) (a : App) : App :=
  match nth_error (remoteHeap a) item with
  | None => a
  | Some it =>
      match net with
      | Net.NetThrows msg => failDownload item msg a
      | Net.NetResponse response =>
          if (Net.status response <? 200)%Z || (300 <=? Net.status response)%Z
          then failDownload item (u "HTTP " ++ ofZ (Net.status response)) a
          else
            match saveDownload h activeFile (rFileName it) a with
            | (a2, inl msg) => failDownload item msg a2
            | (a2, inr savedFile) =>
                match rewrite h activeFile (rFullMatch it)
                              (u "![[" ++ name savedFile ++ u "]]") a2 with
                | (a3, Threw msg) => failDownload item msg a3
                | (a3, Returned) =>
                    let a4 :=
                      set_remoteHeap
                        (assign item (rSetStatus done) (remoteHeap a3)) a3 in
                    let a5 :=
                      recordDownload h
                        (Records.mkDownload (name savedFile) (path savedFile)
                                            (url it) (path activeFile)
                                            (name activeFile)) a4 in
                    snd (setTimeout (RemoveDownloaded item activeFile) 1000 a5)
                end
            end
      end
  end.

Definition doDownload (h : Host) (item : nat) (activeFile : TFile) (a : App)
  : App :=
  let a1 := doDownload_start item a in
  match nth_error (remoteHeap a1) item with
  | None => a1
  | Some it =>
      doDownload_finish h item activeFile
        (requestUrl h (Net.mkRequest (url it) Net.GET [] None)) a1
  end.

(** [downloadItem] *)
Definition downloadItem (h : Host) (item : nat) (activeFile : TFile) (a : App)
  : App :=
  doDownload h item activeFile a.

(** [downloadAll] *)
Definition downloadAll (h : Host) (activeFile : TFile) (a : App) : App :=
  let pending :=
    filter (fun r => match nth_error (remoteHeap a) r with
                     | Some i => pendingStatus (rStatus i)
                     | None => false
                     end) (remoteItems a) in
  fst (forEach (fun item a' => (doDownload h item activeFile a', Returned))
               pending a).

(** *** A timeout firing *)

Definition runCallback (h : Host) (cb : Callback) (a : App) : App :=
  match cb with
  | RefreshFromEditor => refreshFromEditor h a
  | RemoveUploaded item activeFile =>
      if negb (optstr_eqb (currentFilePath a) (Some (path activeFile))) then a
      else
        notice (u "Uploaded: "
                  ++ match nth_error (localHeap a) item with
                     | Some it => fileName it
                     | None => []
                     end)
               (set_items (filter (fun r => negb (Nat.eqb r item)) (items a)) a)
  | RemoveDownloaded item activeFile =>
      if negb (optstr_eqb (currentFilePath a) (Some (path activeFile))) then a
      else
        notice (u "Downloaded: "
                  ++ match nth_error (remoteHeap a) item with
                     | Some it => rFileName it
                     | None => []
                     end)
               (set_remoteItems
                  (filter (fun r => negb (Nat.eqb r item)) (remoteItems a)) a)
  end.

Definition fire (h : Host) (id : N) (a : App) : App :=
  match find (fun t => N.eqb (timerId t) id) (timers a) with
  | None => a
  | Some t => runCallback h (callback t) (clearTimeout id a)
  end.

(** The view before [onOpen], in a given workspace. *)
Definition initial (s : ImagesR2Settings) (l : list MarkdownView)
           (act : option nat) (v : list Entry) (d : Records.Disk) : App :=
  mkApp [] [] [] [] None None s Records.CNull l act v d [] 1 [] [].

End View.

(** ** Sample workspaces *)
Module Scenario.
Import Net Records Plugin View.

Definition with_requestUrl (v : Net.Request -> Net.NetResult) (h : Host) : Host :=
  mkHost v (readBinary h) (cachedRead h) (getFirstLinkpathDest h)
    (URL_pathname h) (decodeURIComponent h) (randomUUID h) (toISOString h)
    (attachmentFolderPath h) (writeFault h) (setValueFault h)
    (createBinaryFault h) (createFolderFault h) (JSON_parse h)
    (JSON_stringify h).

Definition with_getFirstLinkpathDest (v : str -> str -> option TFile) (h : Host) : Host :=
  mkHost (requestUrl h) (readBinary h) (cachedRead h) v (URL_pathname h)
    (decodeURIComponent h) (randomUUID h) (toISOString h)
    (attachmentFolderPath h) (writeFault h) (setValueFault h)
    (createBinaryFault h) (createFolderFault h) (JSON_parse h)
    (JSON_stringify h).

Definition with_randomUUID (v : str) (h : Host) : Host :=
  mkHost (requestUrl h) (readBinary h) (cachedRead h)
    (getFirstLinkpathDest h) (URL_pathname h) (decodeURIComponent h) v
    (toISOString h) (attachmentFolderPath h) (writeFault h) (setValueFault h)
    (createBinaryFault h) (createFolderFault h) (JSON_parse h)
    (JSON_stringify h).


Definition with_setValueFault (v : option str) (h : Host) : Host :=
  mkHost (requestUrl h) (readBinary h) (cachedRead h)
    (getFirstLinkpathDest h) (URL_pathname h) (decodeURIComponent h)
    (randomUUID h) (toISOString h) (attachmentFolderPath h) (writeFault h) v
    (createBinaryFault h) (createFolderFault h) (JSON_parse h)
    (JSON_stringify h).

Definition with_JSON_parse (v : str -> Records.Parsed) (h : Host) : Host :=
  mkHost (requestUrl h) (readBinary h) (cachedRead h)
    (getFirstLinkpathDest h) (URL_pathname h) (decodeURIComponent h)
    (randomUUID h) (toISOString h) (attachmentFolderPath h) (writeFault h)
    (setValueFault h) (createBinaryFault h) (createFolderFault h) v
    (JSON_stringify h).

Definition with_URL_pathname (v : str -> option str) (h : Host) : Host :=
  mkHost (requestUrl h) (readBinary h) (cachedRead h)
    (getFirstLinkpathDest h) v (decodeURIComponent h) (randomUUID h)
    (toISOString h) (attachmentFolderPath h) (writeFault h) (setValueFault h)
    (createBinaryFault h) (createFolderFault h) (JSON_parse h)
    (JSON_stringify h).

Definition note : TFile :=
  mkTFile (u "notes/trip.md") (u "trip.md") (u "md") (Some (u "notes")).

Definition otherNote : TFile :=
  mkTFile (u "notes/other.md") (u "other.md") (u "md") (Some (u "notes")).

Definition photo : TFile :=
  mkTFile (u "assets/photo.png") (u "photo.png") (u "png") (Some (u "assets")).

(** A host that is offline, raises nothing of its own, finds no link
    target, cannot parse the record log and prints a cache as the number of
    its records. *)
Definition offline : Host :=
  mkHost (fun _ => NetThrows (u "net::ERR_INTERNET_DISCONNECTED"))
         (fun _ => inr [137; 80; 78; 71]%N)
         (fun _ => [])
         (fun _ _ => None)
         (fun _ => None)
         (fun s => Some s)
         (u "deadbeef-0000-4000-8000-000000000000")
         (u "2026-01-01T00:00:00.000Z")
         None None None None None
         (fun _ => SyntaxError)
         (fun c => match c with
                   | CArray l => ofZ (Z.of_nat (length l))
                   | _ => u "null"
                   end).

(** The store acknowledging a PUT, and reporting a key of its own. *)
Definition putOk : NetResult :=
  NetResponse
    (mkResponse 200
       (JsonOf (mkEnvelope true []
                           (Some (mkApiResult None (Some (u "stored/elsewhere.bin"))))))
       []).

Definition online : Host := with_requestUrl (fun _ => putOk) offline.

Definition configured : ImagesR2Settings :=
  mkSettings (u "acct") (u "token") (u "bucket") (u "https://cdn.example.com")
             [].


Definition frozenEditor : Host :=
  with_setValueFault (Some (u "editor is read-only")) online.

Definition fetched : Response := mkResponse 200 (JsonThrows []) [255; 216]%N.

(** A host that serves every GET and reads the path of a plain
    [scheme://host/path] URL. *)
Fixpoint afterScheme (s : str) : option str :=
  match s with
  | 58%N :: 47%N :: 47%N :: r => Some r
  | _ :: s' => afterScheme s'
  | [] => None
  end.

Fixpoint fromSlash (s : str) : str :=
  match s with
  | [] => u "/"
  | c :: s' => if N.eqb c 47 then s else fromSlash s'
  end.

Definition serving : Host :=
  with_URL_pathname (fun url => option_map fromSlash (afterScheme url))
    (with_requestUrl (fun _ => NetResponse fetched) offline).

(** Settings without a custom domain, complete and not. *)
Definition managedOnly : ImagesR2Settings :=
  mkSettings (u "acct") (u "token") (u "bucket") [] [].

Definition noToken : ImagesR2Settings :=
  mkSettings (u "acct") [] (u "bucket") [] [].

(** The store naming the bucket's managed domain. *)
Definition domainOk : Response :=
  mkResponse 200
    (JsonOf (mkEnvelope true []
                        (Some (mkApiResult (Some (u "pub-1.r2.dev")) None))))
    [].

Definition managed : Host :=
  with_requestUrl (fun _ => NetResponse domainOk) offline.

(** A vault in which the disambiguated name is taken as well. *)
Definition cat : TFile :=
  mkTFile (u "cat.jpg") (u "cat.jpg") (u "jpg") (Some (u "/")).

Definition catTwin : TFile :=
  mkTFile (u "cat-deadbeef.jpg") (u "cat-deadbeef.jpg") (u "jpg")
          (Some (u "/")).

(** The note open in an editor, showing [text]. *)
Definition opened (s : ImagesR2Settings) (text : str) (v : list Entry) : App :=
  set_currentFilePath (Some (path note))
    (initial s [mkMarkdownView (Some note) text] (Some 0) v None).

(** The same, with one local item tracked in the given state. *)
Definition tracking (s : ImagesR2Settings) (text : str) (v : list Entry)
           (i : ImageItem) : App :=
  set_items [0] (set_localHeap [i] (opened s text v)).

Definition photoLink : str := u "![[photo.png]]".

Definition photoItem (f : option TFile) (st : ItemStatus) (e : option str)
  : ImageItem :=
  mkImageItem photoLink (u "photo.png") (u "photo.png") f st 0 e.

Definition catLink : str := u "![pic](https://example.com/a/b/cat.jpg)".

Definition catItem (st : ItemStatus) (e : option str) : RemoteImageItem :=
  mkRemoteImageItem catLink (u "pic") (u "https://example.com/a/b/cat.jpg")
                    (u "cat.jpg") false st 0 e.

(** The note open with one remote item tracked. *)
Definition trackingRemote (s : ImagesR2Settings) (text : str) (v : list Entry)
           (i : RemoteImageItem) : App :=
  set_remoteItems [0] (set_remoteHeap [i] (opened s text v)).

(** The side panel has the focus and still tracks the note, with a failed
    item in each list, after the note was renamed away: no markdown view is
    active and the vault holds no entry under the tracked path. *)
Definition vanished : App :=
  set_remoteItems [0]
    (set_remoteHeap [catItem failed (Some (u "HTTP 500"))]
       (set_items [0]
          (set_localHeap
             [photoItem (Some photo) failed (Some (u "HTTP 500"))]
             (set_currentFilePath
                (Some (path note))
                (initial configured [] None [EFile photo] None))))).

End Scenario.

(** ** What the patterns match *)
Module Denote.
Import Regex.

(** [lang r s s' cs cs']: the pattern [r] matches a prefix of [s] and leaves
    [s'], turning the captures [cs] into [cs']. *)
Fixpoint lang (r : re) (s s' : str) (cs cs' : caps) : Prop :=
  match r with
  | Eps => s' = s /\ cs' = cs
  | Lit c => exists ch, s = ch :: s' /\ lit c ch = true /\ cs' = cs
  | Cls p => exists ch, s = ch :: s' /\ p ch = true /\ cs' = cs
  | Star p => exists x, s = x ++ s' /\ forallb p x = true /\ cs' = cs
  | Plus p =>
      exists x, s = x ++ s' /\ x <> [] /\ forallb p x = true /\ cs' = cs
  | Opt r1 => lang r1 s s' cs cs' \/ (s' = s /\ cs' = cs)
  | Seq a b => exists mid csm, lang a s mid cs csm /\ lang b mid s' csm cs'
  | Alt a b => lang a s s' cs cs' \/ lang b s s' cs cs'
  | Grp i r1 =>
      exists cs0,
        lang r1 s s' cs cs0
        /\ cs' = (i, firstn (length s - length s') s) :: cs0
  end.

(** ASCII lower case of one unit, and texts equal up to ASCII case to a
    text [t] that has no upper-case letter. *)
Definition lowerAscii (c : N) : N :=
  if (65 <=? c)%N && (c <=? 90)%N then (c + 32)%N else c.

Definition caseless (t t' : str) : Prop := map lowerAscii t' = t.

Definition noUpper (t : str) : Prop :=
  Forall (fun c => ~ (65 <= c <= 90)%N) t.

(** The extensions of the local pattern. *)
Definition imageExts : list str :=
  map u ["png"; "jpg"; "jpeg"; "gif"; "webp"; "svg"; "bmp"; "ico"; "tiff";
         "tif"]%string.

(** A name with an image extension: a non-empty stem, a dot and one of the
    extensions in any case. *)
Definition imageName (g : str) : Prop :=
  exists stem e,
    g = stem ++ [46%N] ++ e /\ stem <> [] /\ In (map lowerAscii e) imageExts.

(** A wiki-style image embed: [raw] is [g] between the double brackets, and
    [g] has no closing bracket and is a name with an image extension. *)
Definition localShape (raw g : str) : Prop :=
  raw = u "![[" ++ g ++ u "]]" /\ ~ In 93%N g /\ imageName g.

(** A URL the remote pattern accepts: [http://] or [https://] in any case,
    then at least one unit, none of them a closing parenthesis or white
    space. *)
Definition httpUrl (url : str) : Prop :=
  exists sch body,
    url = sch ++ body
    /\ (caseless (u "http://") sch \/ caseless (u "https://") sch)
    /\ body <> []
    /\ forallb (fun c => isNot 41 c && negb (isSpace c)) body = true.

(** A standard image embed of a remote URL. *)
Definition remoteShape (raw alt url : str) : Prop :=
  raw = u "![" ++ alt ++ u "](" ++ url ++ u ")"
  /\ ~ In 93%N alt
  /\ httpUrl url.

(** A URL on a managed storage domain: somewhere in it a scheme, a
    non-empty host part without slash, and [.r2.dev/], in any case. *)
Definition r2devShape (url : str) : Prop :=
  exists pre sch host dom rest,
    url = pre ++ sch ++ host ++ dom ++ rest
    /\ (caseless (u "http://") sch \/ caseless (u "https://") sch)
    /\ host <> []
    /\ ~ In 47%N host
    /\ caseless (u ".r2.dev/") dom.

(** A unit of the encoder's escapes: the percent sign or a hexadecimal
    digit. *)
Definition escapeUnit (c : N) : Prop :=
  c = 37%N \/ (48 <= c <= 57)%N \/ (65 <= c <= 70)%N.

(** A text of UTF-16 code units. *)
Definition codeUnits (s : str) : Prop := Forall (fun c => (c < 65536)%N) s.

End Denote.

(** ** Invariants of the tracked items *)
Module Inv.
Import Denote View.

(** A local item is an image embed of its [imagePath], and its [fileName]
    is the name of the file it resolved to, or the path as written. *)
Definition localItemOk (i : ImageItem) : Prop :=
  localShape (fullMatch i) (imagePath i)
  /\ fileName i = match file i with
                  | Some f => name f
                  | None => imagePath i
                  end.

(** A remote item is an image embed of its [altText] and [url]. *)
Definition remoteItemOk (i : RemoteImageItem) : Prop :=
  remoteShape (rFullMatch i) (altText i) (url i).

End Inv.

(** ** The record log, one step at a time

    [addUpload] and [addDownload] are [async] and nobody awaits them, so an
    append can be overtaken by another at each of its two [await]s.  Here
    the arrays are objects, named by their position in [arrays]; an append
    is followed from its call ([start]) through the settling of
    [adapter.read] ([readDone]), its resumption with what [load] returned
    ([resume]: the push, and [save] up to its [await]) and the settling of
    [adapter.write] ([writeDone]). *)
Module Appends.
Import Records.

(** [this.records], and what [load] returns: [null], an array, or a parsed
    value that is neither. *)
Inductive Value : Type :=
| VNull
| VArray (r : nat)
| VOther.

(** Where an append stands. *)
Inductive Phase : Type :=
| Reading (rec : ImageRecord)
| Loaded (v : Value) (rec : ImageRecord)
| Writing (text : str)
| Ended (st : Settled).

Record Manager : Type := mkManager {
  arrays : list (list ImageRecord);
  held : Value;
  onDisk : Disk;
  calls : list Phase
}.

(** The manager of a new plugin instance, over a given file. *)
Definition fresh (d : Disk) : Manager := mkManager [] VNull d [].

Definition setPhase (i : nat) (p : Phase) (l : list Phase) : list Phase :=
  View.assign i (fun _ => p) l.

(** [this.records] as a value. *)
Definition view (m : Manager) : Cache :=
  match held m with
  | VNull => CNull
  | VArray r => CArray (nth r (arrays m) [])
  | VOther => COther
  end.

(** A held array is an object that exists. *)
Definition live (m : Manager) : Prop :=
  match held m with
  | VArray r => r < length (arrays m)
  | _ => True
  end.

Section Steps.
Variable JSON_parse : str -> Parsed.
Variable JSON_stringify : Cache -> str.

(** The call, up to the first [await]: [load] returns [this.records] at once
    when it is not [null], and otherwise starts reading the file. *)
Definition start (rec : ImageRecord) (m : Manager) : Manager :=
  mkManager (arrays m) (held m) (onDisk m)
            (calls m ++ [match held m with
                         | VNull => Reading rec
                         | v => Loaded v rec
                         end]).

(** [adapter.read] settles for the append [i]: [this.records] becomes what
    was parsed (a new array, for an array), or a new empty array when the
    read or the parse threw; [load] returns it. *)
Definition readDone (i : nat) (m : Manager) : Manager :=
  match nth_error (calls m) i with
  | Some (Reading rec) =>
      let array l :=
        mkManager (arrays m ++ [l]) (VArray (length (arrays m))) (onDisk m)
                  (setPhase i (Loaded (VArray (length (arrays m))) rec)
                            (calls m)) in
      let other v :=
        mkManager (arrays m) v (onDisk m)
                  (setPhase i (Loaded v rec) (calls m)) in
      match onDisk m with
      | None => array []
      | Some raw =>
          match JSON_parse raw with
          | SyntaxError => array []
          | PArray l => array l
          | PNull => other VNull
          | POther => other VOther
          end
      end
  | _ => m
  end.

(** The append [i] resumes with the value [load] returned: the push onto
    that value, then [save] up to its [await], which prints [this.records]
    as it is then. *)
Definition resume (i : nat) (m : Manager) : Manager :=
  match nth_error (calls m) i with
  | Some (Loaded (VArray r) rec) =>
      let pushed :=
        mkManager (View.assign r (fun l => l ++ [rec]) (arrays m)) (held m)
                  (onDisk m) (calls m) in
      mkManager (arrays pushed) (held m) (onDisk m)
                (setPhase i (Writing (JSON_stringify (view pushed))) (calls m))
  | Some (Loaded VNull rec) =>
      mkManager (arrays m) (held m) (onDisk m)
                (setPhase i (Ended (Rejected TypeError_null_push)) (calls m))
  | Some (Loaded VOther rec) =>
      mkManager (arrays m) (held m) (onDisk m)
                (setPhase i (Ended (Rejected TypeError_push)) (calls m))
  | _ => m
  end.

(** [adapter.write] settles for the append [i], with [fault] when it
    throws. *)
Definition writeDone (i : nat) (fault : option str) (m : Manager) : Manager :=
  match nth_error (calls m) i with
  | Some (Writing text) =>
      match fault with
      | Some msg =>
          mkManager (arrays m) (held m) (onDisk m)
                    (setPhase i (Ended (Rejected msg)) (calls m))
      | None =>
          mkManager (arrays m) (held m) (Some text)
                    (setPhase i (Ended Resolved) (calls m))
      end
  | _ => m
  end.

(** An append that runs from its call to its settling with no step of
    another in between. *)
Definition alone (fault : option str) (rec : ImageRecord) (m : Manager)
  : Manager :=
  let i := length (calls m) in
  writeDone i fault (resume i (readDone i (start rec m))).

(** Appends run one after the other. *)
Definition sequential (ops : list (option str * ImageRecord)) (m : Manager)
  : Manager :=
  fold_left (fun m op => alone (fst op) (snd op) m) ops m.

End Steps.

End Appends.

(** ** Readings used by the further properties *)
Module Reading.
Import Net Plugin.

(** The text after the last occurrence of [c], the whole text when [c]
    does not occur. *)
Definition lastSegment (c : N) (p : str) : str :=
  match lastIndexOf c p with
  | Some d => skipn (S d) p
  | None => p
  end.

(** The content type of an extension, as [uploadImageFile] hands it over:
    the type of one of the ten image extensions, in any letter case; for the
    two names of [Object.prototype] written in small letters, the object
    that the table inherits under the name; the default otherwise. *)
Definition contentType (extension : str) : HeaderValue :=
  let e := map Denote.lowerAscii extension in
  match find (fun p => str_eqb e (fst p))
             [ (u "png", u "image/png"); (u "jpg", u "image/jpeg");
               (u "jpeg", u "image/jpeg"); (u "gif", u "image/gif");
               (u "webp", u "image/webp"); (u "svg", u "image/svg+xml");
               (u "bmp", u "image/bmp"); (u "ico", u "image/x-icon");
               (u "tiff", u "image/tiff"); (u "tif", u "image/tiff") ] with
  | Some p => Text (snd p)
  | None =>
      if str_eqb e (u "constructor") || str_eqb e (u "__proto__")
      then Inherited e
      else Text (u "application/octet-stream")
  end.

(** The request [uploadImageFile] sends for the file [f], its encoded name
    and its bytes, written out. *)
Definition putRequest (s : ImagesR2Settings) (f : TFile) (enc : str)
           (fileBuffer : bytes) : Request :=
  mkRequest
    (u "https://api.cloudflare.com/client/v4/accounts/" ++ accountId s
       ++ u "/r2/buckets/" ++ bucketName s ++ u "/objects/" ++ enc)
    PUT
    [(u "Authorization", Text (u "Bearer " ++ r2Token s));
     (u "Content-Type", contentType (extension f))]
    (Some fileBuffer).

(** All three credentials are set. *)
Definition configuredFully (s : ImagesR2Settings) : Prop :=
  accountId s <> [] /\ r2Token s <> [] /\ bucketName s <> [].

End Reading.


(** ** What a transfer leaves alone *)
Module Frame.
Import View.

(** The item objects, the two tracked lists, the path of the open document
    and the settings are the same in both states. *)
Definition sameItems (a a' : App) : Prop :=
  localHeap a' = localHeap a /\ remoteHeap a' = remoteHeap a
  /\ items a' = items a /\ remoteItems a' = remoteItems a
  /\ currentFilePath a' = currentFilePath a /\ settings a' = settings a.

(** A transfer has ended: the item is done and carries no message, or it is
    failed and carries one. *)
Definition ended (st : ItemStatus) (e : option str) : Prop :=
  (st = done /\ e = None) \/ (st = failed /\ exists msg, e = Some msg).

(** The items [uploadAll] and [downloadAll] take up. *)
Definition uploadQueue (a : App) : list nat :=
  filter (fun r => match nth_error (localHeap a) r with
                   | Some i =>
                       pendingStatus (status i)
                       && match file i with
                          | Some _ => true
                          | None => false
                          end
                   | None => false
                   end) (items a).


End Frame.

(** ** The view at work

    What [onOpen] registers and [render] attaches, as events: the two
    workspace notifications, the toolbar and row buttons, and a timeout
    firing.  A handler may be overtaken at its [await] by another, so the two
    parts of [doUpload] and of [doDownload] are events of their own, the
    second with whatever answer the network gave; and the user and other
    plugins change the workspace, the vault and the settings at will. *)
Module Events.
Import View.

Inductive Event : Type :=
| FileOpen (file : option TFile)
| EditorChange
| ClickRefresh
| ClickUpload (item : nat) (activeFile : TFile)
| ClickUploadAll (activeFile : TFile)
| ClickDownload (item : nat) (activeFile : TFile)
| ClickDownloadAll (activeFile : TFile)
| UploadStarts (item : nat)
| UploadAnswers (item : nat) (activeFile : TFile)
                (result : Plugin.UploadResult)
| DownloadStarts (item : nat)
| DownloadAnswers (item : nat) (activeFile : TFile) (net : Net.NetResult)
| TimerFires (id : N)
| WorkspaceChanges (l : list MarkdownView) (act : option nat)
| VaultChanges (v : list Entry)
| SettingsChange (s : ImagesR2Settings).

Definition handle (h : Host) (a : App) (ev : Event) : App :=
  match ev with
  | FileOpen file => refreshForFile h file a
  | EditorChange => onEditorChange a
  | ClickRefresh => refresh h a
  | ClickUpload item activeFile => uploadItem h item activeFile a
  | ClickUploadAll activeFile => uploadAll h activeFile a
  | ClickDownload item activeFile => downloadItem h item activeFile a
  | ClickDownloadAll activeFile => downloadAll h activeFile a
  | UploadStarts item => doUpload_start item a
  | UploadAnswers item activeFile result =>
      handler (doUpload_finish h item activeFile result a)
  | DownloadStarts item => doDownload_start item a
  | DownloadAnswers item activeFile net =>
      doDownload_finish h item activeFile net a
  | TimerFires id => fire h id a
  | WorkspaceChanges l act => set_activeLeaf act (set_leaves l a)
  | VaultChanges v => set_vault v a
  | SettingsChange s => set_settings s a
  end.

(** The view after [onOpen] and the events [evs], in order. *)
Definition after (h : Host) (s : ImagesR2Settings) (l : list MarkdownView)
           (act : option nat) (v : list Entry) (d : Records.Disk)
           (evs : list Event) : App :=
  fold_left (handle h) evs (refresh h (initial s l act v d)).

(** The pending timeouts that would rebuild the lists from the editor. *)
Definition isRefresh (t : Timer) : bool :=
  match callback t with
  | RefreshFromEditor => true
  | _ => false
  end.

Definition refreshTimers (a : App) : list Timer :=
  filter isRefresh (timers a).

(** The debounce is in order: a pending rebuild is the one [refreshTimer]
    names and waits 800 ms, and timer ids are positive, below the next one
    and distinct. *)
Definition debounced (a : App) : Prop :=
  (forall t, In t (refreshTimers a) ->
             refreshTimer a = Some (timerId t) /\ delay t = 800%N)
  /\ (0 < nextTimer a)%N
  /\ (forall t, In t (timers a) -> (0 < timerId t < nextTimer a)%N)
  /\ NoDup (map timerId (timers a)).

(** A step that leaves the timers alone, and one that at most arms
    timeouts other than the rebuild. *)
Definition sameTimers (a a' : App) : Prop :=
  timers a' = timers a /\ nextTimer a' = nextTimer a
  /\ refreshTimer a' = refreshTimer a.

Definition armsOnly (a a' : App) : Prop :=
  refreshTimer a' = refreshTimer a
  /\ (nextTimer a <= nextTimer a')%N
  /\ exists new,
      timers a' = timers a ++ new
      /\ Forall (fun t => isRefresh t = false
                          /\ (nextTimer a <= timerId t < nextTimer a')%N) new
      /\ NoDup (map timerId new).

(** The tracked items are well formed and no two of a list share their raw
    text. *)
Definition wellTracked (a : App) : Prop :=
  Forall Inv.localItemOk (tracked a)
  /\ Forall Inv.remoteItemOk (trackedRemote a)
  /\ NoDup (map fullMatch (tracked a))
  /\ NoDup (map rFullMatch (trackedRemote a)).

(** A step that changes no more of the tracked lists and their objects than
    the status and message of items. *)
Definition statusOnly (a a' : App) : Prop :=
  items a' = items a /\ remoteItems a' = remoteItems a
  /\ (forall r,
        match nth_error (localHeap a) r with
        | Some x =>
            exists st e, nth_error (localHeap a') r = Some (withStatus st e x)
        | None => nth_error (localHeap a') r = None
        end)
  /\ (forall r,
        match nth_error (remoteHeap a) r with
        | Some x =>
            exists st e,
              nth_error (remoteHeap a') r = Some (rWithStatus st e x)
        | None => nth_error (remoteHeap a') r = None
        end).

End Events.

(** ** Folders *)
Module Folders.
Import View.

(** The paths the loop of [ensureFolder] looks up, in order. *)
Fixpoint visited (parts : list str) (current : str) : list str :=
  match parts with
  | [] => []
  | part :: parts' =>
      let current' :=
        if truthy current then current ++ u "/" ++ part else part in
      current' :: visited parts' current'
  end.

Definition isFolder (e : Entry) : Prop := exists p, e = EFolder p.

End Folders.

(** ** Occurrences *)
Module Text.


End Text.

(** ** settings.ts: the handlers of the text fields *)
Module SettingsTab.
Import Plugin.

(** [value.trim()]: white space and line terminators, the code units of
    [\s], are dropped at both ends. *)
Fixpoint trimStart (s : str) : str :=
  match s with
  | [] => []
  | c :: s' => if Regex.isSpace c then trimStart s' else s
  end.

Definition trim (s : str) : str := rev (trimStart (rev (trimStart s))).

(** [s.replace(/\/$/, '')]: one slash at the very end is dropped. *)
Definition dropSlash (s : str) : str :=
  match rev s with
  | 47%N :: r => rev r
  | _ => s
  end.

(** The [onChange] handlers, as the assignment each makes to
    [plugin.settings]. *)
Definition onAccountId (value : str) (s : ImagesR2Settings)
  : ImagesR2Settings :=
  mkSettings (trim value) (r2Token s) (bucketName s) (customDomain s)
             (downloadFolder s).

Definition onR2Token (value : str) (s : ImagesR2Settings)
  : ImagesR2Settings :=
  mkSettings (accountId s) (trim value) (bucketName s) (customDomain s)
             (downloadFolder s).

Definition onBucketName (value : str) (s : ImagesR2Settings)
  : ImagesR2Settings :=
  mkSettings (accountId s) (r2Token s) (trim value) (customDomain s)
             (downloadFolder s).

Definition onCustomDomain (value : str) (s : ImagesR2Settings)
  : ImagesR2Settings :=
  mkSettings (accountId s) (r2Token s) (bucketName s)
             (dropSlash (trim value)) (downloadFolder s).

Definition onDownloadFolder (value : str) (s : ImagesR2Settings)
  : ImagesR2Settings :=
  mkSettings (accountId s) (r2Token s) (bucketName s) (customDomain s)
             (dropSlash (trim value)).

(** A text of white space only. *)
Definition blank (s : str) : Prop := Forall (fun c => Regex.isSpace c = true) s.

End SettingsTab.
Import Plugin View.

(** * Properties *)

(** ** The patterns and the encoder on sample texts *)

Example localRegex_ex :
  map (fun m => (index m, m0 m, m1 m))
      (matchAll localRegex (u "a ![[x/Photo.PNG]] b ![[n.txt]] ![[c.d.tiff]]"))
  = [ (2, u "![[x/Photo.PNG]]", Some (u "x/Photo.PNG"));
      (32, u "![[c.d.tiff]]", Some (u "c.d.tiff")) ].
Proof. vm_compute. reflexivity. Qed.


Example remoteRegex_ex :
  map (fun m => (index m, m0 m, m1 m, m2 m))
      (matchAll remoteRegex (u "![pic](https://example.com/a/b/cat.jpg) ![](ftp://x) ![z](HTTP://q r)"))
  = [ (0, u "![pic](https://example.com/a/b/cat.jpg)", Some (u "pic"),
       Some (u "https://example.com/a/b/cat.jpg")) ].
Proof. vm_compute. reflexivity. Qed.


Example r2devRegex_ex :
  (test r2devRegex (u "https://pub-1.R2.dev/cat.jpg"),
   test r2devRegex (u "https://r2.dev/cat.jpg"),
   test r2devRegex (u "https://cdn.example.com/x.png"))
  = (true, false, false).
Proof. vm_compute. reflexivity. Qed.


Example encodeURIComponent_ex :
  (encodeURIComponent (u "photo.png"),
   encodeURIComponent (u "my photo#1.png"),
   encodeURIComponent [233%N; 55357%N; 56832%N],
   encodeURIComponent [55357%N])
  = (Some (u "photo.png"), Some (u "my%20photo%231.png"),
     Some (u "%C3%A9%F0%9F%98%80"), None).
Proof. vm_compute. reflexivity. Qed.


(** ** Strings *)

Lemma str_eqb_eq (a b : str) : str_eqb a b = true <-> a = b.
Proof.
  revert b; induction a as [|x a IH]; intros [|y b]; simpl;
    try (split; [discriminate | discriminate]); try tauto.
  rewrite andb_true_iff, N.eqb_eq, IH.
  split; [intros [-> ->]; reflexivity | intros H; injection H; auto].
Qed.

Lemma str_eqb_refl (a : str) : str_eqb a a = true.
Proof. apply str_eqb_eq; reflexivity. Qed.

Lemma str_eqb_neq (a b : str) : str_eqb a b = false <-> a <> b.
Proof.
  rewrite <- str_eqb_eq. destruct (str_eqb a b); split; congruence.
Qed.

Lemma str_eqb_sym (a b : str) : str_eqb a b = str_eqb b a.
Proof.
  destruct (str_eqb a b) eqn:E, (str_eqb b a) eqn:F; auto.
  - apply str_eqb_eq in E; subst. rewrite str_eqb_refl in F; discriminate.
  - apply str_eqb_eq in F; subst. rewrite str_eqb_refl in E; discriminate.
Qed.

Lemma truthy_true (s : str) : truthy s = true <-> s <> [].
Proof. destruct s; simpl; split; congruence. Qed.

Lemma truthy_false (s : str) : truthy s = false <-> s = [].
Proof. destruct s; simpl; split; congruence. Qed.

(** Splitting at a one-unit separator yields one piece more than the
    separator has occurrences. *)
Lemma split_go_unit_length (c : N) (s cur : str) :
  length (split_go [c] s 0 cur) = S (count_occ N.eq_dec s c).
Proof.
  revert cur; induction s as [|x s IH]; intros cur; simpl; [reflexivity|].
  destruct (N.eqb_spec c x) as [->|Hne].
  - simpl. destruct (N.eq_dec x x); [|congruence].
    simpl. rewrite IH. reflexivity.
  - destruct (N.eq_dec x c); [congruence|]. apply IH.
Qed.

Lemma lineOf_count (content : str) (m : Match) :
  lineOf content m
  = count_occ N.eq_dec (firstn (index m) content) newline.
Proof.
  unfold lineOf, split, substring0.
  rewrite split_go_unit_length. simpl. apply Nat.sub_0_r.
Qed.

(** ** The seen-set filter keeps first occurrences *)


Lemma existsb_str_In (k : str) (l : list str) :
  existsb (str_eqb k) l = true <-> In k l.
Proof.
  rewrite existsb_exists. split.
  - intros (x & Hx & E). apply str_eqb_eq in E. subst; auto.
  - intros H. exists k. split; auto. apply str_eqb_refl.
Qed.

Lemma existsb_m0_In (k : str) (l : list Match) :
  existsb (fun e => str_eqb (m0 e) k) l = true <-> In k (map m0 l).
Proof.
  rewrite existsb_exists, in_map_iff. split.
  - intros (x & Hx & E). apply str_eqb_eq in E. eauto.
  - intros (x & E & Hx). exists x. split; auto. apply str_eqb_eq; auto.
Qed.

Lemma dedup_firstOccurrences (seen : list str) (earlier ms : list Match) :
  (forall k, In k seen <-> In k (map m0 earlier)) ->
  dedup seen ms = firstOccurrences earlier ms.
Proof.
  revert seen earlier; induction ms as [|m ms IH]; intros seen earlier H;
    simpl; [reflexivity|].
  assert (E : existsb (str_eqb (m0 m)) seen
              = existsb (fun e => str_eqb (m0 e) (m0 m)) earlier).
  { apply eq_true_iff_eq.
    rewrite existsb_str_In, existsb_m0_In. apply H. }
  rewrite E.
  destruct (existsb (fun e => str_eqb (m0 e) (m0 m)) earlier) eqn:B.
  - apply IH. intros k. rewrite map_app, in_app_iff, H. simpl.
    apply existsb_m0_In in B. split; [tauto|].
    intros [?|[<-|[]]]; auto.
  - f_equal. apply IH. intros k. rewrite map_app, in_app_iff. simpl.
    rewrite H. tauto.
Qed.

Lemma dedup_spec (seen : list str) (ms : list Match) :
  NoDup (map m0 (dedup seen ms))
  /\ forall k, In k (map m0 (dedup seen ms))
               <-> In k (map m0 ms) /\ ~ In k seen.
Proof.
  revert seen; induction ms as [|m ms IH]; intros seen; simpl.
  - split; [constructor | tauto].
  - destruct (existsb (str_eqb (m0 m)) seen) eqn:B.
    + apply existsb_str_In in B. destruct (IH seen) as [ND HI].
      split; auto. intros k. rewrite HI.
      split; [tauto|]. intros [[<-|?] ?]; tauto.
    + assert (NI : ~ In (m0 m) seen).
      { rewrite <- existsb_str_In, B. discriminate. }
      destruct (IH (m0 m :: seen)) as [ND HI]. split.
      * simpl. constructor; auto. rewrite HI. simpl. tauto.
      * intros k. simpl. rewrite HI. simpl.
        destruct (list_eq_dec N.eq_dec (m0 m) k) as [<-|Hne]; tauto.
Qed.

(** ** [Map] built from keyed entries *)

Section MapFacts.
Variable V : Type.
Variable key : V -> str.



Lemma mapGet_mapSet (k k' : str) (v : V) (m : Map V) :
  mapGet k (mapSet k' v m) = if str_eqb k k' then Some v else mapGet k m.
Proof.
  induction m as [|[k2 v2] m IH]; simpl; [reflexivity|].
  destruct (str_eqb k' k2) eqn:E; simpl.
  - apply str_eqb_eq in E; subst k2.
    destruct (str_eqb k k'); reflexivity.
  - rewrite IH. destruct (str_eqb k k2) eqn:F; [|reflexivity].
    apply str_eqb_eq in F; subst k2.
    rewrite str_eqb_sym, E. reflexivity.
Qed.

Lemma find_snoc (A : Type) (p : A -> bool) (l : list A) (x : A) :
  find p (l ++ [x])
  = match find p l with
    | Some y => Some y
    | None => if p x then Some x else None
    end.
Proof.
  induction l as [|y l IH]; simpl; [reflexivity|].
  destruct (p y); auto.
Qed.

Lemma mapGet_fold (k : str) (l : list V) (m : Map V) :
  mapGet k (fold_left (fun m e => mapSet (fst e) (snd e) m) (keyed key l) m)
  = match lastWith key k l with
    | Some v => Some v
    | None => mapGet k m
    end.
Proof.
  unfold lastWith. revert m; induction l as [|x l IH]; intros m; simpl;
    [reflexivity|].
  rewrite IH, find_snoc, mapGet_mapSet. simpl.
  destruct (find _ (rev l)); [reflexivity|].
  destruct (str_eqb k (key x)); reflexivity.
Qed.

Lemma mapGet_mapOf (k : str) (l : list V) :
  mapGet k (mapOf (keyed key l)) = lastWith key k l.
Proof.
  unfold mapOf. rewrite mapGet_fold. destruct (lastWith key k l); reflexivity.
Qed.

Lemma lastWith_Some (k : str) (l : list V) (v : V) :
  lastWith key k l = Some v -> In v l /\ key v = k.
Proof.
  unfold lastWith. intros H. apply find_some in H. destruct H as [H E].
  apply in_rev in H. apply str_eqb_eq in E. auto.
Qed.

Lemma lastWith_None (k : str) (l : list V) :
  lastWith key k l = None <-> ~ In k (map key l).
Proof.
  unfold lastWith. split.
  - intros H (x & E & Hx)%in_map_iff.
    apply in_rev in Hx. apply (find_none _ _ H) in Hx.
    subst k. rewrite str_eqb_refl in Hx. discriminate.
  - intros H. destruct (find _ (rev l)) eqn:F; [|reflexivity].
    apply find_some in F. destruct F as [F E].
    apply in_rev in F. apply str_eqb_eq in E.
    exfalso. apply H. rewrite E. apply in_map. exact F.
Qed.

Lemma lastWith_unique (l : list V) (e : V) :
  NoDup (map key l) -> In e l -> lastWith key (key e) l = Some e.
Proof.
  intros ND HIn.
  destruct (lastWith key (key e) l) as [v|] eqn:F.
  - apply lastWith_Some in F. destruct F as [Hv E].
    f_equal. clear - ND HIn Hv E.
    induction l as [|x l IH]; simpl in *; [contradiction|].
    inversion ND as [|? ? NI ND']; subst.
    destruct HIn as [->|HIn], Hv as [->|Hv]; auto.
    + exfalso. apply NI. rewrite <- E. apply in_map. exact Hv.
    + exfalso. apply NI. rewrite E. apply in_map. exact HIn.
  - apply lastWith_None in F. exfalso. apply F. apply in_map. exact HIn.
Qed.
End MapFacts.

(** ** Allocation *)

Lemma objs_app (A : Type) (heap : list A) (r1 r2 : list nat) :
  objs heap (r1 ++ r2) = objs heap r1 ++ objs heap r2.
Proof. unfold objs. apply flat_map_app. Qed.

Lemma objs_alloc_from (A : Type) (heap new rest : list A) :
  objs (heap ++ new ++ rest) (seq (length heap) (length new)) = new.
Proof.
  revert heap; induction new as [|x new IH]; intros heap; simpl;
    [reflexivity|].
  rewrite nth_error_app2 by lia. rewrite Nat.sub_diag. simpl. f_equal.
  specialize (IH (heap ++ [x])).
  rewrite length_app in IH. simpl in IH.
  rewrite Nat.add_1_r in IH. rewrite <- app_assoc in IH. exact IH.
Qed.

Lemma objs_alloc (A : Type) (heap new : list A) :
  objs (heap ++ new) (seq (length heap) (length new)) = new.
Proof.
  rewrite <- (app_nil_r new) at 1. apply objs_alloc_from.
Qed.


Lemma tracked_buildItems (h : Host) (f : TFile) (content : str) (a : App) :
  tracked (buildItems h f content a)
  = map (newLocalItem h a f content (existingLocal f a))
        (localMatches content).
Proof.
  unfold tracked, buildItems. simpl. rewrite length_map.
  rewrite <- (length_map (newLocalItem h a f content (existingLocal f a))).
  apply objs_alloc.
Qed.

Lemma trackedRemote_buildItems (h : Host) (f : TFile) (content : str)
      (a : App) :
  trackedRemote (buildItems h f content a)
  = map (newRemoteItem h a content (existingRemote f a))
        (remoteMatches content).
Proof.
  unfold trackedRemote, buildItems. simpl. rewrite length_map.
  rewrite <- (length_map (newRemoteItem h a content (existingRemote f a))).
  apply objs_alloc.
Qed.

(** ** Extraction *)

Lemma firstn_length_firstn (A : Type) (n : nat) (l : list A) :
  firstn (length (firstn n l)) l = firstn n l.
Proof.
  revert l; induction n as [|n IH]; intros [|x l]; simpl; auto.
  f_equal. apply IH.
Qed.

(** A match of the scan is the text found at its index. *)
Lemma scan_at_index (r : re) (s : str) (pos skip : nat) (m : Match) :
  In m (scan r s pos skip) ->
  pos <= index m
  /\ firstn (length (m0 m)) (skipn (index m - pos) s) = m0 m.
Proof.
  revert pos skip; induction s as [|c s IH]; intros pos skip; simpl.
  - destruct (exec r []) as [[len cs]|]; simpl; [|tauto].
    intros [<-|[]]. simpl. auto.
  - assert (Hrest : forall k, In m (scan r s (S pos) k) ->
                pos <= index m
                /\ firstn (length (m0 m)) (skipn (index m - pos) (c :: s))
                   = m0 m).
    { intros k Hk. apply IH in Hk. destruct Hk as [Hle E]. split; [lia|].
      replace (index m - pos) with (S (index m - S pos)) by lia. exact E. }
    destruct skip as [|k]; [|apply Hrest].
    destruct (exec r (c :: s)) as [[len cs]|]; [|apply Hrest].
    intros [<-|Hk]; [|eapply Hrest; eauto].
    simpl index. simpl m0. rewrite Nat.sub_diag. simpl skipn.
    split; [lia | apply firstn_length_firstn].
Qed.

Lemma dedup_incl (seen : list str) (ms : list Match) (m : Match) :
  In m (dedup seen ms) -> In m ms.
Proof.
  revert seen; induction ms as [|x ms IH]; intros seen; simpl; [tauto|].
  destruct (existsb _ seen); simpl; intros H.
  - right. eapply IH; eauto.
  - destruct H; [auto | right; eapply IH; eauto].
Qed.

Lemma newLocalItem_key (h : Host) (a : App) (f : TFile) (content : str)
      (m : Match) :
  let i := newLocalItem h a f content (existingLocal f a) m in
  fullMatch i = m0 m /\ line i = lineOf content m.
Proof.
  unfold newLocalItem, existingLocal.
  destruct (negb _); simpl; [auto|].
  rewrite mapGet_mapOf.
  destruct (lastWith fullMatch (m0 m) (tracked a)) as [e|] eqn:E; simpl; auto.
  apply lastWith_Some in E. tauto.
Qed.

Lemma newRemoteItem_key (h : Host) (a : App) (f : TFile) (content : str)
      (m : Match) :
  let i := newRemoteItem h a content (existingRemote f a) m in
  rFullMatch i = m0 m /\ rLine i = lineOf content m.
Proof.
  unfold newRemoteItem, existingRemote.
  destruct (negb _); simpl; [auto|].
  rewrite mapGet_mapOf.
  destruct (lastWith rFullMatch (m0 m) (trackedRemote a)) as [e|] eqn:E;
    simpl; auto.
  apply lastWith_Some in E. tauto.
Qed.


Lemma localRefs_buildItems (h : Host) (f : TFile) (content : str) (a : App) :
  localRefs (buildItems h f content a)
  = map (fun m => (m0 m, lineOf content m)) (localMatches content).
Proof.
  unfold localRefs. rewrite tracked_buildItems, map_map.
  apply map_ext. intros m.
  destruct (newLocalItem_key h a f content m) as [-> ->]. reflexivity.
Qed.

Lemma remoteRefs_buildItems (h : Host) (f : TFile) (content : str) (a : App) :
  remoteRefs (buildItems h f content a)
  = map (fun m => (m0 m, lineOf content m)) (remoteMatches content).
Proof.
  unfold remoteRefs. rewrite trackedRemote_buildItems, map_map.
  apply map_ext. intros m.
  destruct (newRemoteItem_key h a f content m) as [-> ->]. reflexivity.
Qed.

Lemma withLine_same (i : ImageItem) (l : nat) :
  line i = l -> withLine l i = i.
Proof. intros <-. destruct i; reflexivity. Qed.

Lemma rWithLine_same (i : RemoteImageItem) (l : nat) :
  rLine i = l -> rWithLine l i = i.
Proof. intros <-. destruct i; reflexivity. Qed.

Lemma NoDup_map_m0_local (content : str) :
  NoDup (map m0 (localMatches content)).
Proof. apply dedup_spec. Qed.

Lemma NoDup_map_m0_remote (content : str) :
  NoDup (map m0 (remoteMatches content)).
Proof. apply dedup_spec. Qed.

Lemma optstr_eqb_refl (o : option str) : optstr_eqb o o = true.
Proof. destruct o; simpl; auto using str_eqb_refl. Qed.

(** Rebuilding a second time from the same text changes neither list. *)
Lemma buildItems_twice (h : Host) (f : TFile) (content : str) (a : App) :
  tracked (buildItems h f content (buildItems h f content a))
  = tracked (buildItems h f content a)
  /\ trackedRemote (buildItems h f content (buildItems h f content a))
     = trackedRemote (buildItems h f content a).
Proof.
  split.
  - rewrite (tracked_buildItems h f content (buildItems h f content a)).
    rewrite (tracked_buildItems h f content a).
    apply map_ext_in. intros m Hm.
    unfold newLocalItem at 1. unfold existingLocal at 1.
    replace (currentFilePath (buildItems h f content a))
      with (Some (path f)) by reflexivity.
    rewrite optstr_eqb_refl. cbn [negb].
    rewrite mapGet_mapOf, (tracked_buildItems h f content a).
    set (g := newLocalItem h a f content (existingLocal f a)).
    destruct (newLocalItem_key h a f content m) as [K L]. fold g in K, L.
    rewrite <- K.
    rewrite (lastWith_unique fullMatch (map g (localMatches content)) (g m)).
    + apply withLine_same. exact L.
    + rewrite map_map.
      rewrite (map_ext _ m0
                 (fun x => proj1 (newLocalItem_key h a f content x))).
      apply NoDup_map_m0_local.
    + apply in_map. exact Hm.
  - rewrite (trackedRemote_buildItems h f content (buildItems h f content a)).
    rewrite (trackedRemote_buildItems h f content a).
    apply map_ext_in. intros m Hm.
    unfold newRemoteItem at 1. unfold existingRemote at 1.
    replace (currentFilePath (buildItems h f content a))
      with (Some (path f)) by reflexivity.
    rewrite optstr_eqb_refl. cbn [negb].
    rewrite mapGet_mapOf, (trackedRemote_buildItems h f content a).
    set (g := newRemoteItem h a content (existingRemote f a)).
    destruct (newRemoteItem_key h a f content m) as [K L]. fold g in K, L.
    rewrite <- K.
    rewrite (lastWith_unique rFullMatch (map g (remoteMatches content)) (g m)).
    + apply rWithLine_same. exact L.
    + rewrite map_map.
      rewrite (map_ext _ m0
                 (fun x => proj1 (newRemoteItem_key h a f content x))).
      apply NoDup_map_m0_remote.
    + apply in_map. exact Hm.
Qed.

(** C4.  Extraction depends on the document text alone: rebuilding from any
    two engine states, hosts and files over the same text leaves the same
    ordered lists of raw texts and line numbers, namely those of the
    deduplicated matches, and rebuilding twice in a row leaves the lists of
    the first rebuild.  The deduplication keeps a match exactly when no
    earlier match of the pass has the same raw text, so the kept raw texts
    are pairwise distinct; every kept match is the text standing at its
    index; and its line number is the number of newline units before that
    index. *)
Theorem extraction_pure_dedup_first_line_count
        (h1 h2 : Host) (f1 f2 : TFile) (content : str) (a1 a2 : App) :
  (localRefs (buildItems h1 f1 content a1)
   = localRefs (buildItems h2 f2 content a2)
   /\ remoteRefs (buildItems h1 f1 content a1)
      = remoteRefs (buildItems h2 f2 content a2))
  /\ (tracked (buildItems h1 f1 content (buildItems h1 f1 content a1))
      = tracked (buildItems h1 f1 content a1)
      /\ trackedRemote (buildItems h1 f1 content (buildItems h1 f1 content a1))
         = trackedRemote (buildItems h1 f1 content a1))
  /\ (localRefs (buildItems h1 f1 content a1)
      = map (fun m => (m0 m, lineOf content m)) (localMatches content)
      /\ remoteRefs (buildItems h1 f1 content a1)
         = map (fun m => (m0 m, lineOf content m)) (remoteMatches content))
  /\ (localMatches content
      = firstOccurrences [] (matchAll localRegex content)
      /\ remoteMatches content
         = firstOccurrences [] (matchAll remoteRegex content))
  /\ (NoDup (map m0 (localMatches content))
      /\ NoDup (map m0 (remoteMatches content)))
  /\ (forall m, In m (localMatches content) \/ In m (remoteMatches content) ->
        firstn (length (m0 m)) (skipn (index m) content) = m0 m
        /\ lineOf content m
           = count_occ N.eq_dec (firstn (index m) content) newline).
Proof.
  split; [|split; [|split; [|split; [|split]]]].
  - rewrite !localRefs_buildItems, !remoteRefs_buildItems. auto.
  - apply buildItems_twice.
  - split; [apply localRefs_buildItems | apply remoteRefs_buildItems].
  - split; apply dedup_firstOccurrences; simpl; tauto.
  - split; apply dedup_spec.
  - intros m H. split; [|apply lineOf_count].
    destruct H as [H|H]; apply dedup_incl in H;
      apply scan_at_index in H; destruct H as [_ H];
      rewrite Nat.sub_0_r in H; exact H.
Qed.

Lemma extraction_witness :
  let content :=
    u "intro" ++ [newline] ++ u "![[x.png]] and ![[x.png]]" ++ [newline]
      ++ u "![p](http://h/i.jpg)" in
  let a := Scenario.opened Scenario.configured content [] in
  let m := mkMatch 32 (u "![p](http://h/i.jpg)") (Some (u "p"))
                   (Some (u "http://h/i.jpg")) in
  localRefs (buildItems Scenario.offline Scenario.note content a)
  = [(u "![[x.png]]", 1)]
  /\ remoteRefs (buildItems Scenario.offline Scenario.note content a)
     = [(u "![p](http://h/i.jpg)", 2)]
  /\ (In m (localMatches content) \/ In m (remoteMatches content))
  /\ lineOf content m
     = count_occ N.eq_dec (firstn (index m) content) newline.
Proof.
  intros content a m.
  destruct (extraction_pure_dedup_first_line_count
              Scenario.offline Scenario.offline Scenario.note Scenario.note
              content a a) as (_ & _ & [L R] & _ & _ & P).
  assert (Hm : In m (localMatches content) \/ In m (remoteMatches content)).
  { right. vm_compute. left. reflexivity. }
  split; [rewrite L; vm_compute; reflexivity|].
  split; [rewrite R; vm_compute; reflexivity|].
  split; [exact Hm | apply (P m Hm)].
Defined.

(** ** Reconciliation *)

Lemma Forall2_map_self (A B : Type) (R : A -> B -> Prop) (g : A -> B)
      (l : list A) :
  (forall x, In x l -> R x (g x)) -> Forall2 R l (map g l).
Proof.
  induction l as [|x l IH]; simpl; intros H; constructor; auto.
Qed.

Lemma optstr_eqb_eq (x y : option str) : optstr_eqb x y = true <-> x = y.
Proof.
  destruct x, y; simpl; try (split; congruence).
  rewrite str_eqb_eq. split; congruence.
Qed.

Lemma existingLocal_same (f : TFile) (a : App) :
  currentFilePath a = Some (path f) ->
  existingLocal f a = mapOf (keyed fullMatch (tracked a)).
Proof.
  unfold existingLocal. intros ->. rewrite optstr_eqb_refl. reflexivity.
Qed.

Lemma existingRemote_same (f : TFile) (a : App) :
  currentFilePath a = Some (path f) ->
  existingRemote f a = mapOf (keyed rFullMatch (trackedRemote a)).
Proof.
  unfold existingRemote. intros ->. rewrite optstr_eqb_refl. reflexivity.
Qed.

Lemma existing_changed (f : TFile) (a : App) :
  currentFilePath a <> Some (path f) ->
  existingLocal f a = [] /\ existingRemote f a = [].
Proof.
  unfold existingLocal, existingRemote. intros H.
  destruct (optstr_eqb (Some (path f)) (currentFilePath a)) eqn:E; auto.
  apply optstr_eqb_eq in E. congruence.
Qed.

(** The raw texts of a rebuilt list are those of the deduplicated matches,
    so they are pairwise distinct: the premise of the reconciliation
    theorem holds after every rebuild. *)
Lemma buildItems_keys (h : Host) (f : TFile) (content : str) (a : App) :
  map fullMatch (tracked (buildItems h f content a))
  = map m0 (localMatches content)
  /\ map rFullMatch (trackedRemote (buildItems h f content a))
     = map m0 (remoteMatches content).
Proof.
  rewrite tracked_buildItems, trackedRemote_buildItems, !map_map.
  split; apply map_ext; intros m.
  - apply newLocalItem_key.
  - apply (newRemoteItem_key h a f content m).
Qed.

Lemma buildItems_NoDup (h : Host) (f : TFile) (content : str) (a : App) :
  NoDup (map fullMatch (tracked (buildItems h f content a)))
  /\ NoDup (map rFullMatch (trackedRemote (buildItems h f content a))).
Proof.
  destruct (buildItems_keys h f content a) as [-> ->].
  split; apply dedup_spec.
Qed.

(** After a rebuild every reference of the two lists names an object. *)
Lemma buildItems_refs_live (h : Host) (f : TFile) (content : str) (a : App) :
  length (tracked (buildItems h f content a))
  = length (items (buildItems h f content a))
  /\ length (trackedRemote (buildItems h f content a))
     = length (remoteItems (buildItems h f content a)).
Proof.
  rewrite tracked_buildItems, trackedRemote_buildItems.
  unfold buildItems. simpl. rewrite !length_seq. auto.
Qed.

(** C1 (amended).  On a re-extraction over the same document the rebuilt
    lists consist exactly of the deduplicated matches, in order.  A match
    whose raw text was tracked gives the previous item with its line number
    replaced and every other field, status, error message and file handle
    included, carried forward; a match that was not tracked gives a new idle
    item without error message; and a previous item whose raw text is not
    extracted any more has no counterpart in the rebuilt list. *)
Theorem rebuild_same_document_carries_all_but_line
        (h : Host) (f : TFile) (content : str) (a : App) :
  currentFilePath a = Some (path f) ->
  NoDup (map fullMatch (tracked a)) ->
  NoDup (map rFullMatch (trackedRemote a)) ->
  Forall2
    (fun m i =>
       fullMatch i = m0 m
       /\ (forall e, In e (tracked a) -> fullMatch e = m0 m ->
             i = withLine (lineOf content m) e
             /\ status i = status e /\ error i = error e
             /\ file i = file e /\ line i = lineOf content m)
       /\ (~ In (m0 m) (map fullMatch (tracked a)) ->
             i = newLocalItem h a f content [] m
             /\ status i = idle /\ error i = None
             /\ line i = lineOf content m))
    (localMatches content) (tracked (buildItems h f content a))
  /\ Forall2
       (fun m i =>
          rFullMatch i = m0 m
          /\ (forall e, In e (trackedRemote a) -> rFullMatch e = m0 m ->
                i = rWithLine (lineOf content m) e
                /\ rStatus i = rStatus e /\ rError i = rError e
                /\ rLine i = lineOf content m)
          /\ (~ In (m0 m) (map rFullMatch (trackedRemote a)) ->
                i = newRemoteItem h a content [] m
                /\ rStatus i = idle /\ rError i = None
                /\ rLine i = lineOf content m))
       (remoteMatches content) (trackedRemote (buildItems h f content a))
  /\ (forall e, In e (tracked a) ->
        ~ In (fullMatch e) (map m0 (localMatches content)) ->
        ~ In (fullMatch e) (map fullMatch (tracked (buildItems h f content a))))
  /\ (forall e, In e (trackedRemote a) ->
        ~ In (rFullMatch e) (map m0 (remoteMatches content)) ->
        ~ In (rFullMatch e)
             (map rFullMatch (trackedRemote (buildItems h f content a)))).
Proof.
  intros Hsame NDl NDr.
  destruct (buildItems_keys h f content a) as [Kl Kr].
  split; [|split; [|split]].
  - rewrite tracked_buildItems. apply Forall2_map_self. intros m _.
    split; [apply newLocalItem_key|].
    unfold newLocalItem. rewrite (existingLocal_same _ _ Hsame), mapGet_mapOf.
    destruct (lastWith fullMatch (m0 m) (tracked a)) as [e0|] eqn:E; split.
    + intros e He Hk. rewrite <- Hk in E.
      rewrite (lastWith_unique fullMatch _ _ NDl He) in E.
      injection E as <-. simpl. auto.
    + intros NI. apply lastWith_Some in E. destruct E as [He0 Hk].
      exfalso. apply NI. rewrite <- Hk. apply in_map. exact He0.
    + intros e He Hk. apply lastWith_None in E.
      exfalso. apply E. rewrite <- Hk. apply in_map. exact He.
    + intros _. simpl. auto.
  - rewrite trackedRemote_buildItems. apply Forall2_map_self. intros m _.
    split; [apply (newRemoteItem_key h a f content m)|].
    unfold newRemoteItem.
    rewrite (existingRemote_same _ _ Hsame), mapGet_mapOf.
    destruct (lastWith rFullMatch (m0 m) (trackedRemote a)) as [e0|] eqn:E;
      split.
    + intros e He Hk. rewrite <- Hk in E.
      rewrite (lastWith_unique rFullMatch _ _ NDr He) in E.
      injection E as <-. simpl. auto.
    + intros NI. apply lastWith_Some in E. destruct E as [He0 Hk].
      exfalso. apply NI. rewrite <- Hk. apply in_map. exact He0.
    + intros e He Hk. apply lastWith_None in E.
      exfalso. apply E. rewrite <- Hk. apply in_map. exact He.
    + intros _. simpl. auto.
  - intros e _ NI. rewrite Kl. exact NI.
  - intros e _ NI. rewrite Kr. exact NI.
Qed.

Lemma rebuild_same_document_witness :
  let a := Scenario.tracking Scenario.configured
             (u "![[photo.png]]") [EFile Scenario.photo]
             (Scenario.photoItem (Some Scenario.photo) failed
                                 (Some (u "HTTP 500"))) in
  let content := u "notes" ++ [newline] ++ u "![[photo.png]] ![[new.gif]]" in
  currentFilePath a = Some (path Scenario.note)
  /\ NoDup (map fullMatch (tracked a))
  /\ NoDup (map rFullMatch (trackedRemote a))
  /\ map (fun i => (status i, error i, line i))
         (tracked (buildItems Scenario.offline Scenario.note content a))
     = [(failed, Some (u "HTTP 500"), 1); (idle, None, 1)]
  /\ Forall2
       (fun m i =>
          fullMatch i = m0 m
          /\ (forall e, In e (tracked a) -> fullMatch e = m0 m ->
                i = withLine (lineOf content m) e
                /\ status i = status e /\ error i = error e
                /\ file i = file e /\ line i = lineOf content m)
          /\ (~ In (m0 m) (map fullMatch (tracked a)) ->
                i = newLocalItem Scenario.offline a Scenario.note content [] m
                /\ status i = idle /\ error i = None
                /\ line i = lineOf content m))
       (localMatches content)
       (tracked (buildItems Scenario.offline Scenario.note content a)).
Proof.
  intros a content.
  assert (H1 : currentFilePath a = Some (path Scenario.note))
    by reflexivity.
  assert (H2 : NoDup (map fullMatch (tracked a))).
  { vm_compute. constructor; [simpl; tauto | constructor]. }
  assert (H3 : NoDup (map rFullMatch (trackedRemote a)))
    by (vm_compute; constructor).
  split; [exact H1 | split; [exact H2 | split; [exact H3 | split]]].
  - vm_compute. reflexivity.
  - apply (rebuild_same_document_carries_all_but_line
             Scenario.offline Scenario.note content a H1 H2 H3).
Defined.

(** C1 as stated fails: an item tracked without a file handle is carried
    forward without one, although its image now resolves to a file of the
    vault; the handle is not resolved afresh. *)
Lemma rebuild_refreshes_handle_counterexample :
  let a := Scenario.tracking Scenario.configured
             (u "![[photo.png]]") [EFile Scenario.photo]
             (Scenario.photoItem None idle None) in
  let a' := buildItems Scenario.offline Scenario.note (u "![[photo.png]]") a in
  currentFilePath a = Some (path Scenario.note)
  /\ map fullMatch (tracked a) = [u "![[photo.png]]"]
  /\ resolveImageFile Scenario.offline (getFiles (vault a)) (u "photo.png")
                      Scenario.note
     = Some Scenario.photo
  /\ map file (tracked a') = [None]
  /\ ~ Forall (fun i => file i
                        = resolveImageFile Scenario.offline (getFiles (vault a))
                                           (imagePath i) Scenario.note)
              (tracked a').
Proof.
  repeat split; try (vm_compute; reflexivity).
  intros H. vm_compute in H. inversion H as [|? ? E _]. discriminate E.
Qed.

(** The switches that do clear.  A rebuild for a document whose path is not
    the tracked one carries nothing forward: both lists are exactly what a
    rebuild from emptied lists gives, every item of them new, idle and
    without error message.  The [file-open] handler called with no file, or
    with a file that is not a markdown document, empties both lists and
    forgets the tracked path; called with a markdown document it is that
    rebuild. *)
Theorem document_switch_clears_both_lists
        (h : Host) (f : TFile) (content : str) (a : App) :
  currentFilePath a <> Some (path f) ->
  (tracked (buildItems h f content a)
   = tracked (buildItems h f content (set_remoteItems [] (set_items [] a)))
   /\ trackedRemote (buildItems h f content a)
      = trackedRemote
          (buildItems h f content (set_remoteItems [] (set_items [] a))))
  /\ (tracked (buildItems h f content a)
      = map (newLocalItem h a f content []) (localMatches content)
      /\ trackedRemote (buildItems h f content a)
         = map (newRemoteItem h a content []) (remoteMatches content))
  /\ (Forall (fun i => status i = idle /\ error i = None)
             (tracked (buildItems h f content a))
      /\ Forall (fun i => rStatus i = idle /\ rError i = None)
                (trackedRemote (buildItems h f content a)))
  /\ (tracked (refreshForFile h None a) = []
      /\ trackedRemote (refreshForFile h None a) = []
      /\ currentFilePath (refreshForFile h None a) = None)
  /\ (forall g, extension g <> u "md" ->
        tracked (refreshForFile h (Some g) a) = []
        /\ trackedRemote (refreshForFile h (Some g) a) = []
        /\ currentFilePath (refreshForFile h (Some g) a) = None)
  /\ (extension f = u "md" ->
        refreshForFile h (Some f) a = buildItems h f (cachedRead h f) a).
Proof.
  intros Hchg.
  destruct (existing_changed f a Hchg) as [EL ER].
  assert (TL : tracked (buildItems h f content a)
               = map (newLocalItem h a f content []) (localMatches content)).
  { rewrite tracked_buildItems, EL. reflexivity. }
  assert (TR : trackedRemote (buildItems h f content a)
               = map (newRemoteItem h a content []) (remoteMatches content)).
  { rewrite trackedRemote_buildItems, ER. reflexivity. }
  split; [|split; [|split; [|split; [|split]]]].
  - rewrite TL, TR, tracked_buildItems, trackedRemote_buildItems.
    unfold existingLocal, existingRemote, tracked, trackedRemote. simpl.
    destruct (negb _); split; reflexivity.
  - auto.
  - rewrite TL, TR. split; apply Forall_forall; intros i Hi;
      apply in_map_iff in Hi; destruct Hi as (m & <- & _); simpl; auto.
  - repeat split.
  - intros g Hg. unfold refreshForFile.
    destruct (str_eqb (extension g) (u "md")) eqn:E.
    + apply str_eqb_eq in E. contradiction.
    + repeat split.
  - intros E. unfold refreshForFile. rewrite E. reflexivity.
Qed.

Lemma document_switch_witness :
  let a := Scenario.tracking Scenario.configured
             (u "![[photo.png]]") [EFile Scenario.photo]
             (Scenario.photoItem (Some Scenario.photo) failed
                                 (Some (u "HTTP 500"))) in
  let content := u "![[photo.png]]" in
  currentFilePath a <> Some (path Scenario.otherNote)
  /\ map status (tracked a) = [failed]
  /\ Forall (fun i => status i = idle /\ error i = None)
            (tracked (buildItems Scenario.offline Scenario.otherNote content a)).
Proof.
  intros a content.
  assert (H : currentFilePath a <> Some (path Scenario.otherNote))
    by (vm_compute; discriminate).
  split; [exact H | split; [reflexivity|]].
  apply (document_switch_clears_both_lists
           Scenario.offline Scenario.otherNote content a H).
Defined.

(** C3.  The claim fails where [refresh] goes to no document.  With no
    markdown view active and the tracked document gone from the vault,
    [refresh] (through [refreshCurrentFile]) forgets the tracked path, as
    on a switch to no document, but leaves both lists as they were, the
    failed items included; the [file-open] handler, called with no file in
    the same state, empties both. *)
Theorem refresh_to_no_document_keeps_both_lists :
  currentFilePath Scenario.vanished = Some (path Scenario.note)
  /\ getActiveView Scenario.vanished = None
  /\ getAbstractFileByPath (vault Scenario.vanished) (path Scenario.note)
     = None
  /\ currentFilePath (refresh Scenario.offline Scenario.vanished) = None
  /\ tracked (refresh Scenario.offline Scenario.vanished)
     = [Scenario.photoItem (Some Scenario.photo) failed
                           (Some (u "HTTP 500"))]
  /\ trackedRemote (refresh Scenario.offline Scenario.vanished)
     = [Scenario.catItem failed (Some (u "HTTP 500"))]
  /\ tracked (refreshForFile Scenario.offline None Scenario.vanished) = []
  /\ trackedRemote (refreshForFile Scenario.offline None Scenario.vanished)
     = [].
Proof.
  repeat (split; [vm_compute; reflexivity|]). vm_compute. reflexivity.
Qed.

(** ** The passive-notification guard *)


Lemma tracked_set_timers (a : App) (t : list Timer) (n : N) (r : option N) :
  let a' := set_refreshTimer r (set_nextTimer n (set_timers t a)) in
  tracked a' = tracked a /\ trackedRemote a' = trackedRemote a
  /\ localHeap a' = localHeap a /\ remoteHeap a' = remoteHeap a
  /\ items a' = items a /\ remoteItems a' = remoteItems a
  /\ currentFilePath a' = currentFilePath a /\ leaves a' = leaves a.
Proof. repeat split. Qed.



(** ** The blob client *)

(** The base URL [uploadItem] hands to the upload is the one
    [resolveBaseUrl] returned. *)
Lemma uploadItem_passes_resolved_base
      (h : Host) (item : nat) (activeFile : TFile) (a : App)
      (it : ImageItem) (f : TFile) (base : str) :
  nth_error (localHeap a) item = Some it ->
  file it = Some f ->
  fst (resolveBaseUrl h (settings a)) = Some base ->
  base <> [] ->
  uploadItem h item activeFile a
  = handler (doUpload h item activeFile base a).
Proof.
  intros Hit Hf Hb Hne. unfold uploadItem. rewrite Hit, Hf, Hb.
  unfold usable. apply truthy_true in Hne. rewrite Hne. reflexivity.
Qed.

(** C5.  Whenever [uploadImageFile] reports success, the file was given,
    its name encodes, the one request sent stored the object under the
    encoded file name, and the public URL is the base URL the function was
    called with, a slash, and that encoded name.  Nothing of the store's
    answer enters it: under any other host, and so any other response body,
    a successful upload of the same file returns the same URL. *)
Theorem upload_success_url_is_base_slash_encoded_name
        (h : Host) (s : ImagesR2Settings) (imageFile : option TFile)
        (baseUrl publicUrl : str) (sent : list Net.Request) :
  uploadImageFile h s imageFile baseUrl = (Success publicUrl, sent) ->
  (exists f enc,
      imageFile = Some f
      /\ encodeURIComponent (name f) = Some enc
      /\ map Net.url sent
         = [api (accountId s) (bucketName s) (u "/objects/" ++ enc)]
      /\ publicUrl = baseUrl ++ u "/" ++ enc)
  /\ (forall h' publicUrl' sent',
        uploadImageFile h' s imageFile baseUrl = (Success publicUrl', sent') ->
        publicUrl' = publicUrl).
Proof.
  assert (G : forall h0 url0 sent0,
             uploadImageFile h0 s imageFile baseUrl = (Success url0, sent0) ->
             exists f enc,
               imageFile = Some f
               /\ encodeURIComponent (name f) = Some enc
               /\ map Net.url sent0
                  = [api (accountId s) (bucketName s) (u "/objects/" ++ enc)]
               /\ url0 = baseUrl ++ u "/" ++ enc).
  { intros h0 url0 sent0. unfold uploadImageFile.
    destruct (_ || _); [discriminate|].
    destruct (readBinary h0 imageFile); [discriminate|].
    destruct imageFile as [f|]; [|discriminate].
    destruct (encodeURIComponent (name f)) as [enc|] eqn:En; [|discriminate].
    destruct (requestUrl h0 _) as [|response]; [discriminate|].
    destruct (negb _); [discriminate|].
    destruct (Net.json response) as [| |data]; try discriminate.
    destruct (Net.success data); [|discriminate].
    intros E. injection E as <- <-. exists f, enc. auto. }
  intros H. split; [eapply G; eauto|].
  intros h' url' sent' H'.
  apply G in H. apply G in H'.
  destruct H as (f & enc & -> & E & _ & ->), H' as (f' & enc' & F & E' & _ & ->).
  injection F as <-. congruence.
Qed.

Lemma upload_success_url_witness :
  uploadImageFile Scenario.online Scenario.configured (Some Scenario.photo)
                  (u "https://cdn.example.com")
  = (Success (u "https://cdn.example.com/photo.png"),
     [Net.mkRequest
        (u "https://api.cloudflare.com/client/v4/accounts/acct/r2/buckets/bucket/objects/photo.png")
        Net.PUT
        [(u "Authorization", Net.Text (u "Bearer token"));
         (u "Content-Type", Net.Text (u "image/png"))]
        (Some [137; 80; 78; 71]%N)])
  /\ exists f enc,
      Some Scenario.photo = Some f
      /\ encodeURIComponent (name f) = Some enc
      /\ u "https://cdn.example.com/photo.png"
         = u "https://cdn.example.com" ++ u "/" ++ enc.
Proof.
  assert (H : uploadImageFile Scenario.online Scenario.configured
                (Some Scenario.photo) (u "https://cdn.example.com")
              = (Success (u "https://cdn.example.com/photo.png"),
                 [Net.mkRequest
                    (u "https://api.cloudflare.com/client/v4/accounts/acct/r2/buckets/bucket/objects/photo.png")
                    Net.PUT
                    [(u "Authorization", Net.Text (u "Bearer token"));
                     (u "Content-Type", Net.Text (u "image/png"))]
                    (Some [137; 80; 78; 71]%N)]))
    by (vm_compute; reflexivity).
  split; [exact H|].
  destruct (proj1 (upload_success_url_is_base_slash_encoded_name _ _ _ _ H))
    as (f & enc & F & E & _ & U).
  exists f, enc. auto.
Defined.

Lemma fetchManagedDomain_None (h : Host) (s : ImagesR2Settings) :
  fst (fetchManagedDomain h (accountId s) (r2Token s) (bucketName s)) = None
  <-> queryFails h s.
Proof.
  unfold fetchManagedDomain, queryFails, namesDomain.
  change (managedRequest (accountId s) (r2Token s) (bucketName s))
    with (managedEndpoint s).
  cbn [fst].
  destruct (requestUrl h (managedEndpoint s)) as [msg|response]; [tauto|].
  destruct (Z.eqb_spec (Net.status response) 200) as [E|E]; simpl;
    [|tauto].
  destruct (Net.json response) as [msg| |e].
  - split; auto. intros _. right. intros d (e & r & X & _). discriminate.
  - split; auto. intros _. right. intros d (e & r & X & _). discriminate.
  - destruct (Net.result e) as [r|] eqn:R.
    + destruct (Net.domain r) as [d|] eqn:D.
      * destruct d as [|c d]; simpl.
        -- split; auto. intros _. right.
           intros d' (e' & r' & X & R' & D' & Hne).
           injection X as <-. congruence.
        -- split; [discriminate|]. intros [H|H]; [contradiction|].
           exfalso. apply (H (c :: d)). exists e, r.
           repeat split; auto. discriminate.
      * split; auto. intros _. right.
        intros d' (e' & r' & X & R' & D' & Hne).
        injection X as <-. congruence.
    + split; auto. intros _. right.
      intros d' (e' & r' & X & R' & _). injection X as <-. congruence.
Qed.

Lemma fetchManagedDomain_Some (h : Host) (s : ImagesR2Settings)
      (r : Net.Response) (d : str) :
  requestUrl h (managedEndpoint s) = Net.NetResponse r ->
  Net.status r = 200%Z ->
  namesDomain (Net.json r) d ->
  fst (fetchManagedDomain h (accountId s) (r2Token s) (bucketName s))
  = Some (u "https://" ++ d).
Proof.
  intros Hr Hs (e & res & J & R & D & Hne).
  unfold fetchManagedDomain.
  change (managedRequest (accountId s) (r2Token s) (bucketName s))
    with (managedEndpoint s).
  cbn [fst]. rewrite Hr, Hs, J, R, D. simpl.
  destruct d; [congruence | reflexivity].
Qed.

(** C6.  [resolveBaseUrl] returns the custom domain whenever it is not
    empty, sending nothing.  With no custom domain and an empty account id,
    token or bucket name it returns none, sending nothing.  Otherwise it
    sends one request, the query of the managed-domain endpoint: a GET of
    [https://api.cloudflare.com/client/v4/accounts/<account>/r2/buckets/<bucket>/domains/managed]
    with the token as bearer and no body; and it returns none exactly when
    that query fails: a network error, a status other than 200, or a body
    naming no domain; a body naming a domain gives that domain behind
    [https://]. *)
Theorem resolveBaseUrl_custom_else_managed (h : Host) (s : ImagesR2Settings) :
  (customDomain s <> [] -> resolveBaseUrl h s = (Some (customDomain s), []))
  /\ (customDomain s = [] ->
      accountId s = [] \/ r2Token s = [] \/ bucketName s = [] ->
      resolveBaseUrl h s = (None, []))
  /\ (customDomain s = [] ->
      accountId s <> [] -> r2Token s <> [] -> bucketName s <> [] ->
      snd (resolveBaseUrl h s)
      = [Net.mkRequest
           (u "https://api.cloudflare.com/client/v4/accounts/" ++ accountId s
              ++ u "/r2/buckets/" ++ bucketName s ++ u "/domains/managed")
           Net.GET
           [(u "Authorization", Net.Text (u "Bearer " ++ r2Token s))]
           None]
      /\ (fst (resolveBaseUrl h s) = None <-> queryFails h s)
      /\ (forall r d,
            requestUrl h (managedEndpoint s) = Net.NetResponse r ->
            Net.status r = 200%Z ->
            namesDomain (Net.json r) d ->
            fst (resolveBaseUrl h s) = Some (u "https://" ++ d))).
Proof.
  unfold resolveBaseUrl. split; [|split].
  - intros H. apply truthy_true in H. rewrite H. reflexivity.
  - intros H Hc. apply truthy_false in H. rewrite H.
    replace (_ || _) with true; [reflexivity|].
    symmetry. rewrite !orb_true_iff, !negb_true_iff, !truthy_false. tauto.
  - intros H Ha Ht Hb. apply truthy_false in H. rewrite H.
    apply truthy_true in Ha, Ht, Hb. rewrite Ha, Ht, Hb. simpl.
    split; [reflexivity|]. split.
    + apply fetchManagedDomain_None.
    + apply fetchManagedDomain_Some.
Qed.

Lemma resolveBaseUrl_witness :
  (customDomain Scenario.configured <> []
   /\ resolveBaseUrl Scenario.offline Scenario.configured
      = (Some (u "https://cdn.example.com"), []))
  /\ (customDomain Scenario.noToken = []
      /\ r2Token Scenario.noToken = []
      /\ resolveBaseUrl Scenario.managed Scenario.noToken = (None, []))
  /\ (customDomain Scenario.managedOnly = []
      /\ accountId Scenario.managedOnly <> []
      /\ r2Token Scenario.managedOnly <> []
      /\ bucketName Scenario.managedOnly <> []
      /\ queryFails Scenario.offline Scenario.managedOnly
      /\ fst (resolveBaseUrl Scenario.offline Scenario.managedOnly) = None
      /\ fst (resolveBaseUrl Scenario.managed Scenario.managedOnly)
         = Some (u "https://pub-1.r2.dev")
      /\ snd (resolveBaseUrl Scenario.managed Scenario.managedOnly)
         = [Net.mkRequest
              (u "https://api.cloudflare.com/client/v4/accounts/acct/r2/buckets/bucket/domains/managed")
              Net.GET [(u "Authorization", Net.Text (u "Bearer token"))]
              None]).
Proof.
  assert (C : customDomain Scenario.configured <> [])
    by (vm_compute; discriminate).
  assert (A : accountId Scenario.managedOnly <> [])
    by (vm_compute; discriminate).
  assert (T : r2Token Scenario.managedOnly <> [])
    by (vm_compute; discriminate).
  assert (B : bucketName Scenario.managedOnly <> [])
    by (vm_compute; discriminate).
  assert (Q : queryFails Scenario.offline Scenario.managedOnly)
    by exact I.
  split; [|split].
  - split; [exact C|].
    apply (proj1 (resolveBaseUrl_custom_else_managed
                    Scenario.offline Scenario.configured) C).
  - split; [reflexivity | split; [reflexivity|]].
    apply (proj1 (proj2 (resolveBaseUrl_custom_else_managed
                           Scenario.managed Scenario.noToken)) eq_refl).
    right. left. reflexivity.
  - split; [reflexivity|]. split; [exact A|]. split; [exact T|].
    split; [exact B|]. split; [exact Q|]. split.
    + destruct (proj2 (proj2 (resolveBaseUrl_custom_else_managed
                                Scenario.offline Scenario.managedOnly))
                      eq_refl A T B) as (_ & Hiff & _).
      apply Hiff. exact Q.
    + destruct (proj2 (proj2 (resolveBaseUrl_custom_else_managed
                                Scenario.managed Scenario.managedOnly))
                      eq_refl A T B) as (Hq & _ & Hd).
      split; [|exact Hq].
      apply (Hd Scenario.domainOk).
      * reflexivity.
      * reflexivity.
      * eexists _, _. repeat split; try reflexivity. discriminate.
Defined.

(** ** Destination paths *)

Lemma lastIndexOf_go_shift (c : N) (s : str) (pos : nat) (found : option nat) :
  lastIndexOf_go c s pos found
  = match lastIndexOf_go c s 0 None with
    | Some d => Some (pos + d)
    | None => found
    end.
Proof.
  revert pos found; induction s as [|x s IH]; intros pos found; simpl;
    [reflexivity|].
  rewrite (IH (S pos)), (IH 1).
  destruct (lastIndexOf_go c s 0 None) as [d|].
  - f_equal. lia.
  - destruct (N.eqb x c); [f_equal; lia | reflexivity].
Qed.

Lemma lastIndexOf_cons (c x : N) (s : str) :
  lastIndexOf c (x :: s)
  = match lastIndexOf c s with
    | Some d => Some (S d)
    | None => if N.eqb x c then Some 0 else None
    end.
Proof.
  unfold lastIndexOf. simpl. rewrite lastIndexOf_go_shift.
  destruct (lastIndexOf_go c s 0 None); reflexivity.
Qed.

(** The index found is that of the last occurrence. *)
Lemma lastIndexOf_spec (c : N) (s : str) :
  match lastIndexOf c s with
  | Some d => exists e, skipn d s = c :: e /\ ~ In c e
  | None => ~ In c s
  end.
Proof.
  induction s as [|x s IH]; [simpl; tauto|].
  rewrite lastIndexOf_cons.
  destruct (lastIndexOf c s) as [d|]; [exact IH|].
  destruct (N.eqb_spec x c) as [->|Hne].
  - exists s. auto.
  - simpl. tauto.
Qed.

(** C7 as stated fails: when the suffixed path is taken as well, the path
    returned collides with an existing file. *)
Lemma uniquePath_collides_counterexample :
  let v := [EFile Scenario.cat; EFile Scenario.catTwin] in
  getAbstractFileByPath v (u "cat.jpg") = Some (EFile Scenario.cat)
  /\ uniquePath Scenario.offline v (u "cat.jpg") = u "cat-deadbeef.jpg"
  /\ getAbstractFileByPath v (uniquePath Scenario.offline v (u "cat.jpg"))
     = Some (EFile Scenario.catTwin).
Proof. repeat split. Qed.

(** C7 (amended).  A path at which nothing exists is returned unchanged.
    At an existing path the result differs from it: it is the path with a
    hyphen and the first eight units of a fresh random UUID inserted before
    its extension, the extension being what starts at the last dot of the
    path, or nothing when the path has no dot. *)
Theorem uniquePath_unchanged_or_suffixed (h : Host) (v : list Entry) (p : str) :
  (getAbstractFileByPath v p = None -> uniquePath h v p = p)
  /\ (getAbstractFileByPath v p <> None ->
      uniquePath h v p <> p
      /\ exists base ext,
          p = base ++ ext
          /\ uniquePath h v p
             = base ++ u "-" ++ firstn 8 (randomUUID h) ++ ext
          /\ ((ext = [] /\ ~ In 46%N p)
              \/ exists e, ext = 46%N :: e /\ ~ In 46%N e)).
Proof.
  unfold uniquePath. split.
  - intros ->. reflexivity.
  - intros H. destruct (getAbstractFileByPath v p) as [ent|];
      [clear H|congruence].
    assert (G : exists base ext,
               p = base ++ ext
               /\ match lastIndexOf 46 p with
                  | Some d => substring0 d p
                  | None => p
                  end ++ u "-" ++ substring0 8 (randomUUID h)
                    ++ match lastIndexOf 46 p with
                       | Some d => sliceFrom d p
                       | None => []
                       end
                  = base ++ u "-" ++ firstn 8 (randomUUID h) ++ ext
               /\ ((ext = [] /\ ~ In 46%N p)
                   \/ exists e, ext = 46%N :: e /\ ~ In 46%N e)).
    { pose proof (lastIndexOf_spec 46 p) as S.
      destruct (lastIndexOf 46 p) as [d|].
      - destruct S as (e & Hs & He).
        exists (firstn d p), (skipn d p).
        split; [symmetry; apply firstn_skipn|].
        split; [reflexivity|]. right. exists e. auto.
      - exists p, []. rewrite app_nil_r. auto. }
    destruct G as (base & ext & Hp & Hq & Hext).
    split; [|exists base, ext; auto].
    intros E.
    assert (X : base ++ u "-" ++ firstn 8 (randomUUID h) ++ ext = base ++ ext).
    { rewrite <- Hp. etransitivity; [symmetry; exact Hq | exact E]. }
    apply (f_equal (@length N)) in X.
    rewrite !length_app in X. simpl in X. lia.
Qed.

Lemma uniquePath_witness :
  let v := [EFile Scenario.cat] in
  (getAbstractFileByPath v (u "dog.jpg") = None
   /\ uniquePath Scenario.offline v (u "dog.jpg") = u "dog.jpg")
  /\ (getAbstractFileByPath v (u "cat.jpg") <> None
      /\ uniquePath Scenario.offline v (u "cat.jpg") = u "cat-deadbeef.jpg"
      /\ uniquePath Scenario.offline v (u "cat.jpg") <> u "cat.jpg").
Proof.
  intros v.
  assert (N1 : getAbstractFileByPath v (u "dog.jpg") = None) by reflexivity.
  assert (N2 : getAbstractFileByPath v (u "cat.jpg") <> None)
    by (vm_compute; discriminate).
  split; split; try assumption.
  - apply (proj1 (uniquePath_unchanged_or_suffixed
                    Scenario.offline v (u "dog.jpg")) N1).
  - split; [reflexivity|].
    apply (proj2 (uniquePath_unchanged_or_suffixed
                    Scenario.offline v (u "cat.jpg")) N2).
Defined.

(** ** Transfers *)

Lemma nth_error_assign (A : Type) (r : nat) (f : A -> A) (heap : list A) :
  nth_error (assign r f heap) r = option_map f (nth_error heap r).
Proof.
  revert r; induction heap as [|x heap IH]; intros [|r]; simpl; auto.
Qed.

Lemma nth_error_assign_other (A : Type) (r r' : nat) (f : A -> A)
      (heap : list A) :
  r <> r' -> nth_error (assign r f heap) r' = nth_error heap r'.
Proof.
  revert r r'; induction heap as [|x heap IH]; intros [|r] [|r'] H; simpl;
    auto; congruence.
Qed.

(** C9.  When [uploadImageFile] answers with a failure, [doUpload] returns
    normally having changed one thing only: the item is failed and carries
    the returned message.  The editor buffers, the record cache, the record
    log on disk, the timers, the tracked lists and every other item are as
    before: the document is not rewritten and no record is appended.  The
    same holds of the part after the [await] from whatever state it resumes
    in. *)
Theorem failed_upload_marks_item_and_touches_nothing_else
        (h : Host) (item : nat) (activeFile : TFile) (baseUrl : str)
        (a : App) (it : ImageItem) (e : str) :
  nth_error (localHeap a) item = Some it ->
  fst (uploadImageFile h (settings a) (file it) baseUrl) = Failure e ->
  snd (doUpload h item activeFile baseUrl a) = Returned
  /\ nth_error (localHeap (fst (doUpload h item activeFile baseUrl a))) item
     = Some (withStatus failed (Some e) it)
  /\ (forall r, r <> item ->
        nth_error (localHeap (fst (doUpload h item activeFile baseUrl a))) r
        = nth_error (localHeap a) r)
  /\ fst (doUpload h item activeFile baseUrl a)
     = set_localHeap (localHeap (fst (doUpload h item activeFile baseUrl a))) a
  /\ leaves (fst (doUpload h item activeFile baseUrl a)) = leaves a
  /\ records (fst (doUpload h item activeFile baseUrl a)) = records a
  /\ disk (fst (doUpload h item activeFile baseUrl a)) = disk a
  /\ (forall a1,
        doUpload_finish h item activeFile (Failure e) a1
        = (set_localHeap
             (assign item (withStatus failed (Some e)) (localHeap a1)) a1,
           Returned)).
Proof.
  intros Hit Hfail. unfold doUpload, doUpload_start. simpl.
  rewrite nth_error_assign, Hit. simpl. rewrite Hfail.
  unfold doUpload_finish. simpl.
  split; [reflexivity|]. split; [|split; [|repeat split]].
  - rewrite !nth_error_assign, Hit. reflexivity.
  - intros r Hr. rewrite !nth_error_assign_other by congruence. reflexivity.
Qed.

Lemma failed_upload_witness :
  let a := Scenario.tracking Scenario.configured (u "![[photo.png]]")
             [EFile Scenario.photo]
             (Scenario.photoItem (Some Scenario.photo) idle None) in
  let r := doUpload Scenario.offline 0 Scenario.note
                    (u "https://cdn.example.com") a in
  fst (uploadImageFile Scenario.offline (settings a) (Some Scenario.photo)
                       (u "https://cdn.example.com"))
  = Failure (u "net::ERR_INTERNET_DISCONNECTED")
  /\ nth_error (localHeap (fst r)) 0
     = Some (Scenario.photoItem (Some Scenario.photo) failed
                                (Some (u "net::ERR_INTERNET_DISCONNECTED")))
  /\ leaves (fst r) = leaves a
  /\ records (fst r) = records a.
Proof.
  intros a r.
  assert (F : fst (uploadImageFile Scenario.offline (settings a)
                                   (Some Scenario.photo)
                                   (u "https://cdn.example.com"))
              = Failure (u "net::ERR_INTERNET_DISCONNECTED"))
    by reflexivity.
  destruct (failed_upload_marks_item_and_touches_nothing_else
              Scenario.offline 0 Scenario.note (u "https://cdn.example.com") a
              (it := Scenario.photoItem (Some Scenario.photo) idle None)
              eq_refl F)
    as (_ & I & _ & _ & L & R & _ & _).
  split; [exact F | split; [exact I | split; [exact L | exact R]]].
Defined.

(** ** The record store *)

Lemma add_array (parse : str -> Records.Parsed)
      (stringify : Records.Cache -> str) (fault : option str)
      (r : Records.ImageRecord) (l : list Records.ImageRecord)
      (d : Records.Disk) :
  Records.add parse stringify fault r (Records.CArray l) d
  = (Records.CArray (l ++ [r]),
     match fault with
     | Some _ => d
     | None => Some (stringify (Records.CArray (l ++ [r])))
     end,
     match fault with
     | Some msg => Records.Rejected msg
     | None => Records.Resolved
     end).
Proof. unfold Records.add. simpl. destruct fault; reflexivity. Qed.

Lemma addAll_array_last (parse : str -> Records.Parsed)
      (stringify : Records.Cache -> str)
      (ops : list (option str * Records.ImageRecord))
      (r : Records.ImageRecord) (l : list Records.ImageRecord)
      (d : Records.Disk) :
  Records.addAll parse stringify (ops ++ [(None, r)]) (Records.CArray l) d
  = (Records.CArray (l ++ map snd ops ++ [r]),
     Some (stringify (Records.CArray (l ++ map snd ops ++ [r])))).
Proof.
  revert l d; induction ops as [|[fault r0] ops IH]; intros l d.
  - reflexivity.
  - cbn [app Records.addAll]. rewrite add_array, IH.
    cbn [map snd]. rewrite <- !app_assoc. reflexivity.
Qed.

Lemma load_unreadable (parse : str -> Records.Parsed) (d : Records.Disk) :
  (d = None \/ exists raw, d = Some raw /\ parse raw = Records.SyntaxError) ->
  Records.load parse Records.CNull d = Records.CArray [].
Proof.
  intros [->|(raw & -> & E)]; simpl; [|rewrite E]; reflexivity.
Qed.

(** C10.  When the cache is still unset and the record log is missing or
    does not parse, [load] gives the empty array and raises nothing.  The
    first append then holds its record alone, whatever its write does; and
    after any run of appends, the first successful or not, an append whose
    write succeeds leaves on disk the print of exactly the records appended
    since, in order: what the file held before is gone. *)
Theorem unreadable_log_hydrates_empty_and_is_replaced
        (parse : str -> Records.Parsed) (stringify : Records.Cache -> str)
        (d : Records.Disk) :
  (d = None \/ exists raw, d = Some raw /\ parse raw = Records.SyntaxError) ->
  Records.load parse Records.CNull d = Records.CArray []
  /\ (forall fault r,
        fst (fst (Records.add parse stringify fault r Records.CNull d))
        = Records.CArray [r])
  /\ (forall r,
        Records.add parse stringify None r Records.CNull d
        = (Records.CArray [r], Some (stringify (Records.CArray [r])),
           Records.Resolved))
  /\ (forall ops r,
        Records.addAll parse stringify (ops ++ [(None, r)]) Records.CNull d
        = (Records.CArray (map snd ops ++ [r]),
           Some (stringify (Records.CArray (map snd ops ++ [r]))))).
Proof.
  intros H. pose proof (load_unreadable parse H) as L.
  assert (A : forall fault r,
             Records.add parse stringify fault r Records.CNull d
             = Records.add parse stringify fault r (Records.CArray []) d).
  { intros fault r. unfold Records.add. rewrite L. reflexivity. }
  split; [exact L|]. split; [|split].
  - intros fault r. rewrite A, add_array. reflexivity.
  - intros r. rewrite A, add_array. reflexivity.
  - intros [|[fault r0] ops] r.
    + cbn [app Records.addAll]. rewrite A, add_array. reflexivity.
    + cbn [app Records.addAll]. rewrite A, add_array.
      cbn [app]. rewrite addAll_array_last. reflexivity.
Qed.

Lemma unreadable_log_witness :
  let parse := JSON_parse Scenario.offline in
  let stringify := JSON_stringify Scenario.offline in
  let d := Some (u "[{ truncated") in
  let r1 := Records.RUpload (u "2026-01-01T00:00:00.000Z")
              (Records.mkUpload (u "photo.png") (u "assets/photo.png")
                                (u "https://cdn.example.com/photo.png") []
                                (u "notes/trip.md") (u "trip.md")) in
  let r2 := Records.RDownload (u "2026-01-02T00:00:00.000Z")
              (Records.mkDownload (u "cat.jpg") (u "notes/cat.jpg")
                                  (u "https://example.com/a/b/cat.jpg")
                                  (u "notes/trip.md") (u "trip.md")) in
  (d = None \/ exists raw, d = Some raw /\ parse raw = Records.SyntaxError)
  /\ Records.load parse Records.CNull d = Records.CArray []
  /\ Records.addAll parse stringify ([(Some (u "EIO"), r1)] ++ [(None, r2)])
                    Records.CNull d
     = (Records.CArray [r1; r2], Some (u "2")).
Proof.
  intros parse stringify d r1 r2.
  assert (H : d = None
              \/ exists raw, d = Some raw /\ parse raw = Records.SyntaxError).
  { right. exists (u "[{ truncated"). split; reflexivity. }
  destruct (unreadable_log_hydrates_empty_and_is_replaced parse stringify H)
    as (L & _ & _ & A).
  split; [exact H | split; [exact L|]].
  exact (A [(Some (u "EIO"), r1)] r2).
Defined.

(** ** Persistence failures *)




Lemma saveDownload_frame (h : Host) (activeFile : TFile) (fileName : str)
      (a : App) :
  exists v, fst (saveDownload h activeFile fileName a) = set_vault v a.
Proof.
  unfold saveDownload. cbv zeta.
  destruct (createBinary h _ _) as [msg|v].
  - eexists. reflexivity.
  - simpl.
    destruct (getAbstractFileByPath v _) as [[sf|p]|]; eexists; reflexivity.
Qed.








(** ** Whole runs *)

(** The upload of the specification's example: the link is rewritten to the
    public URL, one upload record is appended, and the item leaves the list
    when its timer fires. *)
Example end_to_end_upload :
  let text := u "see ![[photo.png]]" in
  let a0 := buildItems Scenario.online Scenario.note text
              (Scenario.opened Scenario.configured text
                               [EFile Scenario.photo]) in
  let a1 := uploadItem Scenario.online 0 Scenario.note a0 in
  map editorValue (leaves a1)
  = [u "see ![photo.png](https://cdn.example.com/photo.png)"]
  /\ map status (tracked a1) = [done]
  /\ records a1
     = Records.CArray
         [Records.RUpload (u "2026-01-01T00:00:00.000Z")
            (Records.mkUpload (u "photo.png") (u "assets/photo.png")
                              (u "https://cdn.example.com/photo.png")
                              (u "https://cdn.example.com/photo.png")
                              (u "notes/trip.md") (u "trip.md"))]
  /\ map callback (timers a1) = [RemoveUploaded 0 Scenario.note]
  /\ tracked (fire Scenario.online 1 a1) = [].
Proof. vm_compute. repeat split. Qed.

(** The download of the specification's example. *)
Example end_to_end_download :
  let text := u "![pic](https://example.com/a/b/cat.jpg)" in
  let a0 := buildItems Scenario.serving Scenario.note text
              (Scenario.opened Scenario.configured text
                               [EFolder (u "notes")]) in
  let a1 := downloadItem Scenario.serving 0 Scenario.note a0 in
  map rFileName (trackedRemote a0) = [u "cat.jpg"]
  /\ map editorValue (leaves a1) = [u "![[cat.jpg]]"]
  /\ map rStatus (trackedRemote a1) = [done]
  /\ records a1
     = Records.CArray
         [Records.RDownload (u "2026-01-01T00:00:00.000Z")
            (Records.mkDownload (u "cat.jpg") (u "notes/cat.jpg")
                                (u "https://example.com/a/b/cat.jpg")
                                (u "notes/trip.md") (u "trip.md"))]
  /\ trackedRemote (fire Scenario.serving 1 a1) = [].
Proof. vm_compute. repeat split. Qed.

(** The guard of the notification handler covers the handler alone.  A
    refresh armed before a transfer starts fires during it and rebuilds the
    list from new objects; the answer of the transfer then lands on the old
    object, and the tracked copy stays in the transferring state. *)
Example armed_refresh_fires_during_transfer :
  let a0 := Scenario.tracking Scenario.configured (u "![[photo.png]]")
              [EFile Scenario.photo]
              (Scenario.photoItem (Some Scenario.photo) idle None) in
  let a1 := onEditorChange a0 in
  let a2 := doUpload_start 0 a1 in
  let a3 := fire Scenario.offline 1 a2 in
  let a4 := fst (doUpload_finish Scenario.offline 0 Scenario.note
                                 (Failure (u "HTTP 500")) a3) in
  map callback (timers a1) = [RefreshFromEditor]
  /\ transferring a2 = true
  /\ items a2 = [0] /\ items a3 = [1]
  /\ map status (localHeap a4) = [failed; uploading]
  /\ map status (tracked a4) = [uploading].
Proof. vm_compute. repeat split. Qed.

(** * Further properties *)

(** ** The matcher against what the patterns match *)

Import Denote.

Section Matcher.
Variable A : Type.

Lemma rep_sound (p : N -> bool) (s : str) (k : str -> option A) (x : A) :
  rep p s k = Some x ->
  exists pre s', s = pre ++ s' /\ forallb p pre = true /\ k s' = Some x.
Proof.
  induction s as [|c s IH]; simpl.
  - intros H. exists [], []. auto.
  - destruct (p c) eqn:P.
    + destruct (rep p s k) as [y|] eqn:R.
      * intros E. injection E as <-.
        destruct (IH eq_refl) as (pre & s' & -> & F & K).
        exists (c :: pre), s'. simpl. rewrite P, F. auto.
      * intros K. exists [], (c :: s). auto.
    + intros K. exists [], (c :: s). auto.
Qed.

Lemma rep_complete (p : N -> bool) (pre s' : str) (k : str -> option A) :
  forallb p pre = true -> k s' <> None -> rep p (pre ++ s') k <> None.
Proof.
  intros F K. induction pre as [|c pre IH]; simpl in *.
  - destruct s' as [|d s']; simpl; [exact K|].
    destruct (p d); [|exact K].
    destruct (rep p s' k); [discriminate | exact K].
  - apply andb_true_iff in F. destruct F as [-> F].
    destruct (rep p (pre ++ s') k) eqn:R; [discriminate|].
    exfalso. apply (IH F). reflexivity.
Qed.

Lemma run_sound (r : re) :
  forall (s : str) (cs : caps) (k : str -> caps -> option A) (x : A),
    run r s cs k = Some x ->
    exists s' cs', lang r s s' cs cs' /\ k s' cs' = Some x.
Proof.
  induction r as [|c|p|p|p|r1 IH1|a IHa b IHb|a IHa b IHb|i r1 IH1];
    intros s cs k x; simpl.
  - intros H. exists s, cs. auto.
  - destruct s as [|ch s]; [discriminate|].
    destruct (lit c ch) eqn:L; [|discriminate].
    intros H. exists s, cs. split; [exists ch|]; auto.
  - destruct s as [|ch s]; [discriminate|].
    destruct (p ch) eqn:L; [|discriminate].
    intros H. exists s, cs. split; [exists ch|]; auto.
  - intros H. apply rep_sound in H. destruct H as (pre & s' & -> & F & K).
    exists s', cs. split; [exists pre|]; auto.
  - destruct s as [|ch s]; [discriminate|].
    destruct (p ch) eqn:L; [|discriminate].
    intros H. apply rep_sound in H. destruct H as (pre & s' & -> & F & K).
    exists s', cs. split; [|exact K].
    exists (ch :: pre). simpl. rewrite L, F. repeat split; auto. discriminate.
  - destruct (run r1 s cs k) as [y|] eqn:R.
    + intros E. injection E as <-.
      destruct (IH1 _ _ _ _ R) as (s' & cs' & L & K).
      exists s', cs'. auto.
    + intros K. exists s, cs. auto.
  - intros H. destruct (IHa _ _ _ _ H) as (mid & csm & La & H').
    destruct (IHb _ _ _ _ H') as (s' & cs' & Lb & K).
    exists s', cs'. split; [exists mid, csm|]; auto.
  - destruct (run a s cs k) as [y|] eqn:R.
    + intros E. injection E as <-.
      destruct (IHa _ _ _ _ R) as (s' & cs' & L & K).
      exists s', cs'. auto.
    + intros H. destruct (IHb _ _ _ _ H) as (s' & cs' & L & K).
      exists s', cs'. auto.
  - intros H. destruct (IH1 _ _ _ _ H) as (s' & cs0 & L & K).
    exists s', ((i, firstn (length s - length s') s) :: cs0).
    split; [exists cs0|]; auto.
Qed.

Lemma run_complete (r : re) :
  forall (s s' : str) (cs cs' : caps) (k : str -> caps -> option A),
    lang r s s' cs cs' -> k s' cs' <> None -> run r s cs k <> None.
Proof.
  induction r as [|c|p|p|p|r1 IH1|a IHa b IHb|a IHa b IHb|i r1 IH1];
    intros s s' cs cs' k; simpl.
  - intros [-> ->] K. exact K.
  - intros (ch & -> & L & ->) K. rewrite L. exact K.
  - intros (ch & -> & L & ->) K. rewrite L. exact K.
  - intros (pre & -> & F & ->) K. apply rep_complete; auto.
  - intros (pre & -> & Hne & F & ->) K.
    destruct pre as [|ch pre]; [congruence|]. simpl in *.
    apply andb_true_iff in F. destruct F as [-> F].
    apply rep_complete; auto.
  - intros [L|[-> ->]] K.
    + pose proof (IH1 _ _ _ _ _ L K). destruct (run r1 s cs k); congruence.
    + destruct (run r1 s cs k); [discriminate | exact K].
  - intros (mid & csm & La & Lb) K.
    apply (IHa _ _ _ _ _ La). apply (IHb _ _ _ _ _ Lb). exact K.
  - intros [L|L] K.
    + pose proof (IHa _ _ _ _ _ L K). destruct (run a s cs k); congruence.
    + destruct (run a s cs k); [discriminate|].
      apply (IHb _ _ _ _ _ L K).
  - intros (cs0 & L & ->) K. apply (IH1 _ _ _ _ _ L). exact K.
Qed.
End Matcher.

(** A pattern consumes a prefix. *)
Lemma lang_prefix (r : re) :
  forall s s' cs cs', lang r s s' cs cs' -> exists c, s = c ++ s'.
Proof.
  induction r as [|c|p|p|p|r1 IH1|a IHa b IHb|a IHa b IHb|i r1 IH1];
    intros s s' cs cs'; simpl.
  - intros [-> _]. exists []. reflexivity.
  - intros (ch & -> & _). exists [ch]. reflexivity.
  - intros (ch & -> & _). exists [ch]. reflexivity.
  - intros (x & -> & _). exists x. reflexivity.
  - intros (x & -> & _). exists x. reflexivity.
  - intros [L|[-> _]]; [eapply IH1; eauto | exists []; reflexivity].
  - intros (mid & csm & La & Lb).
    destruct (IHa _ _ _ _ La) as [c1 ->], (IHb _ _ _ _ Lb) as [c2 ->].
    exists (c1 ++ c2). rewrite app_assoc. reflexivity.
  - intros [L|L]; [eapply IHa | eapply IHb]; eauto.
  - intros (cs0 & L & _). eapply IH1; eauto.
Qed.

Lemma exec_sound (r : re) (s : str) (len : nat) (cs : caps) :
  exec r s = Some (len, cs) ->
  exists s', lang r s s' [] cs /\ len = length s - length s'.
Proof.
  unfold exec. intros H. apply run_sound in H.
  destruct H as (s' & cs' & L & E). injection E as <- <-. eauto.
Qed.

Lemma exec_complete (r : re) (s s' : str) (cs : caps) :
  lang r s s' [] cs -> exec r s <> None.
Proof.
  unfold exec. intros L. eapply run_complete; eauto. discriminate.
Qed.

(** *** Literals, words, sequences and alternations *)

Lemma lit_lower (c ch : N) :
  ~ (65 <= c <= 90)%N -> (lit c ch = true <-> lowerAscii ch = c).
Proof.
  unfold lit, canon, lowerAscii. intros Hc. rewrite N.eqb_eq.
  destruct (N.leb_spec 97 c), (N.leb_spec c 122), (N.leb_spec 97 ch),
    (N.leb_spec ch 122), (N.leb_spec 65 ch), (N.leb_spec ch 90);
    simpl; lia.
Qed.

Lemma lowerAscii_exact (c ch : N) :
  ~ (97 <= c <= 122)%N -> lowerAscii ch = c -> ch = c.
Proof.
  unfold lowerAscii. intros Hc.
  destruct (N.leb_spec 65 ch), (N.leb_spec ch 90); simpl; lia.
Qed.

Lemma caseless_exact (t t' : str) :
  Forall (fun c => ~ (97 <= c <= 122)%N) t -> caseless t t' -> t' = t.
Proof.
  unfold caseless. intros F. revert t'.
  induction F as [|c t Hc F IH]; intros [|ch t'] E; simpl in E;
    try discriminate; auto.
  injection E as E1 E2. f_equal; [eapply lowerAscii_exact; eauto | auto].
Qed.

Lemma caseless_length (t t' : str) : caseless t t' -> length t' = length t.
Proof. unfold caseless. intros <-. symmetry. apply length_map. Qed.

Lemma lang_word (t : str) :
  noUpper t ->
  forall s s' cs cs',
    lang (word t) s s' cs cs'
    <-> exists t', s = t' ++ s' /\ cs' = cs /\ caseless t t'.
Proof.
  unfold caseless. intros NU.
  induction NU as [|c t Hc NU IH]; intros s s' cs cs'.
  - simpl. split.
    + intros [-> ->]. exists []. auto.
    + intros (t' & -> & -> & E). destruct t'; [auto | discriminate].
  - assert (L : lang (word (c :: t)) s s' cs cs'
                <-> exists mid csm,
                    lang (Lit c) s mid cs csm /\ lang (word t) mid s' csm cs').
    { destruct t as [|d t]; [|reflexivity]. simpl. split.
      - intros (ch & -> & L & ->). exists s', cs.
        split; [exists ch|]; auto.
      - intros (mid & csm & (ch & -> & L & ->) & [-> ->]). exists ch. auto. }
    rewrite L. split.
    + intros (mid & csm & (ch & -> & Lc & ->) & Lw).
      apply IH in Lw. destruct Lw as (t' & -> & -> & E).
      exists (ch :: t'). simpl. repeat split; auto.
      f_equal; [apply lit_lower; auto | exact E].
    + intros (t' & -> & -> & E). destruct t' as [|ch t']; [discriminate|].
      simpl in E. injection E as E1 E2.
      exists (t' ++ s'), cs. split.
      * exists ch. repeat split; auto. apply lit_lower; auto.
      * apply IH. exists t'. auto.
Qed.

Lemma lang_seqs_cons (r : re) (l : list re) (s s' : str) (cs cs' : caps) :
  lang (seqs (r :: l)) s s' cs cs'
  <-> exists mid csm, lang r s mid cs csm /\ lang (seqs l) mid s' csm cs'.
Proof.
  destruct l as [|r2 l]; [|reflexivity]. simpl. split.
  - intros L. exists s', cs'. auto.
  - intros (mid & csm & L & [-> ->]). exact L.
Qed.

Lemma lang_alts_words (ts : list str) (s s' : str) (cs cs' : caps) :
  lang (alts (map word ts)) s s' cs cs'
  <-> exists t, In t ts /\ lang (word t) s s' cs cs'.
Proof.
  induction ts as [|t ts IH].
  - simpl. split.
    + intros (ch & _ & F & _). discriminate.
    + intros (t & [] & _).
  - assert (L : lang (alts (map word (t :: ts))) s s' cs cs'
                <-> lang (word t) s s' cs cs'
                    \/ lang (alts (map word ts)) s s' cs cs').
    { destruct ts as [|t2 ts]; [|reflexivity]. simpl. split; [auto|].
      intros [L|(ch & _ & F & _)]; [exact L | discriminate]. }
    rewrite L, IH. simpl. split.
    + intros [L1|(t0 & Hin & L1)]; eauto.
    + intros (t0 & [<-|Hin] & L1); eauto.
Qed.

Lemma firstn_consumed (A : Type) (c s' : list A) :
  firstn (length (c ++ s') - length s') (c ++ s') = c.
Proof.
  rewrite length_app, Nat.add_sub. rewrite firstn_app, Nat.sub_diag.
  rewrite firstn_all. simpl. apply app_nil_r.
Qed.

Lemma firstn_consumed3 (A : Type) (x e t : list A) (d : A) :
  firstn (length (x ++ d :: e ++ t) - length t) (x ++ d :: e ++ t)
  = x ++ d :: e.
Proof.
  change (x ++ d :: e ++ t) with (x ++ (d :: e) ++ t).
  rewrite app_assoc. apply firstn_consumed.
Qed.

Lemma forallb_isNot (c : N) (x : str) :
  forallb (isNot c) x = true <-> ~ In c x.
Proof.
  induction x as [|d x IH]; simpl; [tauto|].
  rewrite andb_true_iff, IH. unfold isNot.
  rewrite negb_true_iff, N.eqb_neq. intuition congruence.
Qed.

Lemma lang_Grp (i : nat) (r : re) (s s' : str) (cs cs' : caps) :
  lang (Grp i r) s s' cs cs'
  <-> exists cs0,
      lang r s s' cs cs0 /\ cs' = (i, firstn (length s - length s') s) :: cs0.
Proof. reflexivity. Qed.

Lemma lang_Plus (p : N -> bool) (s s' : str) (cs cs' : caps) :
  lang (Plus p) s s' cs cs'
  <-> exists x, s = x ++ s' /\ x <> [] /\ forallb p x = true /\ cs' = cs.
Proof. reflexivity. Qed.

Lemma lang_Star (p : N -> bool) (s s' : str) (cs cs' : caps) :
  lang (Star p) s s' cs cs'
  <-> exists x, s = x ++ s' /\ forallb p x = true /\ cs' = cs.
Proof. reflexivity. Qed.

Lemma lang_Lit (c : N) (s s' : str) (cs cs' : caps) :
  lang (Lit c) s s' cs cs'
  <-> exists ch, s = ch :: s' /\ lit c ch = true /\ cs' = cs.
Proof. reflexivity. Qed.

Lemma lang_Opt (r : re) (s s' : str) (cs cs' : caps) :
  lang (Opt r) s s' cs cs' <-> lang r s s' cs cs' \/ (s' = s /\ cs' = cs).
Proof. reflexivity. Qed.

Lemma lang_seqs_nil (s s' : str) (cs cs' : caps) :
  lang (seqs []) s s' cs cs' <-> s' = s /\ cs' = cs.
Proof. reflexivity. Qed.

Ltac chars := repeat (apply Forall_cons; [cbn; lia|]); apply Forall_nil.

Lemma lit_exact (c ch : N) :
  ~ (65 <= c <= 90)%N -> ~ (97 <= c <= 122)%N ->
  (lit c ch = true <-> ch = c).
Proof.
  intros U L. rewrite (lit_lower ch U). split.
  - apply lowerAscii_exact; auto.
  - intros ->. unfold lowerAscii.
    destruct (N.leb_spec 65 c), (N.leb_spec c 90); simpl; lia.
Qed.

Lemma imageExts_letters (ext : str) :
  In ext imageExts ->
  noUpper ext /\ Forall (fun c => (97 <= c <= 122)%N) ext.
Proof.
  unfold imageExts. simpl.
  intros H. repeat destruct H as [<-|H]; try contradiction;
    split; unfold noUpper; chars.
Qed.

Lemma caseless_letters (ext e : str) (c : N) :
  Forall (fun c => (97 <= c <= 122)%N) ext -> caseless ext e ->
  In c e -> (65 <= c <= 90)%N \/ (97 <= c <= 122)%N.
Proof.
  unfold caseless. intros F <- Hc.
  rewrite Forall_forall in F.
  specialize (F (lowerAscii c) (in_map _ _ _ Hc)).
  unfold lowerAscii in F.
  destruct (N.leb_spec 65 c), (N.leb_spec c 90); simpl in F; lia.
Qed.

(** What the local pattern matches at the start of a text. *)
Lemma lang_localRegex (s s' : str) (cs : caps) :
  lang localRegex s s' [] cs
  <-> exists x e ext,
      s = u "![[" ++ x ++ [46%N] ++ e ++ u "]]" ++ s'
      /\ x <> [] /\ ~ In 93%N x
      /\ In ext imageExts /\ caseless ext e
      /\ cs = [(1, x ++ [46%N] ++ e); (2, e)].
Proof.
  unfold localRegex, w.
  change (map (fun s0 => word (u s0))
              ["png"; "jpg"; "jpeg"; "gif"; "webp"; "svg"; "bmp"; "ico";
               "tiff"; "tif"]%string)
    with (map word imageExts).
  split.
  - intros H.
    apply lang_seqs_cons in H. destruct H as (a1 & c1 & H1 & H).
    apply lang_word in H1; [|unfold noUpper; chars].
    destruct H1 as (t1 & -> & -> & E1).
    apply caseless_exact in E1; [subst t1|chars].
    apply lang_seqs_cons in H. destruct H as (a2 & c2 & H2 & H).
    apply lang_seqs_cons in H. destruct H as (a3 & c3 & H3 & H).
    apply lang_seqs_nil in H. destruct H as [-> ->].
    apply lang_word in H3; [|unfold noUpper; chars].
    destruct H3 as (t3 & -> & -> & E3).
    apply caseless_exact in E3; [subst t3|chars].
    apply lang_Grp in H2. destruct H2 as (cs0 & H2 & ->).
    apply lang_seqs_cons in H2. destruct H2 as (b1 & d1 & P & H2).
    apply lang_Plus in P. destruct P as (x & -> & Hx & Fx & ->).
    apply lang_seqs_cons in H2. destruct H2 as (b2 & d2 & D & H2).
    apply lang_Lit in D. destruct D as (ch & -> & Ld & ->).
    apply lit_exact in Ld; [subst ch|lia|lia].
    apply lang_seqs_cons in H2. destruct H2 as (b3 & d3 & G & H2).
    apply lang_seqs_nil in H2. destruct H2 as [Eb ->].
    apply lang_Grp in G. destruct G as (cs00 & G & ->).
    apply lang_alts_words in G. destruct G as (ext & Hin & G).
    apply lang_word in G; [|apply imageExts_letters; exact Hin].
    destruct G as (e & -> & -> & Ee).
    exists x, e, ext. subst b3.
    split; [reflexivity|]. split; [exact Hx|].
    split; [apply forallb_isNot; exact Fx|].
    split; [exact Hin|]. split; [exact Ee|].
    f_equal.
    + f_equal. apply firstn_consumed3.
    + f_equal. f_equal. apply firstn_consumed.
  - intros (x & e & ext & -> & Hx & Nx & Hin & Ee & ->).
    apply lang_seqs_cons. exists (x ++ [46%N] ++ e ++ u "]]" ++ s'), [].
    split.
    { apply lang_word; [unfold noUpper; chars|].
      exists (u "![["). repeat split. }
    apply lang_seqs_cons.
    exists (u "]]" ++ s'), [(1, x ++ [46%N] ++ e); (2, e)]. split.
    + apply lang_Grp. exists [(2, e)]. split.
      * apply lang_seqs_cons. exists ([46%N] ++ e ++ u "]]" ++ s'), [].
        split.
        { apply lang_Plus. exists x. repeat split; auto.
          apply forallb_isNot; exact Nx. }
        apply lang_seqs_cons. exists (e ++ u "]]" ++ s'), []. split.
        { apply lang_Lit. exists 46%N. repeat split. }
        apply lang_seqs_cons. exists (u "]]" ++ s'), [(2, e)]. split.
        { apply lang_Grp. exists []. split.
          - apply lang_alts_words. exists ext. split; [exact Hin|].
            apply lang_word; [apply imageExts_letters; exact Hin|].
            exists e. auto.
          - f_equal. f_equal. symmetry. apply firstn_consumed. }
        apply lang_seqs_nil. auto.
      * f_equal. f_equal. symmetry.
        exact (firstn_consumed3 x e (u "]]" ++ s') 46%N).
    + apply lang_seqs_cons. exists s', [(1, x ++ [46%N] ++ e); (2, e)].
      split; [|apply lang_seqs_nil; auto].
      apply lang_word; [unfold noUpper; chars|].
      exists (u "]]"). repeat split.
Qed.

Lemma caseless_app (t1 t2 t1' t2' : str) :
  caseless t1 t1' -> caseless t2 t2' -> caseless (t1 ++ t2) (t1' ++ t2').
Proof. unfold caseless. intros <- <-. apply map_app. Qed.

Lemma caseless_split (t1 t2 t' : str) :
  caseless (t1 ++ t2) t' ->
  exists t1' t2', t' = t1' ++ t2' /\ caseless t1 t1' /\ caseless t2 t2'.
Proof.
  unfold caseless. revert t'.
  induction t1 as [|c t1 IH]; intros t' E; simpl in E.
  - exists [], t'. auto.
  - destruct t' as [|ch t']; [discriminate|]. simpl in E.
    injection E as E1 E2.
    destruct (IH _ E2) as (t1' & t2' & -> & F1 & F2).
    exists (ch :: t1'), t2'. simpl. rewrite E1, F1. auto.
Qed.

(** The scheme shared by the remote pattern and the managed-domain
    pattern: [https?:\/\/]. *)
Lemma lang_scheme (rest : list re) (s s' : str) (cs cs' : caps) :
  lang (seqs (w "http" :: Opt (Lit 115) :: w "://" :: rest)) s s' cs cs'
  <-> exists sch mid,
      s = sch ++ mid
      /\ (caseless (u "http://") sch \/ caseless (u "https://") sch)
      /\ lang (seqs rest) mid s' cs cs'.
Proof.
  unfold w. split.
  - intros H.
    apply lang_seqs_cons in H. destruct H as (a1 & c1 & H1 & H).
    apply lang_word in H1; [|unfold noUpper; chars].
    destruct H1 as (t1 & -> & -> & E1).
    apply lang_seqs_cons in H. destruct H as (a2 & c2 & H2 & H).
    apply lang_seqs_cons in H. destruct H as (a3 & c3 & H3 & H).
    apply lang_word in H3; [|unfold noUpper; chars].
    destruct H3 as (t3 & -> & -> & E3).
    apply lang_Opt in H2. destruct H2 as [H2|[Ea Ec]].
    2: symmetry in Ea; subst a1; subst.
    + apply lang_Lit in H2. destruct H2 as (ch & -> & L & ->).
      apply lit_lower in L; [|lia].
      exists (t1 ++ [ch] ++ t3), a3. split; [|split; [right|exact H]].
      * rewrite <- !app_assoc. reflexivity.
      * change (u "https://") with (u "http" ++ [115%N] ++ u "://").
        apply caseless_app; [exact E1|].
        apply caseless_app; [|exact E3].
        unfold caseless. simpl. rewrite L. reflexivity.
    + exists (t1 ++ t3), a3. split; [|split; [left|exact H]].
      * rewrite <- app_assoc. reflexivity.
      * change (u "http://") with (u "http" ++ u "://").
        apply caseless_app; assumption.
  - intros (sch & mid & -> & Hs & H).
    destruct Hs as [Hs|Hs].
    + change (u "http://") with (u "http" ++ u "://") in Hs.
      apply caseless_split in Hs. destruct Hs as (t1 & t3 & -> & E1 & E3).
      apply lang_seqs_cons. exists (t3 ++ mid), cs. split.
      { apply lang_word; [unfold noUpper; chars|].
        exists t1. rewrite <- app_assoc. auto. }
      apply lang_seqs_cons. exists (t3 ++ mid), cs. split.
      { apply lang_Opt. right. auto. }
      apply lang_seqs_cons. exists mid, cs. split; [|exact H].
      apply lang_word; [unfold noUpper; chars|]. exists t3. auto.
    + change (u "https://") with (u "http" ++ ([115%N] ++ u "://")) in Hs.
      apply caseless_split in Hs. destruct Hs as (t1 & t2 & -> & E1 & E2).
      apply caseless_split in E2. destruct E2 as (t2a & t3 & -> & E2 & E3).
      destruct t2a as [|ch [|? ?]]; try discriminate.
      apply lang_seqs_cons. exists ([ch] ++ t3 ++ mid), cs. split.
      { apply lang_word; [unfold noUpper; chars|].
        exists t1. rewrite <- !app_assoc. auto. }
      apply lang_seqs_cons. exists (t3 ++ mid), cs. split.
      { apply lang_Opt. left. apply lang_Lit. exists ch.
        repeat split; auto. apply lit_lower; [lia|].
        unfold caseless in E2. simpl in E2. congruence. }
      apply lang_seqs_cons. exists mid, cs. split; [|exact H].
      apply lang_word; [unfold noUpper; chars|]. exists t3. auto.
Qed.

(** What the remote pattern matches at the start of a text. *)
Lemma lang_remoteRegex (s s' : str) (cs : caps) :
  lang remoteRegex s s' [] cs
  <-> exists alt sch body,
      s = u "![" ++ alt ++ u "](" ++ (sch ++ body) ++ u ")" ++ s'
      /\ ~ In 93%N alt
      /\ (caseless (u "http://") sch \/ caseless (u "https://") sch)
      /\ body <> []
      /\ forallb (fun c => isNot 41 c && negb (isSpace c)) body = true
      /\ cs = [(2, sch ++ body); (1, alt)].
Proof.
  unfold remoteRegex. split.
  - intros H.
    apply lang_seqs_cons in H. destruct H as (a1 & c1 & H1 & H).
    apply lang_word in H1; [|unfold noUpper; chars].
    destruct H1 as (t1 & -> & -> & E1).
    apply caseless_exact in E1; [subst t1|chars].
    apply lang_seqs_cons in H. destruct H as (a2 & c2 & H2 & H).
    apply lang_Grp in H2. destruct H2 as (cs0 & H2 & ->).
    apply lang_Star in H2. destruct H2 as (alt & -> & Fa & ->).
    apply lang_seqs_cons in H. destruct H as (a3 & c3 & H3 & H).
    apply lang_word in H3; [|unfold noUpper; chars].
    destruct H3 as (t3 & -> & -> & E3).
    apply caseless_exact in E3; [subst t3|chars].
    apply lang_seqs_cons in H. destruct H as (a4 & c4 & H4 & H).
    apply lang_seqs_cons in H. destruct H as (a5 & c5 & H5 & H).
    apply lang_seqs_nil in H. destruct H as [-> ->].
    apply lang_Lit in H5. destruct H5 as (ch & -> & L & ->).
    apply lit_exact in L; [subst ch|lia|lia].
    apply lang_Grp in H4. destruct H4 as (cs1 & H4 & ->).
    apply lang_scheme in H4. destruct H4 as (sch & mid & -> & Hs & H4).
    apply lang_seqs_cons in H4. destruct H4 as (a6 & c6 & H6 & H4).
    apply lang_seqs_nil in H4. destruct H4 as [E ->].
    apply lang_Plus in H6. destruct H6 as (body & -> & Hb & Fb & ->).
    subst a6.
    exists alt, sch, body.
    split; [rewrite <- !app_assoc; reflexivity|].
    split; [apply forallb_isNot; exact Fa|].
    split; [exact Hs|]. split; [exact Hb|]. split; [exact Fb|].
    f_equal; [|f_equal; f_equal; apply firstn_consumed].
    f_equal. rewrite (app_assoc sch). apply firstn_consumed.
  - intros (alt & sch & body & -> & Na & Hs & Hb & Fb & ->).
    apply lang_seqs_cons.
    exists (alt ++ u "](" ++ (sch ++ body) ++ u ")" ++ s'), []. split.
    { apply lang_word; [unfold noUpper; chars|]. exists (u "![").
      repeat split. }
    apply lang_seqs_cons.
    exists (u "](" ++ (sch ++ body) ++ u ")" ++ s'), [(1, alt)]. split.
    { apply lang_Grp. exists []. split.
      - apply lang_Star. exists alt. repeat split.
        apply forallb_isNot; exact Na.
      - f_equal. f_equal. symmetry. apply firstn_consumed. }
    apply lang_seqs_cons.
    exists ((sch ++ body) ++ u ")" ++ s'), [(1, alt)]. split.
    { apply lang_word; [unfold noUpper; chars|]. exists (u "](").
      repeat split. }
    apply lang_seqs_cons.
    exists (u ")" ++ s'), [(2, sch ++ body); (1, alt)]. split.
    { apply lang_Grp. exists [(1, alt)]. split.
      - apply lang_scheme. exists sch, (body ++ u ")" ++ s').
        split; [rewrite <- app_assoc; reflexivity|]. split; [exact Hs|].
        apply lang_seqs_cons. exists (u ")" ++ s'), [(1, alt)].
        split; [|apply lang_seqs_nil; auto].
        apply lang_Plus. exists body. auto.
      - f_equal. f_equal. symmetry. apply firstn_consumed. }
    apply lang_seqs_cons. exists s', [(2, sch ++ body); (1, alt)].
    split; [|apply lang_seqs_nil; auto].
    apply lang_Lit. exists 41%N. repeat split.
Qed.

(** What the managed-domain pattern matches at the start of a text. *)
Lemma lang_r2devRegex (s s' : str) (cs : caps) :
  lang r2devRegex s s' [] cs
  <-> exists sch host dom,
      s = sch ++ host ++ dom ++ s'
      /\ (caseless (u "http://") sch \/ caseless (u "https://") sch)
      /\ host <> [] /\ ~ In 47%N host
      /\ caseless (u ".r2.dev/") dom
      /\ cs = [].
Proof.
  unfold r2devRegex. rewrite lang_scheme. split.
  - intros (sch & mid & -> & Hs & H).
    apply lang_seqs_cons in H. destruct H as (a1 & c1 & H1 & H).
    apply lang_Plus in H1. destruct H1 as (host & -> & Hh & Fh & ->).
    apply lang_seqs_cons in H. destruct H as (a2 & c2 & H2 & H).
    apply lang_seqs_nil in H. destruct H as [-> ->].
    apply lang_word in H2; [|unfold noUpper; chars].
    destruct H2 as (dom & -> & -> & Ed).
    exists sch, host, dom. repeat split; auto.
    apply forallb_isNot; exact Fh.
  - intros (sch & host & dom & -> & Hs & Hh & Nh & Ed & ->).
    exists sch, (host ++ dom ++ s'). split; [reflexivity|].
    split; [exact Hs|].
    apply lang_seqs_cons. exists (dom ++ s'), []. split.
    { apply lang_Plus. exists host. repeat split; auto.
      apply forallb_isNot; exact Nh. }
    apply lang_seqs_cons. exists s', []. split; [|apply lang_seqs_nil; auto].
    apply lang_word; [unfold noUpper; chars|]. exists dom. auto.
Qed.

(** ** What the extractor finds *)

Import Inv.

(** Every match of the global scan is one attempt of the pattern at a
    suffix of the text. *)
Lemma scan_exec (r : re) (s : str) (pos skip : nat) (m : Match) :
  In m (scan r s pos skip) ->
  exists suf len cs,
    exec r suf = Some (len, cs)
    /\ m0 m = firstn len suf /\ m1 m = cap 1 cs /\ m2 m = cap 2 cs.
Proof.
  revert pos skip; induction s as [|c s IH]; intros pos skip; simpl.
  - destruct (exec r []) as [[len cs]|] eqn:E; simpl; [|tauto].
    intros [<-|[]]. exists [], len, cs. simpl. rewrite firstn_nil. auto.
  - destruct skip as [|k]; [|apply IH].
    destruct (exec r (c :: s)) as [[len cs]|] eqn:E; [|apply IH].
    intros [<-|H]; [|eapply IH; eauto].
    exists (c :: s), len, cs. auto.
Qed.

Lemma In_extension_not_bracket (ext e : str) :
  In ext imageExts -> caseless ext e -> ~ In 93%N e.
Proof.
  intros Hin Ee H.
  destruct (@caseless_letters ext e 93%N (proj2 (imageExts_letters Hin))
                              Ee H); lia.
Qed.

Lemma localMatches_shape (content : str) (m : Match) :
  In m (localMatches content) ->
  exists g, m1 m = Some g /\ localShape (m0 m) g.
Proof.
  intros H. apply dedup_incl in H. apply scan_exec in H.
  destruct H as (suf & len & cs & E & E0 & E1 & _).
  apply exec_sound in E. destruct E as (s' & L & ->).
  apply lang_localRegex in L.
  destruct L as (x & e & ext & -> & Hx & Nx & Hin & Ee & ->).
  exists (x ++ [46%N] ++ e). split; [rewrite E1; reflexivity|].
  split; [|split].
  - rewrite E0.
    replace (u "![[" ++ x ++ [46%N] ++ e ++ u "]]" ++ s')
      with ((u "![[" ++ (x ++ [46%N] ++ e) ++ u "]]") ++ s')
      by (rewrite <- !app_assoc; reflexivity).
    apply firstn_consumed.
  - rewrite !in_app_iff. simpl.
    pose proof (In_extension_not_bracket Hin Ee).
    intros [?|[[?|[]]|?]]; auto; lia.
  - exists x, e. repeat split; auto.
    unfold caseless in Ee. rewrite Ee. exact Hin.
Qed.

Lemma caseless_scheme_no_paren (sch : str) :
  caseless (u "http://") sch \/ caseless (u "https://") sch ->
  ~ In 41%N sch.
Proof.
  unfold caseless. intros H Hin.
  apply (in_map lowerAscii) in Hin. change (lowerAscii 41) with 41%N in Hin.
  destruct H as [H|H]; rewrite H in Hin; simpl in Hin;
    repeat destruct Hin as [Hin|Hin]; try discriminate; contradiction.
Qed.

Lemma httpUrl_no_paren (url : str) : httpUrl url -> ~ In 41%N url.
Proof.
  intros (sch & body & -> & Hs & _ & Fb). rewrite in_app_iff.
  intros [H|H]; [eapply caseless_scheme_no_paren; eauto|].
  rewrite forallb_forall in Fb. apply Fb in H.
  apply andb_true_iff in H. destruct H as [H _].
  unfold isNot in H. rewrite N.eqb_refl in H. discriminate.
Qed.

Lemma remoteMatches_shape (content : str) (m : Match) :
  In m (remoteMatches content) ->
  exists alt url,
    m1 m = Some alt /\ m2 m = Some url /\ remoteShape (m0 m) alt url.
Proof.
  intros H. apply dedup_incl in H. apply scan_exec in H.
  destruct H as (suf & len & cs & E & E0 & E1 & E2).
  apply exec_sound in E. destruct E as (s' & L & ->).
  apply lang_remoteRegex in L.
  destruct L as (alt & sch & body & -> & Na & Hs & Hb & Fb & ->).
  exists alt, (sch ++ body).
  split; [rewrite E1; reflexivity|]. split; [rewrite E2; reflexivity|].
  split; [|split; [exact Na|]].
  - rewrite E0.
    replace (u "![" ++ alt ++ u "](" ++ (sch ++ body) ++ u ")" ++ s')
      with ((u "![" ++ alt ++ u "](" ++ (sch ++ body) ++ u ")") ++ s')
      by (rewrite <- !app_assoc; reflexivity).
    apply firstn_consumed.
  - exists sch, body. auto.
Qed.

(** X1.  Every reference the extractor lists as local is a wiki-style
    image embed: its raw text is its first group between the double
    brackets, and that group has no closing bracket and ends in a dot and
    one of the ten image extensions, in any case, after a non-empty stem. *)
Theorem local_matches_are_image_embeds (content : str) (m : Match) :
  In m (localMatches content) ->
  exists g, m1 m = Some g /\ localShape (m0 m) g.
Proof. apply localMatches_shape. Qed.

Lemma local_matches_witness :
  let content := u "see ![[shots/Photo.PNG]] and ![[notes.txt]]" in
  let m := mkMatch 4 (u "![[shots/Photo.PNG]]") (Some (u "shots/Photo.PNG"))
                   (Some (u "PNG")) in
  In m (localMatches content)
  /\ exists g, m1 m = Some g /\ localShape (m0 m) g.
Proof.
  intros content m.
  assert (H : In m (localMatches content)) by (vm_compute; auto).
  split; [exact H|].
  apply (local_matches_are_image_embeds content m H).
Defined.

(** X2.  Every reference the extractor lists as remote is a standard image
    embed: its raw text is its alt text and URL groups in the embed syntax,
    the alt text has no closing bracket, and the URL starts with [http://]
    or [https://] in any case and goes on with at least one unit, none a
    closing parenthesis or white space. *)
Theorem remote_matches_are_http_embeds (content : str) (m : Match) :
  In m (remoteMatches content) ->
  exists alt url,
    m1 m = Some alt /\ m2 m = Some url /\ remoteShape (m0 m) alt url.
Proof. apply remoteMatches_shape. Qed.

Lemma remote_matches_witness :
  let content := u "![pic](HTTPS://example.com/a/b/cat.jpg) text" in
  let m := mkMatch 0 (u "![pic](HTTPS://example.com/a/b/cat.jpg)")
                   (Some (u "pic"))
                   (Some (u "HTTPS://example.com/a/b/cat.jpg")) in
  In m (remoteMatches content)
  /\ exists alt url,
      m1 m = Some alt /\ m2 m = Some url /\ remoteShape (m0 m) alt url.
Proof.
  intros content m.
  assert (H : In m (remoteMatches content)) by (vm_compute; auto).
  split; [exact H|].
  apply (remote_matches_are_http_embeds content m H).
Defined.

(** *** Items built from the matches *)

Lemma rebuilt_items_ok (h : Host) (f : TFile) (content : str) (a : App) :
  currentFilePath a <> Some (path f)
  \/ (Forall localItemOk (tracked a) /\ Forall remoteItemOk (trackedRemote a)) ->
  Forall localItemOk (tracked (buildItems h f content a))
  /\ Forall remoteItemOk (trackedRemote (buildItems h f content a)).
Proof.
  intros H.
  rewrite tracked_buildItems, trackedRemote_buildItems.
  split; apply Forall_forall; intros i Hi; apply in_map_iff in Hi;
    destruct Hi as (m & <- & Hm).
  - unfold newLocalItem, existingLocal.
    destruct (optstr_eqb (Some (path f)) (currentFilePath a)) eqn:P;
      cbn [negb].
    + apply optstr_eqb_eq in P. destruct H as [H|[H _]]; [congruence|].
      rewrite mapGet_mapOf.
      destruct (lastWith fullMatch (m0 m) (tracked a)) as [e|] eqn:E.
      * apply lastWith_Some in E. destruct E as [E _].
        rewrite Forall_forall in H. exact (H e E).
      * destruct (localMatches_shape content m Hm) as (g & G & S).
        unfold localItemOk. simpl. rewrite G. simpl. split; [exact S|].
        destruct (resolveImageFile _ _ _ _); reflexivity.
    + simpl. destruct (localMatches_shape content m Hm) as (g & G & S).
      unfold localItemOk. simpl. rewrite G. simpl. split; [exact S|].
      destruct (resolveImageFile _ _ _ _); reflexivity.
  - unfold newRemoteItem, existingRemote.
    destruct (optstr_eqb (Some (path f)) (currentFilePath a)) eqn:P;
      cbn [negb].
    + apply optstr_eqb_eq in P. destruct H as [H|[_ H]]; [congruence|].
      rewrite mapGet_mapOf.
      destruct (lastWith rFullMatch (m0 m) (trackedRemote a)) as [e|] eqn:E.
      * apply lastWith_Some in E. destruct E as [E _].
        rewrite Forall_forall in H. exact (H e E).
      * destruct (remoteMatches_shape content m Hm)
          as (alt & url & G1 & G2 & S).
        unfold remoteItemOk. simpl. rewrite G1, G2. exact S.
    + simpl. destruct (remoteMatches_shape content m Hm)
        as (alt & url & G1 & G2 & S).
      unfold remoteItemOk. simpl. rewrite G1, G2. exact S.
Qed.

(** X3.  [buildItems] keeps the items well formed, and makes them so on a
    document switch whatever was tracked: every local item's raw text is
    the image embed of its [imagePath] and its [fileName] is the name of the
    file it resolved to (the path as written when it resolved to none);
    every remote item's raw text is the embed of its [altText] and [url]. *)
Theorem buildItems_keeps_items_well_formed
        (h : Host) (f : TFile) (content : str) (a : App) :
  currentFilePath a <> Some (path f)
  \/ (Forall localItemOk (tracked a) /\ Forall remoteItemOk (trackedRemote a)) ->
  Forall localItemOk (tracked (buildItems h f content a))
  /\ Forall remoteItemOk (trackedRemote (buildItems h f content a)).
Proof. apply rebuilt_items_ok. Qed.

Lemma buildItems_well_formed_witness :
  let content := u "![[photo.png]] ![pic](https://example.com/a/b/cat.jpg)" in
  let a := Scenario.opened Scenario.configured content
             [EFile Scenario.photo] in
  let a1 := buildItems Scenario.offline Scenario.otherNote content a in
  (currentFilePath a <> Some (path Scenario.otherNote)
   \/ (Forall localItemOk (tracked a) /\ Forall remoteItemOk (trackedRemote a)))
  /\ (currentFilePath a1 <> Some (path Scenario.otherNote)
      \/ (Forall localItemOk (tracked a1)
          /\ Forall remoteItemOk (trackedRemote a1)))
  /\ length (tracked (buildItems Scenario.offline Scenario.otherNote content a1))
     = 1
  /\ Forall localItemOk
            (tracked (buildItems Scenario.offline Scenario.otherNote content a1)).
Proof.
  intros content a a1.
  assert (H0 : currentFilePath a <> Some (path Scenario.otherNote)
               \/ (Forall localItemOk (tracked a)
                   /\ Forall remoteItemOk (trackedRemote a)))
    by (left; vm_compute; discriminate).
  assert (H1 : currentFilePath a1 <> Some (path Scenario.otherNote)
               \/ (Forall localItemOk (tracked a1)
                   /\ Forall remoteItemOk (trackedRemote a1))).
  { right.
    apply (buildItems_keeps_items_well_formed
             Scenario.offline Scenario.otherNote content a H0). }
  split; [exact H0 | split; [exact H1 | split; [reflexivity|]]].
  apply (buildItems_keeps_items_well_formed
           Scenario.offline Scenario.otherNote content a1 H1).
Defined.

(** *** The links the orchestrator writes, read back *)

Lemma first_occurrence_unique (c : N) (x y r r' : str) :
  ~ In c x -> ~ In c y -> x ++ c :: r = y ++ c :: r' -> x = y /\ r = r'.
Proof.
  revert y; induction x as [|a x IH]; intros [|b y] Nx Ny E; simpl in *.
  - injection E as <-. auto.
  - injection E as <- _. tauto.
  - injection E as -> _. tauto.
  - injection E as <- E.
    destruct (IH y) as [-> ->]; auto.
Qed.

Lemma exec_remote_link (alt url tail : str) :
  ~ In 93%N alt -> httpUrl url ->
  exec remoteRegex (u "![" ++ alt ++ u "](" ++ url ++ u ")" ++ tail)
  = Some (length (u "![" ++ alt ++ u "](" ++ url ++ u ")"),
          [(2, url); (1, alt)]).
Proof.
  intros Na Hu. pose proof (httpUrl_no_paren Hu) as Np.
  destruct Hu as (sch & body & -> & Hs & Hb & Fb).
  assert (L : lang remoteRegex
                   (u "![" ++ alt ++ u "](" ++ (sch ++ body) ++ u ")" ++ tail)
                   tail [] [(2, sch ++ body); (1, alt)]).
  { apply lang_remoteRegex. exists alt, sch, body. repeat split; auto. }
  apply exec_complete in L.
  destruct (exec remoteRegex _) as [[len cs]|] eqn:E; [|congruence].
  clear L. apply exec_sound in E. destruct E as (s2 & L & ->).
  apply lang_remoteRegex in L.
  destruct L as (alt2 & sch2 & body2 & Eq & Na2 & Hs2 & Hb2 & Fb2 & ->).
  assert (Np2 : ~ In 41%N (sch2 ++ body2)).
  { apply httpUrl_no_paren. exists sch2, body2. auto. }
  simpl in Eq. injection Eq as Eq.
  apply first_occurrence_unique in Eq; auto. destruct Eq as [<- Eq].
  injection Eq as Eq.
  apply first_occurrence_unique in Eq; auto. destruct Eq as [<- <-].
  f_equal. f_equal.
  replace (u "![" ++ alt ++ u "](" ++ (sch ++ body) ++ u ")" ++ tail)
    with ((u "![" ++ alt ++ u "](" ++ (sch ++ body) ++ u ")") ++ tail)
    by (rewrite <- !app_assoc; reflexivity).
  rewrite length_app. lia.
Qed.

Lemma remote_link_read_back (alt url tail : str) :
  ~ In 93%N alt -> httpUrl url ->
  exec remoteRegex (u "![" ++ alt ++ u "](" ++ url ++ u ")" ++ tail)
  = Some (length (u "![" ++ alt ++ u "](" ++ url ++ u ")"),
          [(2, url); (1, alt)])
  /\ hd_error (matchAll remoteRegex
                        (u "![" ++ alt ++ u "](" ++ url ++ u ")" ++ tail))
     = Some (mkMatch 0 (u "![" ++ alt ++ u "](" ++ url ++ u ")")
                     (Some alt) (Some url)).
Proof.
  intros Na Hu. pose proof (@exec_remote_link alt url tail Na Hu) as E.
  split; [exact E|].
  unfold matchAll.
  change (u "![" ++ alt ++ u "](" ++ url ++ u ")" ++ tail)
    with (33%N :: 91%N :: alt ++ u "](" ++ url ++ u ")" ++ tail) in *.
  cbn [scan]. rewrite E. cbn [hd_error]. f_equal. f_equal.
  change (33%N :: 91%N :: alt ++ u "](" ++ url ++ u ")" ++ tail)
    with (u "![" ++ alt ++ u "](" ++ url ++ u ")" ++ tail).
  replace (u "![" ++ alt ++ u "](" ++ url ++ u ")" ++ tail)
    with ((u "![" ++ alt ++ u "](" ++ url ++ u ")") ++ tail)
    by (rewrite <- !app_assoc; reflexivity).
  rewrite firstn_app, Nat.sub_diag, firstn_all, firstn_O. apply app_nil_r.
Qed.

(** *** The units [encodeURIComponent] writes *)

Ltac Zify.zify_post_hook ::= Z.to_euclidean_division_equations.

Lemma hexDigit_range (d : N) :
  (d < 16)%N ->
  (48 <= hexDigit d <= 57)%N \/ (65 <= hexDigit d <= 70)%N.
Proof.
  unfold hexDigit. intros H. destruct (N.ltb_spec d 10); lia.
Qed.

Lemma pct_units (octets : list N) :
  Forall (fun b => (b < 256)%N) octets -> Forall escapeUnit (pct octets).
Proof.
  unfold pct, escapeUnit. induction 1 as [|b l Hb _ IH]; simpl;
    [constructor|].
  constructor; [left; reflexivity|].
  constructor; [right; apply hexDigit_range; lia|].
  constructor; [right; apply hexDigit_range; lia|].
  exact IH.
Qed.

Lemma utf8_octets (cp : N) :
  (cp < 1114112)%N -> Forall (fun b => (b < 256)%N) (utf8 cp).
Proof.
  unfold utf8. intros H.
  destruct (N.ltb_spec cp 128); [repeat constructor; lia|].
  destruct (N.ltb_spec cp 2048); [repeat constructor; lia|].
  destruct (N.ltb_spec cp 65536); repeat constructor; lia.
Qed.

Lemma encode_units_aux (n : nat) :
  forall s enc,
    length s <= n ->
    codeUnits s ->
    encodeURIComponent s = Some enc ->
    Forall (fun c => (unreserved c = true /\ In c s) \/ escapeUnit c) enc.
Proof.
  induction n as [|n IH]; intros s enc Hn Hs E.
  - destruct s; [|simpl in Hn; lia]. simpl in E. injection E as <-.
    constructor.
  - destruct s as [|c s]; [simpl in E; injection E as <-; constructor|].
    simpl in Hn. inversion Hs as [|? ? Hc Hs']; subst.
    assert (W : forall l (t : str),
               Forall (fun c0 => (unreserved c0 = true /\ In c0 t)
                                 \/ escapeUnit c0) l ->
               incl t (c :: s) ->
               Forall (fun c0 => (unreserved c0 = true /\ In c0 (c :: s))
                                 \/ escapeUnit c0) l).
    { intros l t F I. eapply Forall_impl; [|exact F].
      intros x [[U X]|X]; auto. }
    simpl in E. destruct (unreserved c) eqn:U.
    + destruct (encodeURIComponent s) as [r|] eqn:R; [|discriminate].
      injection E as <-. constructor; [left; simpl; auto|].
      apply (W r s); [apply IH; auto; lia | apply incl_tl, incl_refl].
    + destruct (isLead c) eqn:Ld.
      * destruct s as [|d s]; [discriminate|].
        destruct (isTrail d) eqn:Tr; [|discriminate].
        destruct (encodeURIComponent s) as [r|] eqn:R; [|discriminate].
        injection E as <-. apply Forall_app. split.
        -- eapply Forall_impl; [intros x X; right; exact X|].
           apply pct_units, utf8_octets.
           unfold isLead, isTrail in Ld, Tr.
           apply andb_true_iff in Ld, Tr.
           rewrite !N.leb_le in Ld, Tr. lia.
        -- inversion Hs' as [|? ? Hd Hs'']; subst.
           apply (W r s);
             [apply IH; auto; simpl in Hn; lia
             | apply incl_tl, incl_tl, incl_refl].
      * destruct (isTrail c); [discriminate|].
        destruct (encodeURIComponent s) as [r|] eqn:R; [|discriminate].
        injection E as <-. apply Forall_app. split.
        -- eapply Forall_impl; [intros x X; right; exact X|].
           apply pct_units, utf8_octets. lia.
        -- apply (W r s); [apply IH; auto; lia | apply incl_tl, incl_refl].
Qed.

Lemma encode_units (s enc : str) :
  codeUnits s ->
  encodeURIComponent s = Some enc ->
  Forall (fun c => (unreserved c = true /\ In c s) \/ escapeUnit c) enc.
Proof. apply (encode_units_aux (n := length s)). lia. Qed.

Lemma unreserved_not_space (c : N) :
  unreserved c = true -> isSpace c = false.
Proof.
  unfold unreserved, isSpace. intros H.
  repeat rewrite orb_true_iff in H. repeat rewrite andb_true_iff in H.
  repeat rewrite N.leb_le in H. repeat rewrite N.eqb_eq in H.
  repeat rewrite orb_false_iff. repeat rewrite andb_false_iff.
  repeat rewrite N.leb_gt. repeat rewrite N.eqb_neq.
  repeat split; lia.
Qed.

Lemma escapeUnit_not_space (c : N) : escapeUnit c -> isSpace c = false.
Proof.
  unfold escapeUnit, isSpace. intros H.
  repeat rewrite orb_false_iff. repeat rewrite andb_false_iff.
  repeat rewrite N.leb_gt. repeat rewrite N.eqb_neq.
  repeat split; lia.
Qed.

Lemma encoded_name_in_url (s enc : str) :
  codeUnits s ->
  encodeURIComponent s = Some enc ->
  ~ In 41%N s ->
  forallb (fun c => isNot 41 c && negb (isSpace c)) enc = true.
Proof.
  intros Hs E Np. apply forallb_forall. intros c Hc.
  pose proof (encode_units Hs E) as F. rewrite Forall_forall in F.
  apply andb_true_iff. split.
  - unfold isNot. apply negb_true_iff, N.eqb_neq. intros ->.
    destruct (F _ Hc) as [[_ X]|X]; [contradiction|].
    unfold escapeUnit in X. lia.
  - apply negb_true_iff.
    destruct (F _ Hc) as [[U _]|X];
      [apply unreserved_not_space | apply escapeUnit_not_space]; auto.
Qed.

Lemma httpUrl_extend (base rest : str) :
  httpUrl base ->
  forallb (fun c => isNot 41 c && negb (isSpace c)) rest = true ->
  httpUrl (base ++ rest).
Proof.
  intros (sch & body & -> & Hs & Hb & Fb) Fr.
  exists sch, (body ++ rest). rewrite <- app_assoc.
  repeat split; auto.
  - destruct body; [congruence | discriminate].
  - rewrite forallb_app, Fb, Fr. reflexivity.
Qed.

(** X4.  The link an upload writes is read back by the extractor.  For a
    base URL the remote pattern accepts and a file name of code units that
    encodes and holds no closing bracket and no closing parenthesis, one
    attempt of the remote pattern where the link stands matches exactly the
    link, with the file name as alt text and the public URL as URL; a
    document that begins with the link has it as its first remote match. *)
Theorem uploaded_link_is_read_back (baseUrl fileName enc tail : str) :
  httpUrl baseUrl ->
  codeUnits fileName ->
  encodeURIComponent fileName = Some enc ->
  ~ In 93%N fileName ->
  ~ In 41%N fileName ->
  exec remoteRegex
       (u "![" ++ fileName ++ u "](" ++ (baseUrl ++ u "/" ++ enc) ++ u ")"
          ++ tail)
  = Some (length (u "![" ++ fileName ++ u "](" ++ (baseUrl ++ u "/" ++ enc)
                    ++ u ")"),
          [(2, baseUrl ++ u "/" ++ enc); (1, fileName)])
  /\ hd_error
       (matchAll remoteRegex
                 (u "![" ++ fileName ++ u "](" ++ (baseUrl ++ u "/" ++ enc)
                    ++ u ")" ++ tail))
     = Some (mkMatch 0
                     (u "![" ++ fileName ++ u "](" ++ (baseUrl ++ u "/" ++ enc)
                        ++ u ")")
                     (Some fileName) (Some (baseUrl ++ u "/" ++ enc))).
Proof.
  intros Hb Hu E Nb Np.
  apply remote_link_read_back; [exact Nb|].
  apply httpUrl_extend; [exact Hb|].
  simpl. apply (encoded_name_in_url Hu E Np).
Qed.

Lemma httpUrl_sample : httpUrl (u "https://cdn.example.com").
Proof.
  exists (u "https://"), (u "cdn.example.com").
  split; [reflexivity|]. split; [right; reflexivity|].
  split; [discriminate | reflexivity].
Qed.

Lemma uploaded_link_witness :
  let tail := u " and more" in
  httpUrl (u "https://cdn.example.com")
  /\ codeUnits (u "my photo.png")
  /\ encodeURIComponent (u "my photo.png") = Some (u "my%20photo.png")
  /\ hd_error
       (matchAll remoteRegex
                 (u "![" ++ u "my photo.png" ++ u "]("
                    ++ (u "https://cdn.example.com" ++ u "/"
                          ++ u "my%20photo.png") ++ u ")" ++ tail))
     = Some (mkMatch 0
                     (u "![my photo.png](https://cdn.example.com/my%20photo.png)")
                     (Some (u "my photo.png"))
                     (Some (u "https://cdn.example.com/my%20photo.png"))).
Proof.
  intros tail.
  assert (C : codeUnits (u "my photo.png")) by (unfold codeUnits; chars).
  assert (E : encodeURIComponent (u "my photo.png")
              = Some (u "my%20photo.png")) by reflexivity.
  split; [exact httpUrl_sample | split; [exact C | split; [exact E|]]].
  refine (proj2 (@uploaded_link_is_read_back
                   (u "https://cdn.example.com") (u "my photo.png")
                   (u "my%20photo.png") tail httpUrl_sample C E _ _));
    simpl; intuition discriminate.
Defined.

(** A file name with a closing parenthesis is outside that theorem: the
    encoder leaves the parenthesis as it is, and the URL read back stops
    before it. *)
Example parenthesis_in_name_truncates_url :
  encodeURIComponent (u "photo (1).png") = Some (u "photo%20(1).png")
  /\ map (fun m => (m0 m, m2 m))
         (matchAll remoteRegex
                   (u "![photo (1).png](https://cdn.example.com/photo%20(1).png)"))
     = [(u "![photo (1).png](https://cdn.example.com/photo%20(1)",
         Some (u "https://cdn.example.com/photo%20(1"))].
Proof. vm_compute. auto. Qed.

(** X5.  The link a download writes is read back by the extractor exactly
    when the saved file's name has an image extension.  For a name without
    closing bracket, one attempt of the local pattern where the wiki link
    of the name stands matches the whole link with the name as its path if
    the name is a non-empty stem, a dot and one of the ten extensions in any
    case, and matches nothing otherwise. *)
Theorem downloaded_link_is_read_back_iff_image_name (name tail : str) :
  ~ In 93%N name ->
  (imageName name ->
   exists cs,
     exec localRegex (u "![[" ++ name ++ u "]]" ++ tail)
     = Some (length (u "![[" ++ name ++ u "]]"), cs)
     /\ cap 1 cs = Some name)
  /\ (~ imageName name ->
      exec localRegex (u "![[" ++ name ++ u "]]" ++ tail) = None).
Proof.
  intros Nn.
  assert (S : forall len cs,
             exec localRegex (u "![[" ++ name ++ u "]]" ++ tail)
             = Some (len, cs) ->
             imageName name
             /\ len = length (u "![[" ++ name ++ u "]]")
             /\ cap 1 cs = Some name).
  { intros len cs E. apply exec_sound in E. destruct E as (s2 & L & ->).
    apply lang_localRegex in L.
    destruct L as (x & e & ext & Eq & Hx & Nx & Hin & Ee & ->).
    assert (Ng : ~ In 93%N (x ++ [46%N] ++ e)).
    { rewrite !in_app_iff. simpl.
      pose proof (In_extension_not_bracket Hin Ee).
      intros [?|[[?|[]]|?]]; auto; lia. }
    replace (u "![[" ++ x ++ [46%N] ++ e ++ u "]]" ++ s2)
      with (u "![[" ++ (x ++ [46%N] ++ e) ++ u "]]" ++ s2) in Eq
      by (rewrite <- !app_assoc; reflexivity).
    simpl in Eq. injection Eq as Eq.
    apply first_occurrence_unique in Eq; auto.
    destruct Eq as [En Et]. injection Et as <-.
    split; [|split].
    - exists x, e. repeat split; auto.
      unfold caseless in Ee. rewrite Ee. exact Hin.
    - replace (u "![[" ++ name ++ u "]]" ++ tail)
        with ((u "![[" ++ name ++ u "]]") ++ tail)
        by (rewrite <- !app_assoc; reflexivity).
      rewrite length_app. lia.
    - simpl. rewrite En. reflexivity. }
  split.
  - intros (stem & e & -> & Hs & He).
    assert (L : lang localRegex
                     (u "![[" ++ (stem ++ [46%N] ++ e) ++ u "]]" ++ tail)
                     tail []
                     [(1, stem ++ [46%N] ++ e); (2, e)]).
    { apply lang_localRegex. exists stem, e, (map lowerAscii e).
      rewrite <- !app_assoc. repeat split; auto.
      intros H. apply Nn. apply in_app_iff. auto. }
    apply exec_complete in L.
    destruct (exec localRegex _) as [[len cs]|] eqn:E; [|congruence].
    destruct (S len cs eq_refl) as (_ & -> & C).
    exists cs. auto.
  - intros NI.
    destruct (exec localRegex _) as [[len cs]|] eqn:E; [|reflexivity].
    destruct (S len cs eq_refl) as (I & _). contradiction.
Qed.

Lemma downloaded_link_witness :
  ~ In 93%N (u "image.jpg")
  /\ imageName (u "image.jpg")
  /\ exists cs,
      exec localRegex (u "![[" ++ u "image.jpg" ++ u "]]" ++ u " rest")
      = Some (length (u "![[" ++ u "image.jpg" ++ u "]]"), cs)
      /\ cap 1 cs = Some (u "image.jpg").
Proof.
  assert (N : ~ In 93%N (u "image.jpg")) by (simpl; intuition discriminate).
  assert (I : imageName (u "image.jpg")).
  { exists (u "image"), (u "jpg"). split; [reflexivity|].
    split; [discriminate|]. simpl. auto. }
  split; [exact N | split; [exact I|]].
  apply (proj1 (@downloaded_link_is_read_back_iff_image_name
                  (u "image.jpg") (u " rest") N) I).
Defined.

(** *** Origin classification *)

Lemma test_spec (r : re) (s : str) :
  test r s = true <-> exists pre suf, s = pre ++ suf /\ exec r suf <> None.
Proof.
  induction s as [|c s IH]; simpl.
  - destruct (exec r []) eqn:E; split; try discriminate; auto.
    + intros _. exists [], []. rewrite E. split; [reflexivity|discriminate].
    + intros (pre & suf & Ep & Es).
      destruct pre; [|discriminate]. simpl in Ep. subst suf. congruence.
  - destruct (exec r (c :: s)) eqn:E.
    + split; auto. intros _. exists [], (c :: s). rewrite E.
      split; [reflexivity|discriminate].
    + rewrite IH. split.
      * intros (pre & suf & -> & Es). exists (c :: pre), suf. auto.
      * intros (pre & suf & Ep & Es). destruct pre as [|d pre].
        -- simpl in Ep. subst suf. congruence.
        -- injection Ep as <- ->. exists pre, suf. auto.
Qed.

Lemma startsWith_spec (p s : str) :
  startsWith p s = true <-> exists r, s = p ++ r.
Proof.
  revert s; induction p as [|c p IH]; intros s; simpl.
  - split; eauto.
  - destruct s as [|d s]; [split; [discriminate|intros (r & E); discriminate]|].
    rewrite andb_true_iff, N.eqb_eq, IH. split.
    + intros (-> & r & ->). exists r. reflexivity.
    + intros (r & E). injection E as -> ->. eauto.
Qed.

(** X6.  [isR2Url] classifies a URL as stored on the bucket exactly when a
    custom domain is configured and the URL begins with it, or the URL
    holds, anywhere, [http://] or [https://], a non-empty host part without
    slash, and [.r2.dev/], in any case. *)
Theorem isR2Url_iff_custom_prefix_or_r2dev (s : ImagesR2Settings) (url : str) :
  isR2Url s url = true
  <-> (customDomain s <> [] /\ exists rest, url = customDomain s ++ rest)
      \/ r2devShape url.
Proof.
  unfold isR2Url, r2devShape.
  assert (T : test r2devRegex url = true
              <-> exists pre sch host dom rest,
                  url = pre ++ sch ++ host ++ dom ++ rest
                  /\ (caseless (u "http://") sch \/ caseless (u "https://") sch)
                  /\ host <> [] /\ ~ In 47%N host
                  /\ caseless (u ".r2.dev/") dom).
  { rewrite test_spec. split.
    - intros (pre & suf & -> & E).
      destruct (exec r2devRegex suf) as [[len cs]|] eqn:X; [|congruence].
      apply exec_sound in X. destruct X as (s' & L & _).
      apply lang_r2devRegex in L.
      destruct L as (sch & host & dom & -> & Hs & Hh & Nh & Ed & _).
      exists pre, sch, host, dom, s'. auto.
    - intros (pre & sch & host & dom & rest & -> & Hs & Hh & Nh & Ed).
      exists pre, (sch ++ host ++ dom ++ rest). split; [reflexivity|].
      apply (@exec_complete r2devRegex _ rest []).
      apply lang_r2devRegex. exists sch, host, dom. auto 10. }
  destruct (truthy (customDomain s)) eqn:C; simpl.
  - apply truthy_true in C.
    destruct (startsWith (customDomain s) url) eqn:W.
    + apply startsWith_spec in W. split; auto.
    + rewrite T. split; [auto|]. intros [[_ H]|H]; [|exact H].
      apply startsWith_spec in H. congruence.
  - apply truthy_false in C. rewrite T. split; [auto|].
    intros [[H _]|H]; [contradiction | exact H].
Qed.

Lemma isR2Url_witness :
  isR2Url Scenario.managedOnly (u "see https://pub-1.R2.dev/cat.jpg") = true
  /\ isR2Url Scenario.configured (u "https://cdn.example.com.evil.org/x") = true
  /\ ~ r2devShape (u "https://r2.dev/cat.jpg").
Proof.
  split; [reflexivity | split; [reflexivity|]].
  intros H.
  assert (X : isR2Url Scenario.managedOnly (u "https://r2.dev/cat.jpg") = true).
  { apply isR2Url_iff_custom_prefix_or_r2dev. right. exact H. }
  vm_compute in X. discriminate.
Defined.

(** ** [fileNameFromUrl] *)




(** ** [resolveImageFile] *)

Import Reading.

Lemma pop_cons (x : str) (l : list str) :
  pop (x :: l) = match pop l with Some y => Some y | None => Some x end.
Proof.
  unfold pop. simpl. destruct (rev l) as [|y r]; reflexivity.
Qed.

Lemma pop_split_go (c : N) (s cur : str) :
  pop (split_go [c] s 0 cur)
  = Some match lastIndexOf c s with
         | Some d => skipn (S d) s
         | None => rev cur ++ s
         end.
Proof.
  revert cur; induction s as [|x s IH]; intros cur; simpl.
  - rewrite app_nil_r. reflexivity.
  - rewrite lastIndexOf_cons. rewrite andb_true_r.
    destruct (N.eqb_spec c x) as [->|Hne].
    + rewrite pop_cons, IH. simpl. rewrite N.eqb_refl.
      destruct (lastIndexOf x s); reflexivity.
    + rewrite IH. simpl.
      destruct (lastIndexOf c s); [reflexivity|].
      destruct (N.eqb_spec x c); [congruence|].
      rewrite <- app_assoc. reflexivity.
Qed.

Lemma pop_split_unit (c : N) (s : str) :
  pop (split [c] s) = Some (lastSegment c s).
Proof. unfold split, lastSegment. apply pop_split_go. Qed.

Lemma lastSegment_free (c : N) (s : str) : ~ In c (lastSegment c s).
Proof.
  unfold lastSegment. pose proof (lastIndexOf_spec c s) as H.
  destruct (lastIndexOf c s) as [d|]; [|exact H].
  destruct H as (e & E & Ne).
  replace (skipn (S d) s) with e; [exact Ne|].
  change (S d) with (1 + d). rewrite <- skipn_skipn, E. reflexivity.
Qed.

Lemma resolveImageFile_spec (h : Host) (files : list TFile)
      (imagePath : str) (activeFile : TFile) :
  (forall f, getFirstLinkpathDest h imagePath (path activeFile) = Some f ->
             resolveImageFile h files imagePath activeFile = Some f)
  /\ (getFirstLinkpathDest h imagePath (path activeFile) = None ->
      resolveImageFile h files imagePath activeFile
      = find (fun f => str_eqb (name f) (lastSegment 47 imagePath)) files).
Proof.
  unfold resolveImageFile. split.
  - intros f ->. reflexivity.
  - intros ->. change (u "/") with [47%N]. rewrite pop_split_unit.
    reflexivity.
Qed.

(** X8.  [resolveImageFile] returns the link target when the host resolves
    the path.  When it does not, folders in the path are ignored: the
    result is the first file of the vault whose name is the text after the
    last slash of the path, and none exactly when the vault has no file of
    that name. *)
Theorem resolveImageFile_link_else_first_by_name
        (h : Host) (files : list TFile) (imagePath : str)
        (activeFile : TFile) :
  (forall f, getFirstLinkpathDest h imagePath (path activeFile) = Some f ->
             resolveImageFile h files imagePath activeFile = Some f)
  /\ (getFirstLinkpathDest h imagePath (path activeFile) = None ->
      resolveImageFile h files imagePath activeFile
      = find (fun f => str_eqb (name f) (lastSegment 47 imagePath)) files
      /\ ~ In 47%N (lastSegment 47 imagePath)
      /\ (forall f, resolveImageFile h files imagePath activeFile = Some f ->
                    In f files /\ name f = lastSegment 47 imagePath)
      /\ (resolveImageFile h files imagePath activeFile = None
          <-> forall f, In f files -> name f <> lastSegment 47 imagePath)).
Proof.
  destruct (resolveImageFile_spec h files imagePath activeFile) as [A B].
  split; [exact A|]. intros N. rewrite (B N).
  split; [reflexivity|]. split; [apply lastSegment_free|]. split.
  - intros f F. apply find_some in F. destruct F as [F E].
    apply str_eqb_eq in E. auto.
  - split.
    + intros F f Hf E. apply (find_none _ _ F) in Hf.
      rewrite E, str_eqb_refl in Hf. discriminate.
    + intros F.
      destruct (find _ files) as [f|] eqn:X; [|reflexivity].
      apply find_some in X. destruct X as [X E]. apply str_eqb_eq in E.
      exfalso. exact (F f X E).
Qed.

Lemma resolveImageFile_witness :
  let files := [Scenario.cat; Scenario.photo] in
  getFirstLinkpathDest Scenario.offline (u "old/dir/photo.png")
                       (path Scenario.note) = None
  /\ lastSegment 47 (u "old/dir/photo.png") = u "photo.png"
  /\ resolveImageFile Scenario.offline files (u "old/dir/photo.png")
                      Scenario.note
     = Some Scenario.photo
  /\ In Scenario.photo files.
Proof.
  intros files.
  assert (N : getFirstLinkpathDest Scenario.offline (u "old/dir/photo.png")
                                   (path Scenario.note) = None)
    by reflexivity.
  destruct (proj2 (resolveImageFile_link_else_first_by_name
                     Scenario.offline files (u "old/dir/photo.png")
                     Scenario.note) N) as (E & _ & S & _).
  split; [exact N | split; [reflexivity|]].
  assert (R : resolveImageFile Scenario.offline files (u "old/dir/photo.png")
                               Scenario.note = Some Scenario.photo)
    by (rewrite E; reflexivity).
  split; [exact R | exact (proj1 (S _ R))].
Defined.

(** ** [uploadImageFile] and [resolveBaseUrl] *)

Lemma config_check (s : ImagesR2Settings) :
  negb (truthy (accountId s)) || negb (truthy (r2Token s))
  || negb (truthy (bucketName s)) = false
  <-> configuredFully s.
Proof.
  unfold configuredFully.
  rewrite !orb_false_iff, !negb_false_iff, !truthy_true. tauto.
Qed.

Lemma lookup_find (k : str) (t : list (str * str)) :
  lookup k t = option_map snd (find (fun p => str_eqb k (fst p)) t).
Proof.
  induction t as [|[k' v] t IH]; simpl; [reflexivity|].
  destruct (str_eqb k k'); [reflexivity | exact IH].
Qed.

Lemma lowered_differs (e name : str) :
  existsb (fun c => (65 <=? c)%N && (c <=? 90)%N) name = true ->
  str_eqb (map lowerAscii e) name = false.
Proof.
  intros H. destruct (str_eqb (map lowerAscii e) name) eqn:E; [|reflexivity].
  apply str_eqb_eq in E. subst name. exfalso.
  apply existsb_exists in H. destruct H as (c & Hc & R).
  apply in_map_iff in Hc. destruct Hc as (d & <- & _).
  unfold lowerAscii in R.
  destruct ((65 <=? d)%N && (d <=? 90)%N) eqn:D.
  - apply andb_true_iff in D, R. destruct D as [D1 D2], R as [R1 R2].
    apply N.leb_le in D1, D2, R1, R2. lia.
  - congruence.
Qed.

(** The table lookup of the code gives the content type as read. *)
Lemma mimeTypeOf_contentType (extension : str) :
  mimeTypeOf (toLowerCase extension) = contentType extension.
Proof.
  unfold mimeTypeOf, contentType. cbv zeta.
  change (toLowerCase extension) with (map lowerAscii extension).
  rewrite lookup_find.
  change MIME_TYPES
    with [ (u "png", u "image/png"); (u "jpg", u "image/jpeg");
           (u "jpeg", u "image/jpeg"); (u "gif", u "image/gif");
           (u "webp", u "image/webp"); (u "svg", u "image/svg+xml");
           (u "bmp", u "image/bmp"); (u "ico", u "image/x-icon");
           (u "tiff", u "image/tiff"); (u "tif", u "image/tiff") ].
  destruct (find _ _) as [p|]; [reflexivity|]. cbn [option_map].
  unfold Object_prototype. cbn [map existsb].
  rewrite !(lowered_differs extension (u "__defineGetter__")),
          !(lowered_differs extension (u "__defineSetter__")),
          !(lowered_differs extension (u "hasOwnProperty")),
          !(lowered_differs extension (u "__lookupGetter__")),
          !(lowered_differs extension (u "__lookupSetter__")),
          !(lowered_differs extension (u "isPrototypeOf")),
          !(lowered_differs extension (u "propertyIsEnumerable")),
          !(lowered_differs extension (u "toString")),
          !(lowered_differs extension (u "valueOf")),
          !(lowered_differs extension (u "toLocaleString"))
    by reflexivity.
  cbn [orb]. rewrite !orb_false_r. reflexivity.
Qed.

Lemma upload_request (s : ImagesR2Settings) (f : TFile) (enc : str)
      (fileBuffer : bytes) :
  Net.mkRequest
    (api (accountId s) (bucketName s) (u "/objects/" ++ enc)) Net.PUT
    [bearer (r2Token s);
     (u "Content-Type", mimeTypeOf (toLowerCase (extension f)))]
    (Some fileBuffer)
  = putRequest s f enc fileBuffer.
Proof.
  unfold putRequest. rewrite <- mimeTypeOf_contentType. reflexivity.
Qed.

(** X9.  [uploadImageFile] reports success exactly when the three
    credentials are set, the file is given and can be read, its name
    encodes, and the store answers the PUT request with status 200 and a
    JSON body whose success flag holds.  A status other than 200, also
    another 2xx, is a failure whatever the body says. *)
Theorem upload_success_exactly_when (h : Host) (s : ImagesR2Settings)
        (imageFile : option TFile) (baseUrl : str) :
  (exists publicUrl sent,
      uploadImageFile h s imageFile baseUrl = (Success publicUrl, sent))
  <-> configuredFully s
      /\ exists f buf enc response data,
          imageFile = Some f
          /\ readBinary h imageFile = inr buf
          /\ encodeURIComponent (name f) = Some enc
          /\ requestUrl h (putRequest s f enc buf) = Net.NetResponse response
          /\ Net.status response = 200%Z
          /\ Net.json response = Net.JsonOf data
          /\ Net.success data = true.
Proof.
  unfold uploadImageFile. split.
  - intros (publicUrl & sent & H).
    destruct (_ || _) eqn:C; [discriminate|]. apply config_check in C.
    split; [exact C|].
    destruct (readBinary h imageFile) as [msg|buf] eqn:R; [discriminate|].
    destruct imageFile as [f|]; [|discriminate].
    destruct (encodeURIComponent (name f)) as [enc|] eqn:En; [|discriminate].
    cbv zeta in H. rewrite upload_request in H.
    destruct (requestUrl h _) as [msg|response] eqn:Q; [discriminate|].
    destruct (Z.eqb_spec (Net.status response) 200) as [St|St];
      [|discriminate].
    simpl in H.
    destruct (Net.json response) as [msg| |data] eqn:J; try discriminate.
    destruct (Net.success data) eqn:Su; [|discriminate].
    exists f, buf, enc, response, data. repeat split; auto.
  - intros (C & f & buf & enc & response & data & -> & R & En & Q & St & J & Su).
    apply config_check in C. rewrite C, R, En. cbv zeta.
    rewrite upload_request, Q, St, J, Su. simpl.
    eexists _, _. reflexivity.
Qed.

(** X10.  [uploadImageFile] never retries: it sends at most one request.
    It sends none when a credential is missing or when the file is not given
    or cannot be read; and a request it sends is the PUT of the file's bytes
    to the object of the bucket named by the encoded file name, with the
    token as bearer and, as content type, what the table of the code gives
    for the extension in small letters: the type of one of the ten image
    extensions, the object the table inherits for the extensions
    constructor and __proto__ (not a string), and the default for every
    other. *)
Theorem upload_sends_at_most_one_put (h : Host) (s : ImagesR2Settings)
        (imageFile : option TFile) (baseUrl : str) :
  length (snd (uploadImageFile h s imageFile baseUrl)) <= 1
  /\ (~ configuredFully s -> snd (uploadImageFile h s imageFile baseUrl) = [])
  /\ (forall msg, readBinary h imageFile = inl msg ->
                  snd (uploadImageFile h s imageFile baseUrl) = [])
  /\ (imageFile = None -> snd (uploadImageFile h s imageFile baseUrl) = [])
  /\ (forall req,
        In req (snd (uploadImageFile h s imageFile baseUrl)) ->
        exists f buf enc,
          imageFile = Some f
          /\ readBinary h imageFile = inr buf
          /\ encodeURIComponent (name f) = Some enc
          /\ req = putRequest s f enc buf).
Proof.
  unfold uploadImageFile.
  destruct (_ || _) eqn:C.
  { simpl. repeat split; auto; try lia; try (intros req []). }
  apply config_check in C.
  destruct (readBinary h imageFile) as [msg|buf] eqn:R.
  { simpl. repeat split; auto; try lia; try (intros req []). }
  destruct imageFile as [f|].
  2:{ simpl. repeat split; auto; try lia; try (intros req []). }
  destruct (encodeURIComponent (name f)) as [enc|] eqn:En.
  2:{ simpl. repeat split; auto; try lia; try discriminate; try (intros req []). }
  cbv zeta. rewrite upload_request.
  destruct (requestUrl h _) as [msg|response];
    [|destruct (negb _);
      [|destruct (Net.json response) as [msg| |data];
        [| |destruct (Net.success data)]]];
    (simpl; split; [lia|]; split; [contradiction|];
     split; [discriminate|]; split; [discriminate|];
     intros req [<-|[]]; exists f, buf, enc; auto).
Qed.

Lemma resolveBaseUrl_nonempty (h : Host) (s : ImagesR2Settings) (b : str) :
  fst (resolveBaseUrl h s) = Some b -> b <> [].
Proof.
  unfold resolveBaseUrl.
  destruct (truthy (customDomain s)) eqn:T.
  - simpl. intros [= <-]. apply truthy_true. exact T.
  - destruct (_ || _); [discriminate|].
    unfold fetchManagedDomain. simpl.
    destruct (requestUrl h _) as [|r]; [discriminate|].
    destruct (negb _); [discriminate|].
    destruct (Net.json r) as [| |e]; try discriminate.
    destruct (Net.result e) as [res|]; [|discriminate].
    destruct (Net.domain res) as [d|]; [|discriminate].
    destruct (truthy d); [|discriminate].
    intros [= <-]. discriminate.
Qed.

(** X11.  [resolveBaseUrl] never returns an empty base URL, so the
    truthiness test its callers make on the result refuses nothing but the
    missing base: [uploadItem] shows its notice, and leaves the item and
    the store untouched, exactly when no base URL was resolved. *)
Theorem resolved_base_is_never_empty (h : Host) (item : nat)
        (activeFile : TFile) (a : App) :
  (forall b, fst (resolveBaseUrl h (settings a)) = Some b -> b <> [])
  /\ usable (fst (resolveBaseUrl h (settings a)))
     = fst (resolveBaseUrl h (settings a))
  /\ forall it f,
      nth_error (localHeap a) item = Some it -> file it = Some f ->
      (fst (resolveBaseUrl h (settings a)) = None ->
       uploadItem h item activeFile a = notice noPublicUrl a)
      /\ (forall b, fst (resolveBaseUrl h (settings a)) = Some b ->
                    uploadItem h item activeFile a
                    = handler (doUpload h item activeFile b a)).
Proof.
  assert (U : usable (fst (resolveBaseUrl h (settings a)))
              = fst (resolveBaseUrl h (settings a))).
  { destruct (fst (resolveBaseUrl h (settings a))) as [b|] eqn:E;
      [|reflexivity].
    apply resolveBaseUrl_nonempty in E. apply truthy_true in E.
    unfold usable. rewrite E. reflexivity. }
  split; [intros b; apply resolveBaseUrl_nonempty|]. split; [exact U|].
  intros it f Hit Hf. unfold uploadItem. rewrite Hit, Hf, U.
  split; [intros ->; reflexivity | intros b ->; reflexivity].
Qed.

(** ** The record log *)

Lemma addAll_array (parse : str -> Records.Parsed)
      (stringify : Records.Cache -> str)
      (ops : list (option str * Records.ImageRecord))
      (l : list Records.ImageRecord) (d : Records.Disk) :
  fst (Records.addAll parse stringify ops (Records.CArray l) d)
  = Records.CArray (l ++ map snd ops)
  /\ (Forall (fun op => fst op <> None) ops ->
      snd (Records.addAll parse stringify ops (Records.CArray l) d) = d).
Proof.
  revert l d; induction ops as [|[fault r0] ops IH]; intros l d.
  - simpl. rewrite app_nil_r. auto.
  - cbn [Records.addAll]. rewrite add_array.
    destruct (IH (l ++ [r0])
                 match fault with
                 | Some _ => d
                 | None => Some (stringify (Records.CArray (l ++ [r0])))
                 end) as [I1 I2].
    split.
    + rewrite I1. cbn [map snd]. rewrite <- app_assoc. reflexivity.
    + intros F. inversion F as [|x xs Hx Hxs]; subst.
      rewrite (I2 Hxs). destruct fault; [reflexivity|].
      exfalso. apply Hx. reflexivity.
Qed.

Lemma add_hydrates (parse : str -> Records.Parsed)
      (stringify : Records.Cache -> str) (raw : str)
      (l0 : list Records.ImageRecord) (fault : option str)
      (r : Records.ImageRecord) :
  parse raw = Records.PArray l0 ->
  Records.add parse stringify fault r Records.CNull (Some raw)
  = Records.add parse stringify fault r (Records.CArray l0) (Some raw).
Proof. intros E. unfold Records.add. simpl. rewrite E. reflexivity. Qed.

(** *** Appends step by step *)

Lemma nth_error_last (A : Type) (l : list A) (x : A) :
  nth_error (l ++ [x]) (length l) = Some x.
Proof.
  rewrite nth_error_app2 by lia. rewrite Nat.sub_diag. reflexivity.
Qed.

Lemma assign_last (A : Type) (f : A -> A) (l : list A) (x : A) :
  assign (length l) f (l ++ [x]) = l ++ [f x].
Proof. induction l as [|y l IH]; simpl; [reflexivity|]. rewrite IH. reflexivity. Qed.

Lemma nth_last (A : Type) (l : list A) (x d : A) :
  nth (length l) (l ++ [x]) d = x.
Proof. induction l as [|y l IH]; simpl; auto. Qed.

Lemma nth_assign (A : Type) (r : nat) (f : A -> A) (l : list A) (d : A) :
  r < length l -> nth r (assign r f l) d = f (nth r l d).
Proof.
  revert r; induction l as [|y l IH]; intros [|r] H; simpl in *; try lia;
    auto.
  apply IH. lia.
Qed.

Lemma length_assign (A : Type) (r : nat) (f : A -> A) (l : list A) :
  length (assign r f l) = length l.
Proof.
  revert r; induction l as [|y l IH]; intros [|r]; simpl; auto.
Qed.

Ltac last_call :=
  cbv zeta; cbn [Appends.calls Appends.held Appends.arrays Appends.onDisk];
  unfold Appends.setPhase;
  rewrite ?nth_error_last, ?assign_last, ?nth_last; cbv zeta;
  cbn [Appends.calls Appends.held Appends.arrays Appends.onDisk].

(** An append that runs alone is [Records.add]: the same cache and file
    afterwards, and the same settling. *)
Lemma alone_add (parse : str -> Records.Parsed)
      (stringify : Records.Cache -> str) (fault : option str)
      (rec : Records.ImageRecord) (m : Appends.Manager) :
  Appends.live m ->
  Appends.view (Appends.alone parse stringify fault rec m)
  = fst (fst (Records.add parse stringify fault rec (Appends.view m)
                          (Appends.onDisk m)))
  /\ Appends.onDisk (Appends.alone parse stringify fault rec m)
     = snd (fst (Records.add parse stringify fault rec (Appends.view m)
                             (Appends.onDisk m)))
  /\ Appends.calls (Appends.alone parse stringify fault rec m)
     = Appends.calls m
       ++ [Appends.Ended
             (snd (Records.add parse stringify fault rec (Appends.view m)
                               (Appends.onDisk m)))]
  /\ Appends.live (Appends.alone parse stringify fault rec m).
Proof.
  intros L. destruct m as [A H D C].
  unfold Appends.alone, Appends.start, Appends.live, Appends.view in *.
  cbn [Appends.calls Appends.held Appends.arrays Appends.onDisk] in *.
  destruct H as [|r|].
  - unfold Appends.readDone. last_call.
    assert (G : forall l,
               Records.load parse Records.CNull D = Records.CArray l ->
               let m2 :=
                 Appends.writeDone
                   (length C) fault
                   (Appends.resume
                      stringify (length C)
                      (Appends.mkManager
                         (A ++ [l]) (Appends.VArray (length A)) D
                         (C ++ [Appends.Loaded (Appends.VArray (length A))
                                               rec]))) in
               match Appends.held m2 with
               | Appends.VNull => Records.CNull
               | Appends.VArray r =>
                   Records.CArray (nth r (Appends.arrays m2) [])
               | Appends.VOther => Records.COther
               end
               = fst (fst (Records.add parse stringify fault rec
                                       Records.CNull D))
               /\ Appends.onDisk m2
                  = snd (fst (Records.add parse stringify fault rec
                                          Records.CNull D))
               /\ Appends.calls m2
                  = C ++ [Appends.Ended
                            (snd (Records.add parse stringify fault rec
                                              Records.CNull D))]
               /\ match Appends.held m2 with
                  | Appends.VArray r => r < length (Appends.arrays m2)
                  | _ => True
                  end).
    { intros l E. cbv zeta. unfold Records.add. rewrite E.
      unfold Appends.resume. last_call.
      unfold Appends.view.
      cbn [Appends.calls Appends.held Appends.arrays Appends.onDisk].
      rewrite nth_last.
      unfold Appends.writeDone. last_call.
      destruct fault as [msg|]; last_call; simpl;
        rewrite ?nth_last, ?length_app; simpl; repeat split; auto; lia. }
    destruct D as [raw|]; [destruct (parse raw) eqn:P|].
    + apply G. simpl. rewrite P. reflexivity.
    + unfold Records.add. simpl. rewrite P.
      unfold Appends.resume. last_call.
      unfold Appends.writeDone. last_call. simpl. auto.
    + apply G. simpl. rewrite P. reflexivity.
    + unfold Records.add. simpl. rewrite P.
      unfold Appends.resume. last_call.
      unfold Appends.writeDone. last_call. simpl. auto.
    + apply G. reflexivity.
  - unfold Appends.readDone. last_call.
    unfold Appends.resume. last_call.
    unfold Appends.view.
    cbn [Appends.calls Appends.held Appends.arrays Appends.onDisk].
    rewrite (nth_assign _ _ _ L).
    unfold Appends.writeDone. last_call.
    unfold Records.add. simpl.
    destruct fault as [msg|]; last_call; simpl;
      rewrite ?(nth_assign _ _ _ L), ?length_assign; repeat split; auto.
  - unfold Appends.readDone. last_call.
    unfold Appends.resume. last_call.
    unfold Appends.writeDone. last_call. simpl. auto.
Qed.

Lemma sequential_addAll (parse : str -> Records.Parsed)
      (stringify : Records.Cache -> str)
      (ops : list (option str * Records.ImageRecord)) (m : Appends.Manager) :
  Appends.live m ->
  Appends.view (Appends.sequential parse stringify ops m)
  = fst (Records.addAll parse stringify ops (Appends.view m)
                        (Appends.onDisk m))
  /\ Appends.onDisk (Appends.sequential parse stringify ops m)
     = snd (Records.addAll parse stringify ops (Appends.view m)
                           (Appends.onDisk m))
  /\ Appends.live (Appends.sequential parse stringify ops m).
Proof.
  revert m; induction ops as [|[fault r] ops IH]; intros m L.
  - simpl. auto.
  - unfold Appends.sequential in *. cbn [fold_left fst snd Records.addAll].
    destruct (@alone_add parse stringify fault r m L) as (V & D & _ & L').
    destruct (IH _ L') as (V' & D' & L'').
    rewrite V', D', V, D.
    destruct (Records.add parse stringify fault r (Appends.view m)
                          (Appends.onDisk m)) as [[c d] st].
    simpl. auto.
Qed.

Lemma addAll_parsable
        (parse : str -> Records.Parsed) (stringify : Records.Cache -> str)
        (raw : str) (l0 : list Records.ImageRecord)
        (ops : list (option str * Records.ImageRecord)) :
  parse raw = Records.PArray l0 ->
  ops <> [] ->
  fst (Records.addAll parse stringify ops Records.CNull (Some raw))
  = Records.CArray (l0 ++ map snd ops)
  /\ (Forall (fun op => fst op <> None) ops ->
      snd (Records.addAll parse stringify ops Records.CNull (Some raw))
      = Some raw)
  /\ forall r,
      Records.addAll parse stringify (ops ++ [(None, r)]) Records.CNull
                     (Some raw)
      = (Records.CArray (l0 ++ map snd ops ++ [r]),
         Some (stringify (Records.CArray (l0 ++ map snd ops ++ [r])))).
Proof.
  intros E Hne. destruct ops as [|[fault r0] ops]; [congruence|].
  cbn [app Records.addAll]. rewrite (@add_hydrates parse stringify raw l0 fault r0 E).
  rewrite add_array.
  destruct (addAll_array parse stringify ops (l0 ++ [r0])
              match fault with
              | Some _ => Some raw
              | None => Some (stringify (Records.CArray (l0 ++ [r0])))
              end) as [I1 I2].
  split; [|split].
  - rewrite I1. cbn [map snd]. rewrite <- app_assoc. reflexivity.
  - intros F. inversion F as [|x xs Hx Hxs]; subst.
    rewrite (I2 Hxs). destruct fault; [reflexivity|].
    exfalso. apply Hx. reflexivity.
  - intros r. rewrite addAll_array_last. cbn [map snd].
    rewrite <- !app_assoc. reflexivity.
Qed.

(** X12.  A record log that parses as an array is kept and extended by
    appends that do not overlap.  From a new manager over such a file, after
    any run of appends each of which has settled before the next is called,
    [this.records] holds the records of the file followed by every appended
    record, in order; while every write fails the file stays as it was; and
    the first write that succeeds puts on disk the print of all of them,
    those whose own write had failed included. *)
Theorem parsable_log_is_kept_and_extended
        (parse : str -> Records.Parsed) (stringify : Records.Cache -> str)
        (raw : str) (l0 : list Records.ImageRecord)
        (ops : list (option str * Records.ImageRecord)) :
  parse raw = Records.PArray l0 ->
  ops <> [] ->
  Appends.view (Appends.sequential parse stringify ops
                                   (Appends.fresh (Some raw)))
  = Records.CArray (l0 ++ map snd ops)
  /\ (Forall (fun op => fst op <> None) ops ->
      Appends.onDisk (Appends.sequential parse stringify ops
                                         (Appends.fresh (Some raw)))
      = Some raw)
  /\ forall r,
      Appends.view (Appends.sequential parse stringify (ops ++ [(None, r)])
                                       (Appends.fresh (Some raw)))
      = Records.CArray (l0 ++ map snd ops ++ [r])
      /\ Appends.onDisk
           (Appends.sequential parse stringify (ops ++ [(None, r)])
                               (Appends.fresh (Some raw)))
         = Some (stringify (Records.CArray (l0 ++ map snd ops ++ [r]))).
Proof.
  intros E Hne.
  destruct (@addAll_parsable parse stringify raw l0 ops E Hne)
    as (A & B & C).
  assert (L : Appends.live (Appends.fresh (Some raw))) by exact I.
  destruct (@sequential_addAll parse stringify ops _ L) as (V & D & _).
  split; [rewrite V; exact A|]. split.
  - intros F. rewrite D. exact (B F).
  - intros r.
    destruct (@sequential_addAll parse stringify (ops ++ [(None, r)]) _ L)
      as (V' & D' & _).
    rewrite V', D'. change (Appends.view (Appends.fresh (Some raw)))
      with Records.CNull.
    change (Appends.onDisk (Appends.fresh (Some raw))) with (Some raw).
    rewrite (C r). auto.
Qed.

Lemma parsable_log_witness :
  let r0 := Records.RUpload (u "2025-12-31T00:00:00.000Z")
              (Records.mkUpload (u "old.png") (u "assets/old.png")
                                (u "https://cdn.example.com/old.png") []
                                (u "notes/trip.md") (u "trip.md")) in
  let r1 := Records.RDownload (u "2026-01-02T00:00:00.000Z")
              (Records.mkDownload (u "cat.jpg") (u "notes/cat.jpg")
                                  (u "https://example.com/a/b/cat.jpg")
                                  (u "notes/trip.md") (u "trip.md")) in
  let parse := fun _ : str => Records.PArray [r0] in
  let stringify := JSON_stringify Scenario.offline in
  let m := Appends.fresh (Some (u "[ one record ]")) in
  parse (u "[ one record ]") = Records.PArray [r0]
  /\ Appends.view (Appends.sequential parse stringify
                                      [(Some (u "EIO"), r1)] m)
     = Records.CArray [r0; r1]
  /\ Appends.onDisk (Appends.sequential parse stringify
                                        [(Some (u "EIO"), r1)] m)
     = Some (u "[ one record ]")
  /\ Appends.onDisk (Appends.sequential parse stringify
                                        [(Some (u "EIO"), r1); (None, r0)] m)
     = Some (u "3").
Proof.
  intros r0 r1 parse stringify m.
  assert (E : parse (u "[ one record ]") = Records.PArray [r0])
    by reflexivity.
  assert (N : [(Some (u "EIO"), r1)] <> []) by discriminate.
  destruct (@parsable_log_is_kept_and_extended
              parse stringify (u "[ one record ]") [r0]
              [(Some (u "EIO"), r1)] E N) as (A & B & C).
  split; [exact E|]. split; [exact A|]. split.
  - apply B. repeat constructor. discriminate.
  - exact (proj2 (C r0)).
Defined.



Lemma add_stuck (parse : str -> Records.Parsed)
      (stringify : Records.Cache -> str) (raw : str) (fault : option str)
      (r : Records.ImageRecord) (c : Records.Cache) :
  parse raw = Records.PNull \/ parse raw = Records.POther ->
  c = Records.CNull \/ c = Records.COther ->
  exists c' msg,
    (c' = Records.CNull \/ c' = Records.COther)
    /\ Records.add parse stringify fault r c (Some raw)
       = (c', Some raw, Records.Rejected msg).
Proof.
  intros P [-> | ->]; unfold Records.add; simpl.
  - destruct P as [-> | ->]; eexists _, _; (split; [|reflexivity]); auto.
  - eexists _, _; (split; [|reflexivity]); auto.
Qed.

(** X13.  A record log that holds valid JSON which is not an array (the
    text null, an object, a number) switches logging off for good: with
    the cache still unset, every append is rejected at the push, before any
    write, and after any run of appends the file is still the text it was
    and the cache holds no array. *)
Theorem non_array_log_rejects_every_append
        (parse : str -> Records.Parsed) (stringify : Records.Cache -> str)
        (raw : str) (ops : list (option str * Records.ImageRecord)) :
  parse raw = Records.PNull \/ parse raw = Records.POther ->
  snd (Records.addAll parse stringify ops Records.CNull (Some raw)) = Some raw
  /\ (forall l, fst (Records.addAll parse stringify ops Records.CNull
                                    (Some raw)) <> Records.CArray l)
  /\ forall fault r,
      exists msg,
        snd (Records.add parse stringify fault r
               (fst (Records.addAll parse stringify ops Records.CNull
                                    (Some raw)))
               (snd (Records.addAll parse stringify ops Records.CNull
                                    (Some raw))))
        = Records.Rejected msg.
Proof.
  intros P.
  assert (G : forall c, c = Records.CNull \/ c = Records.COther ->
              exists c',
                (c' = Records.CNull \/ c' = Records.COther)
                /\ Records.addAll parse stringify ops c (Some raw)
                   = (c', Some raw)).
  { induction ops as [|[fault r0] ops IH]; intros c Hc.
    - exists c. split; [exact Hc | reflexivity].
    - cbn [Records.addAll].
      destruct (@add_stuck parse stringify raw fault r0 c P Hc)
        as (c1 & m1 & Hc1 & ->).
      apply IH. exact Hc1. }
  destruct (G Records.CNull (or_introl eq_refl)) as (c' & Hc' & ->).
  cbn [fst snd]. split; [reflexivity|]. split.
  - intros l. destruct Hc' as [-> | ->]; discriminate.
  - intros fault r.
    destruct (@add_stuck parse stringify raw fault r c' P Hc')
      as (c2 & m2 & _ & ->).
    eexists. reflexivity.
Qed.

Lemma non_array_log_witness :
  let r1 := Records.RDownload (u "2026-01-02T00:00:00.000Z")
              (Records.mkDownload (u "cat.jpg") (u "notes/cat.jpg")
                                  (u "https://example.com/a/b/cat.jpg")
                                  (u "notes/trip.md") (u "trip.md")) in
  let parse := fun _ : str => Records.POther in
  let stringify := JSON_stringify Scenario.offline in
  (parse (u "{}") = Records.PNull \/ parse (u "{}") = Records.POther)
  /\ snd (Records.addAll parse stringify [(None, r1); (None, r1)]
                         Records.CNull (Some (u "{}")))
     = Some (u "{}").
Proof.
  intros r1 parse stringify.
  assert (P : parse (u "{}") = Records.PNull
              \/ parse (u "{}") = Records.POther) by (right; reflexivity).
  split; [exact P|].
  exact (proj1 (@non_array_log_rejects_every_append
                  parse stringify (u "{}") [(None, r1); (None, r1)] P)).
Defined.

(** ** Transfers *)
Import Frame.

Lemma sameItems_refl (a : App) : sameItems a a.
Proof. unfold sameItems. auto 10. Qed.

Lemma sameItems_trans (a b c : App) :
  sameItems a b -> sameItems b c -> sameItems a c.
Proof.
  unfold sameItems.
  intros (A1 & A2 & A3 & A4 & A5 & A6) (B1 & B2 & B3 & B4 & B5 & B6).
  repeat split; congruence.
Qed.

Lemma rewrite_same (h : Host) (activeFile : TFile) (target replacement : str)
      (a : App) :
  sameItems a (fst (rewrite h activeFile target replacement a)).
Proof.
  unfold rewrite.
  destruct (findEditorForFile a activeFile) as [i|];
    [|apply sameItems_refl].
  destruct (str_eqb _ _); [apply sameItems_refl|].
  destruct (setValueFault h); [apply sameItems_refl|].
  unfold sameItems. simpl. auto 10.
Qed.

Lemma saveDownload_same (h : Host) (activeFile : TFile) (fileName : str)
      (a : App) :
  sameItems a (fst (saveDownload h activeFile fileName a)).
Proof.
  destruct (saveDownload_frame h activeFile fileName a) as [v ->].
  unfold sameItems. simpl. auto 10.
Qed.

Lemma floating_same (st : Records.Settled) (a : App) :
  sameItems a (floating st a).
Proof. destruct st; unfold sameItems; simpl; auto 10. Qed.

Lemma recordDownload_same (h : Host) (r : Records.DownloadRecord) (a : App) :
  sameItems a (recordDownload h r a).
Proof.
  unfold recordDownload.
  destruct (Records.addDownload _ _ _ _ _ _ _) as [[c d] st].
  eapply sameItems_trans; [|apply floating_same].
  unfold sameItems. simpl. auto 10.
Qed.

Lemma recordUpload_same (h : Host) (r : Records.UploadRecord) (a : App) :
  sameItems a (recordUpload h r a).
Proof.
  unfold recordUpload.
  destruct (Records.addUpload _ _ _ _ _ _ _) as [[c d] st].
  eapply sameItems_trans; [|apply floating_same].
  unfold sameItems. simpl. auto 10.
Qed.

Lemma setTimeout_same (cb : Callback) (ms : N) (a : App) :
  sameItems a (snd (setTimeout cb ms a)).
Proof. unfold sameItems. simpl. auto 10. Qed.

Lemma handler_same (r : App * Outcome) : sameItems (fst r) (handler r).
Proof.
  destruct r as [a [|msg]]; unfold sameItems; simpl; auto 10.
Qed.

Lemma assign_ext (A : Type) (r : nat) (f g : A -> A) (heap : list A) (x : A) :
  nth_error heap r = Some x -> f x = g x -> assign r f heap = assign r g heap.
Proof.
  revert r; induction heap as [|y heap IH]; intros [|r] H E; simpl in *;
    try discriminate.
  - injection H as ->. rewrite E. reflexivity.
  - f_equal. eapply IH; eauto.
Qed.

Lemma assign_twice (A : Type) (r : nat) (f g : A -> A) (heap : list A) :
  assign r g (assign r f heap) = assign r (fun x => g (f x)) heap.
Proof.
  revert r; induction heap as [|y heap IH]; intros [|r]; simpl; auto.
  f_equal. apply IH.
Qed.

Lemma assign_none (A : Type) (r : nat) (f : A -> A) (heap : list A) :
  nth_error heap r = None -> assign r f heap = heap.
Proof.
  revert r; induction heap as [|y heap IH]; intros [|r] H; simpl in *;
    try discriminate; auto.
  f_equal. apply IH. exact H.
Qed.

(** The second part of [doDownload] assigns one ended state to the item and
    leaves the other objects and both lists alone. *)
Lemma doDownload_finish_effect (h : Host) (item : nat) (activeFile : TFile)
      (net : Net.NetResult) (a : App) (it : RemoteImageItem) :
  nth_error (remoteHeap a) item = Some it ->
  rError it = None ->
  exists st e,
    ended st e
    /\ remoteHeap (doDownload_finish h item activeFile net a)
       = assign item (rWithStatus st e) (remoteHeap a)
    /\ localHeap (doDownload_finish h item activeFile net a) = localHeap a
    /\ items (doDownload_finish h item activeFile net a) = items a
    /\ remoteItems (doDownload_finish h item activeFile net a)
       = remoteItems a
    /\ currentFilePath (doDownload_finish h item activeFile net a)
       = currentFilePath a
    /\ settings (doDownload_finish h item activeFile net a) = settings a.
Proof.
  intros Hit He. unfold doDownload_finish. rewrite Hit.
  assert (F : forall msg b,
             sameItems a b ->
             exists st e,
               ended st e
               /\ remoteHeap (failDownload item msg b)
                  = assign item (rWithStatus st e) (remoteHeap a)
               /\ localHeap (failDownload item msg b) = localHeap a
               /\ items (failDownload item msg b) = items a
               /\ remoteItems (failDownload item msg b) = remoteItems a
               /\ currentFilePath (failDownload item msg b)
                  = currentFilePath a
               /\ settings (failDownload item msg b) = settings a).
  { intros msg b (B1 & B2 & B3 & B4 & B5 & B6).
    exists failed, (Some msg). split; [right; eauto|].
    unfold failDownload. simpl. rewrite B2. auto 10. }
  destruct net as [msg|response]; [apply F, sameItems_refl|].
  destruct (_ || _); [apply F, sameItems_refl|].
  pose proof (saveDownload_same h activeFile (rFileName it) a) as S2.
  destruct (saveDownload h activeFile (rFileName it) a) as [a2 [msg|saved]];
    simpl in S2; [apply F, S2|].
  pose proof (rewrite_same h activeFile (rFullMatch it)
                           (u "![[" ++ name saved ++ u "]]") a2) as S3.
  destruct (rewrite h activeFile (rFullMatch it) _ a2) as [a3 [|msg]];
    simpl in S3; [|apply F; eapply sameItems_trans; eauto].
  assert (S13 : sameItems a a3) by (eapply sameItems_trans; eauto).
  destruct S13 as (B1 & B2 & B3 & B4 & B5 & B6).
  exists done, None. split; [left; auto|].
  match goal with
  | |- context [recordDownload h ?r ?b] =>
      pose proof (recordDownload_same h r b) as S5;
      destruct (setTimeout_same (RemoveDownloaded item activeFile) 1000
                                (recordDownload h r b))
        as (T1 & T2 & T3 & T4 & T5 & T6)
  end.
  destruct S5 as (R1 & R2 & R3 & R4 & R5 & R6).
  rewrite T1, T2, T3, T4, T5, T6, R1, R2, R3, R4, R5, R6. simpl.
  rewrite B1, B2, B3, B4, B5, B6. repeat split; auto.
  apply assign_ext with (x := it); [exact Hit|].
  unfold rSetStatus. rewrite He. reflexivity.
Qed.

Lemma rWithStatus_twice (st st' : ItemStatus) (e e' : option str)
      (it : RemoteImageItem) :
  rWithStatus st' e' (rWithStatus st e it) = rWithStatus st' e' it.
Proof. destruct it; reflexivity. Qed.

Lemma withStatus_twice (st st' : ItemStatus) (e e' : option str)
      (it : ImageItem) :
  withStatus st' e' (withStatus st e it) = withStatus st' e' it.
Proof. destruct it; reflexivity. Qed.

Lemma doDownload_effect (h : Host) (item : nat) (activeFile : TFile)
      (a : App) :
  (forall it,
      nth_error (remoteHeap a) item = Some it ->
      exists st e,
        ended st e
        /\ nth_error (remoteHeap (doDownload h item activeFile a)) item
           = Some (rWithStatus st e it))
  /\ (forall r, r <> item ->
                nth_error (remoteHeap (doDownload h item activeFile a)) r
                = nth_error (remoteHeap a) r)
  /\ localHeap (doDownload h item activeFile a) = localHeap a
  /\ items (doDownload h item activeFile a) = items a
  /\ remoteItems (doDownload h item activeFile a) = remoteItems a
  /\ currentFilePath (doDownload h item activeFile a) = currentFilePath a
  /\ settings (doDownload h item activeFile a) = settings a.
Proof.
  unfold doDownload. cbv zeta.
  destruct (nth_error (remoteHeap a) item) as [it|] eqn:Hit.
  - assert (H1 : nth_error (remoteHeap (doDownload_start item a)) item
                 = Some (rWithStatus uploading None it)).
    { unfold doDownload_start. simpl. rewrite nth_error_assign, Hit.
      reflexivity. }
    rewrite H1.
    destruct (@doDownload_finish_effect
                h item activeFile
                (requestUrl h (Net.mkRequest
                                 (url (rWithStatus uploading None it))
                                 Net.GET [] None))
                (doDownload_start item a)
                (rWithStatus uploading None it) H1)
      as (st & e & En & G1 & G2 & G3 & G4 & G5 & G6);
      [destruct it; reflexivity|].
    rewrite G1, G2, G3, G4, G5, G6.
    unfold doDownload_start. simpl. repeat split; auto.
    + intros it0 [= <-]. exists st, e. split; [exact En|].
      rewrite !nth_error_assign, Hit. simpl.
      rewrite rWithStatus_twice. reflexivity.
    + intros r Hr. rewrite !nth_error_assign_other by auto. reflexivity.
  - assert (H1 : nth_error (remoteHeap (doDownload_start item a)) item = None).
    { unfold doDownload_start. simpl. rewrite nth_error_assign, Hit.
      reflexivity. }
    rewrite H1. unfold doDownload_start. simpl.
    repeat split; auto; try discriminate.
    intros r Hr. rewrite nth_error_assign_other by auto. reflexivity.
Qed.

(** X14.  [doDownload] never leaves its item in the uploading state: run
    without another handler in between, it ends with the item done and
    carrying no message, or failed and carrying one, whatever the network,
    the vault or the editor did.  The item's other fields, every other
    item, and the two tracked lists are as before. *)
Theorem download_ends_done_or_failed (h : Host) (item : nat)
        (activeFile : TFile) (a : App) (it : RemoteImageItem) :
  nth_error (remoteHeap a) item = Some it ->
  (exists st e,
      ended st e
      /\ nth_error (remoteHeap (doDownload h item activeFile a)) item
         = Some (rWithStatus st e it))
  /\ (forall r, r <> item ->
                nth_error (remoteHeap (doDownload h item activeFile a)) r
                = nth_error (remoteHeap a) r)
  /\ localHeap (doDownload h item activeFile a) = localHeap a
  /\ items (doDownload h item activeFile a) = items a
  /\ remoteItems (doDownload h item activeFile a) = remoteItems a.
Proof.
  intros Hit.
  destruct (doDownload_effect h item activeFile a)
    as (E1 & E2 & E3 & E4 & E5 & _).
  split; [apply E1; exact Hit|]. auto.
Qed.

Lemma download_ends_witness :
  let a := Scenario.trackingRemote Scenario.configured Scenario.catLink []
             (Scenario.catItem idle None) in
  nth_error (remoteHeap a) 0 = Some (Scenario.catItem idle None)
  /\ exists st e,
      ended st e
      /\ nth_error (remoteHeap (doDownload Scenario.offline 0 Scenario.note a))
                   0
         = Some (rWithStatus st e (Scenario.catItem idle None)).
Proof.
  intros a.
  assert (H : nth_error (remoteHeap a) 0 = Some (Scenario.catItem idle None))
    by reflexivity.
  split; [exact H|].
  exact (proj1 (@download_ends_done_or_failed
                  Scenario.offline 0 Scenario.note a
                  (Scenario.catItem idle None) H)).
Defined.



(** The second part of [doUpload] assigns one ended state to the item and
    leaves the other objects and both lists alone; when it throws, the item
    is done. *)
Lemma doUpload_finish_effect (h : Host) (item : nat) (activeFile : TFile)
      (result : UploadResult) (a : App) (it : ImageItem) :
  nth_error (localHeap a) item = Some it ->
  error it = None ->
  exists st e,
    ended st e
    /\ (forall msg,
          snd (doUpload_finish h item activeFile result a) = Threw msg ->
          st = done)
    /\ (forall err, result = Failure err -> st = failed /\ e = Some err)
    /\ (forall publicUrl, result = Success publicUrl -> st = done)
    /\ localHeap (fst (doUpload_finish h item activeFile result a))
       = assign item (withStatus st e) (localHeap a)
    /\ remoteHeap (fst (doUpload_finish h item activeFile result a))
       = remoteHeap a
    /\ items (fst (doUpload_finish h item activeFile result a)) = items a
    /\ remoteItems (fst (doUpload_finish h item activeFile result a))
       = remoteItems a
    /\ currentFilePath (fst (doUpload_finish h item activeFile result a))
       = currentFilePath a
    /\ settings (fst (doUpload_finish h item activeFile result a))
       = settings a.
Proof.
  intros Hit He. unfold doUpload_finish.
  destruct result as [publicUrl|err].
  2:{ exists failed, (Some err). simpl.
      split; [right; eauto|]. split; [discriminate|].
      split; [intros err0 [= <-]; auto|]. split; [discriminate|]. auto 10. }
  exists done, None. split; [left; auto|]. split; [auto|].
  split; [discriminate|]. split; [auto|].
  assert (A : assign item (setStatus done) (localHeap a)
              = assign item (withStatus done None) (localHeap a)).
  { apply assign_ext with (x := it); [exact Hit|].
    unfold setStatus. rewrite He. reflexivity. }
  assert (F : forall r : App * Outcome,
             sameItems
               (set_localHeap (assign item (setStatus done) (localHeap a)) a)
               (fst r) ->
             localHeap (fst r) = assign item (withStatus done None) (localHeap a)
             /\ remoteHeap (fst r) = remoteHeap a
             /\ items (fst r) = items a
             /\ remoteItems (fst r) = remoteItems a
             /\ currentFilePath (fst r) = currentFilePath a
             /\ settings (fst r) = settings a).
  { intros r (B1 & B2 & B3 & B4 & B5 & B6).
    rewrite B1, B2, B3, B4, B5, B6. simpl. rewrite A. auto 10. }
  cbv zeta.
  destruct (nth_error
              (localHeap
                 (set_localHeap (assign item (setStatus done) (localHeap a)) a))
              item) as [it1|]; [|apply F, sameItems_refl].
  match goal with
  | |- context [rewrite h activeFile ?t ?r ?b] =>
      pose proof (rewrite_same h activeFile t r b) as S2;
      destruct (rewrite h activeFile t r b) as [a2 [|msg]]
  end; simpl in S2; [|apply F; exact S2].
  destruct (file it1) as [f|]; [|apply F; exact S2].
  destruct (if truthy (customDomain (settings a2)) then _ else _)
    as [customUrl|]; [|apply F; exact S2].
  apply F. cbn [fst].
  eapply sameItems_trans; [exact S2|].
  eapply sameItems_trans; [apply recordUpload_same | apply setTimeout_same].
Qed.

Lemma doUpload_effect (h : Host) (item : nat) (activeFile : TFile)
      (baseUrl : str) (a : App) :
  (forall it,
      nth_error (localHeap a) item = Some it ->
      exists st e,
        ended st e
        /\ nth_error (localHeap (fst (doUpload h item activeFile baseUrl a)))
                     item
           = Some (withStatus st e it)
        /\ (forall msg,
              snd (doUpload h item activeFile baseUrl a) = Threw msg ->
              st = done)
        /\ (forall err,
              fst (uploadImageFile h (settings a) (file it) baseUrl)
              = Failure err ->
              st = failed /\ e = Some err
              /\ snd (doUpload h item activeFile baseUrl a) = Returned)
        /\ (forall publicUrl,
              fst (uploadImageFile h (settings a) (file it) baseUrl)
              = Success publicUrl -> st = done))
  /\ (forall r, r <> item ->
                nth_error (localHeap (fst (doUpload h item activeFile
                                                    baseUrl a))) r
                = nth_error (localHeap a) r)
  /\ remoteHeap (fst (doUpload h item activeFile baseUrl a)) = remoteHeap a
  /\ items (fst (doUpload h item activeFile baseUrl a)) = items a
  /\ remoteItems (fst (doUpload h item activeFile baseUrl a)) = remoteItems a
  /\ currentFilePath (fst (doUpload h item activeFile baseUrl a))
     = currentFilePath a
  /\ settings (fst (doUpload h item activeFile baseUrl a)) = settings a.
Proof.
  unfold doUpload. cbv zeta.
  destruct (nth_error (localHeap a) item) as [it|] eqn:Hit.
  - assert (H1 : nth_error (localHeap (doUpload_start item a)) item
                 = Some (withStatus uploading None it)).
    { unfold doUpload_start. simpl. rewrite nth_error_assign, Hit.
      reflexivity. }
    rewrite H1.
    assert (Hf : file (withStatus uploading None it) = file it)
      by (destruct it; reflexivity).
    assert (Hs : settings (doUpload_start item a) = settings a)
      by reflexivity.
    rewrite Hf, Hs.
    destruct (@doUpload_finish_effect
                h item activeFile
                (fst (uploadImageFile h (settings a) (file it) baseUrl))
                (doUpload_start item a)
                (withStatus uploading None it) H1)
      as (st & e & En & Th & Fa & Su & G1 & G2 & G3 & G4 & G5 & G6);
      [destruct it; reflexivity|].
    rewrite G1, G2, G3, G4, G5, G6.
    unfold doUpload_start in *. simpl. repeat split; auto.
    + intros it0 [= <-]. exists st, e. split; [exact En|]. split.
      * rewrite !nth_error_assign, Hit. simpl.
        rewrite withStatus_twice. reflexivity.
      * split; [exact Th|]. split; [|exact Su].
        intros err Herr. destruct (Fa err Herr) as [-> ->].
        repeat split; auto.
        simpl. rewrite Herr. reflexivity.
    + intros r Hr. rewrite !nth_error_assign_other by auto. reflexivity.
  - assert (H1 : nth_error (localHeap (doUpload_start item a)) item = None).
    { unfold doUpload_start. simpl. rewrite nth_error_assign, Hit.
      reflexivity. }
    rewrite H1.
    assert (Hs : settings (doUpload_start item a) = settings a)
      by reflexivity.
    rewrite Hs.
    split; [discriminate|].
    destruct (fst (uploadImageFile h (settings a) None baseUrl))
      as [publicUrl|err]; unfold doUpload_finish.
    + cbv zeta.
      assert (H2 : nth_error
                     (localHeap
                        (set_localHeap
                           (assign item (setStatus done)
                                   (localHeap (doUpload_start item a)))
                           (doUpload_start item a))) item = None).
      { simpl. rewrite !nth_error_assign, Hit. reflexivity. }
      rewrite H2. simpl. repeat split; auto.
      intros r Hr. rewrite !nth_error_assign_other by auto. reflexivity.
    + simpl. repeat split; auto.
      intros r Hr. rewrite !nth_error_assign_other by auto. reflexivity.
Qed.

(** X16.  [doUpload] never leaves its item in the uploading state: run
    without another handler in between, it ends with the item done and
    carrying no message, or failed and carrying one.  The item is failed
    exactly as [uploadImageFile] failed; once the store has accepted the
    file the item is done, also when the rewrite of the document or the
    record that follow raise an exception, which then leaves [doUpload]
    with the item shown as done.  The item's other fields, every other
    item, and the two tracked lists are as before. *)
Theorem upload_ends_done_or_failed (h : Host) (item : nat)
        (activeFile : TFile) (baseUrl : str) (a : App) (it : ImageItem) :
  nth_error (localHeap a) item = Some it ->
  (exists st e,
      ended st e
      /\ nth_error (localHeap (fst (doUpload h item activeFile baseUrl a)))
                   item
         = Some (withStatus st e it)
      /\ (forall msg,
            snd (doUpload h item activeFile baseUrl a) = Threw msg ->
            st = done)
      /\ (forall err,
            fst (uploadImageFile h (settings a) (file it) baseUrl)
            = Failure err ->
            st = failed /\ e = Some err
            /\ snd (doUpload h item activeFile baseUrl a) = Returned)
      /\ (forall publicUrl,
            fst (uploadImageFile h (settings a) (file it) baseUrl)
            = Success publicUrl -> st = done))
  /\ (forall r, r <> item ->
                nth_error (localHeap (fst (doUpload h item activeFile
                                                    baseUrl a))) r
                = nth_error (localHeap a) r)
  /\ remoteHeap (fst (doUpload h item activeFile baseUrl a)) = remoteHeap a
  /\ items (fst (doUpload h item activeFile baseUrl a)) = items a
  /\ remoteItems (fst (doUpload h item activeFile baseUrl a)) = remoteItems a.
Proof.
  intros Hit.
  destruct (doUpload_effect h item activeFile baseUrl a)
    as (E1 & E2 & E3 & E4 & E5 & _).
  split; [apply E1; exact Hit|]. auto.
Qed.

Lemma upload_ends_witness :
  let a := Scenario.tracking Scenario.configured Scenario.photoLink []
             (Scenario.photoItem (Some Scenario.photo) idle None) in
  let it := Scenario.photoItem (Some Scenario.photo) idle None in
  nth_error (localHeap a) 0 = Some it
  /\ exists st e,
      ended st e
      /\ nth_error
           (localHeap (fst (doUpload Scenario.frozenEditor 0 Scenario.note
                                     (u "https://cdn.example.com") a))) 0
         = Some (withStatus st e it).
Proof.
  intros a it.
  assert (H : nth_error (localHeap a) 0 = Some it) by reflexivity.
  split; [exact H|].
  destruct (proj1 (@upload_ends_done_or_failed
                     Scenario.frozenEditor 0 Scenario.note
                     (u "https://cdn.example.com") a it H))
    as (st & e & En & Hn & _).
  exists st, e. split; [exact En | exact Hn].
Defined.



Lemma doUpload_failure (h : Host) (item : nat) (activeFile : TFile)
      (baseUrl : str) (a : App) (it : ImageItem) (err : str) :
  nth_error (localHeap a) item = Some it ->
  fst (uploadImageFile h (settings a) (file it) baseUrl) = Failure err ->
  doUpload h item activeFile baseUrl a
  = (set_localHeap
       (assign item (fun i => withStatus failed (Some err)
                                         (withStatus uploading None i))
               (localHeap a)) a,
     Returned).
Proof.
  intros Hit Herr. unfold doUpload. cbv zeta.
  assert (H1 : nth_error (localHeap (doUpload_start item a)) item
               = Some (withStatus uploading None it)).
  { unfold doUpload_start. simpl. rewrite nth_error_assign, Hit.
    reflexivity. }
  rewrite H1.
  replace (file (withStatus uploading None it)) with (file it)
    by (destruct it; reflexivity).
  replace (settings (doUpload_start item a)) with (settings a)
    by reflexivity.
  rewrite Herr. unfold doUpload_finish, doUpload_start. simpl.
  rewrite assign_twice. reflexivity.
Qed.

Lemma forEach_failures (h : Host) (activeFile : TFile) (baseUrl : str)
      (l : list nat) (b : App) :
  (forall r, In r l ->
             exists it err,
               nth_error (localHeap b) r = Some it
               /\ fst (uploadImageFile h (settings b) (file it) baseUrl)
                  = Failure err) ->
  exists lh,
    forEach (fun item => doUpload h item activeFile baseUrl) l b
    = (set_localHeap lh b, Returned)
    /\ (forall r, ~ In r l -> nth_error lh r = nth_error (localHeap b) r)
    /\ (forall r it err,
          In r l -> nth_error (localHeap b) r = Some it ->
          fst (uploadImageFile h (settings b) (file it) baseUrl)
          = Failure err ->
          nth_error lh r = Some (withStatus failed (Some err) it)).
Proof.
  revert b; induction l as [|item rest IH]; intros b H.
  - exists (localHeap b). simpl. split; [destruct b; reflexivity|].
    split; [auto|]. intros r it err [].
  - cbn [forEach].
    destruct (H item (or_introl eq_refl)) as (it0 & err0 & Hit0 & Herr0).
    rewrite (doUpload_failure h item activeFile baseUrl b Hit0 Herr0).
    set (lh1 := assign item
                       (fun i => withStatus failed (Some err0)
                                            (withStatus uploading None i))
                       (localHeap b)).
    assert (N1 : nth_error lh1 item
                 = Some (withStatus failed (Some err0) it0)).
    { unfold lh1. rewrite nth_error_assign, Hit0. simpl.
      rewrite withStatus_twice. reflexivity. }
    assert (N2 : forall r, r <> item ->
                           nth_error lh1 r = nth_error (localHeap b) r).
    { intros r Hr. unfold lh1. apply nth_error_assign_other. auto. }
    assert (F0 : file (withStatus failed (Some err0) it0) = file it0)
      by (destruct it0; reflexivity).
    destruct (IH (set_localHeap lh1 b)) as (lh2 & E & J1 & J2).
    { intros r Hr. cbn [localHeap settings set_localHeap].
      destruct (Nat.eq_dec r item) as [->|Hne].
      - exists (withStatus failed (Some err0) it0), err0.
        split; [exact N1|]. rewrite F0. exact Herr0.
      - rewrite (N2 r Hne). apply H. right. exact Hr. }
    exists lh2. rewrite E. split; [reflexivity|].
    cbn [localHeap settings set_localHeap] in J1, J2. split.
    + intros r Hr. rewrite J1 by (intros C; apply Hr; right; exact C).
      apply N2. intros ->. apply Hr. left. reflexivity.
    + intros r it err Hin Hit Herr.
      destruct (in_dec Nat.eq_dec r rest) as [Hr|Hr].
      * destruct (Nat.eq_dec r item) as [->|Hne].
        -- assert (it = it0) by congruence. subst it.
           rewrite (J2 item (withStatus failed (Some err0) it0) err Hr N1)
             by (rewrite F0; exact Herr).
           rewrite withStatus_twice. reflexivity.
        -- apply J2; auto. rewrite (N2 r Hne). exact Hit.
      * destruct Hin as [<-|Hin]; [|contradiction].
        rewrite J1 by exact Hr. rewrite N1.
        assert (it = it0) by congruence. subst it.
        assert (err = err0) by congruence. subst err. reflexivity.
Qed.

Lemma uploadQueue_tracked (a : App) (r : nat) :
  In r (uploadQueue a) -> exists it, nth_error (localHeap a) r = Some it.
Proof.
  unfold uploadQueue. rewrite filter_In. intros [_ H].
  destruct (nth_error (localHeap a) r) as [it|]; [eauto | discriminate].
Qed.

(** X18.  A failed upload does not stop the batch.  When a base URL was
    resolved and the upload of every item [uploadAll] takes up fails, the
    batch runs to its end and raises nothing: each of these items is failed
    and carries the message of its own upload, and nothing else has
    changed, neither the other items nor the document, the record log, the
    timers or the notices. *)
Theorem uploadAll_goes_on_after_failures (h : Host) (activeFile : TFile)
        (a : App) (baseUrl : str) :
  usable (fst (resolveBaseUrl h (settings a))) = Some baseUrl ->
  (forall r it,
      In r (uploadQueue a) -> nth_error (localHeap a) r = Some it ->
      exists err,
        fst (uploadImageFile h (settings a) (file it) baseUrl) = Failure err) ->
  exists lh,
    uploadAll h activeFile a = set_localHeap lh a
    /\ (forall r, ~ In r (uploadQueue a) ->
                  nth_error lh r = nth_error (localHeap a) r)
    /\ (forall r it err,
          In r (uploadQueue a) -> nth_error (localHeap a) r = Some it ->
          fst (uploadImageFile h (settings a) (file it) baseUrl)
          = Failure err ->
          nth_error lh r = Some (withStatus failed (Some err) it)).
Proof.
  intros Hb Hall. unfold uploadAll. rewrite Hb. fold (uploadQueue a).
  destruct (@forEach_failures h activeFile baseUrl (uploadQueue a) a)
    as (lh & E & J1 & J2).
  { intros r Hr. destruct (uploadQueue_tracked a r Hr) as [it Hit].
    destruct (Hall r it Hr Hit) as [err Herr]. eauto. }
  exists lh. rewrite E. simpl. auto.
Qed.

Lemma uploadAll_failures_witness :
  let a := Scenario.tracking Scenario.configured Scenario.photoLink []
             (Scenario.photoItem (Some Scenario.photo) idle None) in
  let it := Scenario.photoItem (Some Scenario.photo) idle None in
  usable (fst (resolveBaseUrl Scenario.offline (settings a)))
  = Some (u "https://cdn.example.com")
  /\ exists lh,
      uploadAll Scenario.offline Scenario.note a = set_localHeap lh a
      /\ nth_error lh 0
         = Some (withStatus failed
                            (Some (u "net::ERR_INTERNET_DISCONNECTED")) it).
Proof.
  intros a it.
  assert (Hb : usable (fst (resolveBaseUrl Scenario.offline (settings a)))
               = Some (u "https://cdn.example.com")) by reflexivity.
  split; [exact Hb|].
  destruct (@uploadAll_goes_on_after_failures
              Scenario.offline Scenario.note a (u "https://cdn.example.com")
              Hb) as (lh & E & _ & J).
  { intros r it0 [<-|[]] [= <-]. eexists. reflexivity. }
  exists lh. split; [exact E|].
  apply J; [left; reflexivity | reflexivity | reflexivity].
Defined.

(** ** Timers over any run of events *)
Import Events.

Lemma sameTimers_refl (a : App) : sameTimers a a.
Proof. unfold sameTimers. auto. Qed.

Lemma sameTimers_trans (a b c : App) :
  sameTimers a b -> sameTimers b c -> sameTimers a c.
Proof.
  unfold sameTimers. intros (A1 & A2 & A3) (B1 & B2 & B3).
  repeat split; congruence.
Qed.

Lemma sameTimers_arms (a a' : App) : sameTimers a a' -> armsOnly a a'.
Proof.
  intros (T1 & T2 & T3). unfold armsOnly. rewrite T1, T2, T3.
  split; [reflexivity|]. split; [lia|].
  exists []. rewrite app_nil_r. repeat split; constructor.
Qed.

Lemma armsOnly_refl (a : App) : armsOnly a a.
Proof. apply sameTimers_arms, sameTimers_refl. Qed.

Lemma armsOnly_trans (a b c : App) :
  armsOnly a b -> armsOnly b c -> armsOnly a c.
Proof.
  intros (A1 & A2 & n1 & A3 & A4 & A5) (B1 & B2 & n2 & B3 & B4 & B5).
  unfold armsOnly. split; [congruence|]. split; [lia|].
  exists (n1 ++ n2). rewrite B3, A3, app_assoc. split; [reflexivity|].
  rewrite Forall_forall in A4, B4. split.
  - apply Forall_forall. intros t Ht. apply in_app_or in Ht.
    destruct Ht as [Ht|Ht]; [destruct (A4 t Ht) | destruct (B4 t Ht)];
      split; auto; lia.
  - rewrite map_app. apply NoDup_app; auto.
    intros x H1 H2. apply in_map_iff in H1, H2.
    destruct H1 as (t1 & <- & H1), H2 as (t2 & E & H2).
    destruct (A4 t1 H1) as [_ R1], (B4 t2 H2) as [_ R2]. lia.
Qed.

Lemma setTimeout_arms (cb : Callback) (ms : N) (a : App) :
  cb <> RefreshFromEditor -> armsOnly a (snd (setTimeout cb ms a)).
Proof.
  intros H. unfold armsOnly. simpl. split; [reflexivity|]. split; [lia|].
  exists [mkTimer (nextTimer a) ms cb]. split; [reflexivity|]. split.
  - constructor; [|constructor]. simpl. split; [|lia].
    unfold isRefresh. simpl. destruct cb; congruence.
  - simpl. constructor; [intros []|constructor].
Qed.

Lemma buildItems_timers (h : Host) (f : TFile) (content : str) (a : App) :
  sameTimers a (buildItems h f content a).
Proof. unfold sameTimers, buildItems. simpl. auto. Qed.

Lemma refreshFromEditor_timers (h : Host) (a : App) :
  sameTimers a (refreshFromEditor h a).
Proof.
  unfold refreshFromEditor.
  destruct (getActiveView a) as [mv|]; [|apply sameTimers_refl].
  destruct (mvFile mv); [apply buildItems_timers | apply sameTimers_refl].
Qed.

Lemma refreshForFile_timers (h : Host) (file : option TFile) (a : App) :
  sameTimers a (refreshForFile h file a).
Proof.
  unfold refreshForFile.
  destruct file as [f|]; [destruct (str_eqb _ _)|];
    try apply buildItems_timers; unfold sameTimers; simpl; auto.
Qed.

Lemma refreshCurrentFile_timers (h : Host) (a : App) :
  sameTimers a (refreshCurrentFile h a).
Proof.
  unfold refreshCurrentFile.
  destruct (currentFilePath a) as [p|]; [|apply sameTimers_refl].
  destruct (negb _); [apply sameTimers_refl|].
  destruct (getAbstractFileByPath (vault a) p) as [[f|q]|];
    try apply buildItems_timers; unfold sameTimers; simpl; auto.
Qed.

Lemma refresh_timers (h : Host) (a : App) : sameTimers a (refresh h a).
Proof.
  unfold refresh.
  destruct (getActiveView a) as [mv|]; [|apply refreshCurrentFile_timers].
  destruct (mvFile mv);
    [apply buildItems_timers | apply refreshCurrentFile_timers].
Qed.

Lemma rewrite_timers (h : Host) (activeFile : TFile)
      (target replacement : str) (a : App) :
  sameTimers a (fst (rewrite h activeFile target replacement a)).
Proof.
  unfold rewrite.
  destruct (findEditorForFile a activeFile) as [i|];
    [|apply sameTimers_refl].
  destruct (str_eqb _ _); [apply sameTimers_refl|].
  destruct (setValueFault h); [apply sameTimers_refl|].
  unfold sameTimers. simpl. auto.
Qed.

Lemma saveDownload_timers (h : Host) (activeFile : TFile) (fileName : str)
      (a : App) :
  sameTimers a (fst (saveDownload h activeFile fileName a)).
Proof.
  destruct (saveDownload_frame h activeFile fileName a) as [v ->].
  unfold sameTimers. simpl. auto.
Qed.

Lemma floating_timers (st : Records.Settled) (a : App) :
  sameTimers a (floating st a).
Proof. destruct st; unfold sameTimers; simpl; auto. Qed.

Lemma recordDownload_timers (h : Host) (r : Records.DownloadRecord)
      (a : App) :
  sameTimers a (recordDownload h r a).
Proof.
  unfold recordDownload.
  destruct (Records.addDownload _ _ _ _ _ _ _) as [[c d] st].
  eapply sameTimers_trans; [|apply floating_timers].
  unfold sameTimers. simpl. auto.
Qed.

Lemma recordUpload_timers (h : Host) (r : Records.UploadRecord) (a : App) :
  sameTimers a (recordUpload h r a).
Proof.
  unfold recordUpload.
  destruct (Records.addUpload _ _ _ _ _ _ _) as [[c d] st].
  eapply sameTimers_trans; [|apply floating_timers].
  unfold sameTimers. simpl. auto.
Qed.

Lemma handler_timers (r : App * Outcome) : sameTimers (fst r) (handler r).
Proof. destruct r as [a [|msg]]; unfold sameTimers; simpl; auto. Qed.

Lemma failDownload_timers (item : nat) (msg : str) (a : App) :
  sameTimers a (failDownload item msg a).
Proof. unfold sameTimers. simpl. auto. Qed.

Lemma doUpload_finish_arms (h : Host) (item : nat) (activeFile : TFile)
      (result : UploadResult) (a : App) :
  armsOnly a (fst (doUpload_finish h item activeFile result a)).
Proof.
  unfold doUpload_finish. destruct result as [publicUrl|err].
  2:{ apply sameTimers_arms. unfold sameTimers. simpl. auto. }
  cbv zeta.
  assert (S1 : sameTimers
                 a (set_localHeap (assign item (setStatus done) (localHeap a))
                                  a))
    by (unfold sameTimers; simpl; auto).
  destruct (nth_error _ item) as [it|]; [|apply sameTimers_arms, S1].
  match goal with
  | |- context [rewrite h activeFile ?t ?r ?b] =>
      pose proof (rewrite_timers h activeFile t r b) as S2;
      destruct (rewrite h activeFile t r b) as [a2 [|msg]]
  end; simpl in S2;
    [|apply sameTimers_arms; exact (sameTimers_trans S1 S2)].
  assert (S12 : sameTimers a a2) by exact (sameTimers_trans S1 S2).
  destruct (file it) as [f|]; [|apply sameTimers_arms, S12].
  destruct (if truthy (customDomain (settings a2)) then _ else _)
    as [customUrl|]; [|apply sameTimers_arms, S12].
  cbn [fst].
  eapply armsOnly_trans; [apply sameTimers_arms, S12|].
  eapply armsOnly_trans;
    [apply sameTimers_arms, recordUpload_timers|].
  apply setTimeout_arms. discriminate.
Qed.

Lemma doUpload_arms (h : Host) (item : nat) (activeFile : TFile)
      (baseUrl : str) (a : App) :
  armsOnly a (fst (doUpload h item activeFile baseUrl a)).
Proof.
  unfold doUpload. cbv zeta.
  eapply armsOnly_trans; [|apply doUpload_finish_arms].
  apply sameTimers_arms. unfold sameTimers. simpl. auto.
Qed.

Lemma doDownload_finish_arms (h : Host) (item : nat) (activeFile : TFile)
      (net : Net.NetResult) (a : App) :
  armsOnly a (doDownload_finish h item activeFile net a).
Proof.
  unfold doDownload_finish.
  destruct (nth_error (remoteHeap a) item) as [it|]; [|apply armsOnly_refl].
  destruct net as [msg|response];
    [apply sameTimers_arms, failDownload_timers|].
  destruct (_ || _); [apply sameTimers_arms, failDownload_timers|].
  pose proof (saveDownload_timers h activeFile (rFileName it) a) as S2.
  destruct (saveDownload h activeFile (rFileName it) a) as [a2 [msg|saved]];
    simpl in S2.
  { apply sameTimers_arms. eapply sameTimers_trans; [exact S2|].
    apply failDownload_timers. }
  pose proof (rewrite_timers h activeFile (rFullMatch it)
                             (u "![[" ++ name saved ++ u "]]") a2) as S3.
  destruct (rewrite h activeFile (rFullMatch it) _ a2) as [a3 [|msg]];
    simpl in S3.
  2:{ apply sameTimers_arms. eapply sameTimers_trans; [exact S2|].
      eapply sameTimers_trans; [exact S3 | apply failDownload_timers]. }
  cbv zeta.
  eapply armsOnly_trans;
    [apply sameTimers_arms; eapply sameTimers_trans; [exact S2 | exact S3]|].
  eapply armsOnly_trans; [|apply setTimeout_arms; discriminate].
  apply sameTimers_arms.
  eapply sameTimers_trans; [|apply recordDownload_timers].
  unfold sameTimers. simpl. auto.
Qed.

Lemma doDownload_arms (h : Host) (item : nat) (activeFile : TFile) (a : App) :
  armsOnly a (doDownload h item activeFile a).
Proof.
  unfold doDownload. cbv zeta.
  assert (S1 : sameTimers a (doDownload_start item a))
    by (unfold sameTimers; simpl; auto).
  destruct (nth_error _ item) as [it|]; [|apply sameTimers_arms, S1].
  eapply armsOnly_trans;
    [apply sameTimers_arms, S1 | apply doDownload_finish_arms].
Qed.

Lemma forEach_arms (step : nat -> App -> App * Outcome) (l : list nat)
      (a : App) :
  (forall item b, armsOnly b (fst (step item b))) ->
  armsOnly a (fst (forEach step l a)).
Proof.
  intros H. revert a; induction l as [|item rest IH]; intros a.
  - apply armsOnly_refl.
  - cbn [forEach]. pose proof (H item a) as S1.
    destruct (step item a) as [a1 [|msg]]; simpl in S1; [|exact S1].
    eapply armsOnly_trans; [exact S1 | apply IH].
Qed.

Lemma filter_none (A : Type) (p : A -> bool) (l : list A) :
  (forall x, In x l -> p x = false) -> filter p l = [].
Proof.
  induction l as [|x l IH]; intros H; simpl; [reflexivity|].
  rewrite (H x (or_introl eq_refl)). apply IH.
  intros y Hy. apply H. right. exact Hy.
Qed.

Lemma debounced_arms (a a' : App) :
  armsOnly a a' -> debounced a -> debounced a'.
Proof.
  intros (A1 & A2 & new & A3 & A4 & A5) (D1 & D2 & D3 & D4).
  rewrite Forall_forall in A4.
  assert (R : refreshTimers a' = refreshTimers a).
  { unfold refreshTimers. rewrite A3, filter_app.
    replace (filter isRefresh new) with (@nil Timer);
      [apply app_nil_r|].
    symmetry. apply filter_none. intros t Ht. apply (A4 t Ht). }
  unfold debounced. rewrite R, A1, A3.
  split; [exact D1|]. split; [lia|]. split.
  - intros t Ht. apply in_app_or in Ht. destruct Ht as [Ht|Ht].
    + specialize (D3 t Ht). lia.
    + destruct (A4 t Ht) as [_ Rg]. lia.
  - rewrite map_app. apply NoDup_app; auto.
    intros x H1 H2. apply in_map_iff in H1, H2.
    destruct H1 as (t1 & <- & H1), H2 as (t2 & E & H2).
    specialize (D3 t1 H1). destruct (A4 t2 H2) as [_ R2]. lia.
Qed.

Lemma NoDup_map_filter (A K : Type) (key : A -> K) (keep : A -> bool)
      (xs : list A) :
  NoDup (map key xs) -> NoDup (map key (filter keep xs)).
Proof.
  intros H. induction xs as [|x xs IH]; simpl in *; [constructor|].
  inversion H as [|y ys Hx Hl]; subst.
  destruct (keep x); simpl; [|auto].
  constructor; [|auto].
  intros C. apply Hx. apply in_map_iff in C. destruct C as (z & E & Hz).
  apply filter_In in Hz. apply in_map_iff. exists z. tauto.
Qed.

Lemma debounced_clearTimeout (id : N) (a : App) :
  debounced a -> debounced (clearTimeout id a).
Proof.
  intros (D1 & D2 & D3 & D4). unfold debounced, refreshTimers, clearTimeout.
  simpl. split; [|split; [exact D2|split]].
  - intros t Ht. apply D1. unfold refreshTimers.
    apply filter_In in Ht. destruct Ht as [Ht R].
    apply filter_In in Ht. apply filter_In. tauto.
  - intros t Ht. apply filter_In in Ht. apply D3. tauto.
  - apply NoDup_map_filter. exact D4.
Qed.

Lemma runCallback_timers (h : Host) (cb : Callback) (a : App) :
  sameTimers a (runCallback h cb a).
Proof.
  destruct cb as [|item activeFile|item activeFile]; simpl.
  - apply refreshFromEditor_timers.
  - destruct (negb _); unfold sameTimers; simpl; auto.
  - destruct (negb _); unfold sameTimers; simpl; auto.
Qed.

Lemma debounced_fire (h : Host) (id : N) (a : App) :
  debounced a -> debounced (fire h id a).
Proof.
  intros D. unfold fire.
  destruct (find _ (timers a)) as [t|]; [|exact D].
  eapply debounced_arms;
    [apply sameTimers_arms, runCallback_timers|].
  apply debounced_clearTimeout. exact D.
Qed.

Lemma debounced_onEditorChange (a : App) :
  debounced a -> debounced (onEditorChange a).
Proof.
  intros D. unfold onEditorChange.
  destruct (transferring a); [exact D|].
  set (a1 := match refreshTimer a with
             | Some id => if N.eqb id 0 then a else clearTimeout id a
             | None => a
             end).
  assert (D' : debounced a1).
  { unfold a1. destruct (refreshTimer a) as [id|]; [|exact D].
    destruct (N.eqb id 0); [exact D | apply debounced_clearTimeout, D]. }
  assert (NR : forall t, In t (timers a1) -> isRefresh t = false).
  { intros t Ht. destruct (isRefresh t) eqn:R; [exfalso | reflexivity].
    destruct D as (D1 & D2 & D3 & D4). unfold a1 in Ht.
    destruct (refreshTimer a) as [id|] eqn:RT.
    - destruct (N.eqb_spec id 0) as [->|Hne].
      + assert (Hr : In t (refreshTimers a))
          by (apply filter_In; auto).
        destruct (D1 t Hr) as [E _]. specialize (D3 t Ht).
        injection E as E. lia.
      + simpl in Ht. apply filter_In in Ht. destruct Ht as [Ht Q].
        assert (Hr : In t (refreshTimers a))
          by (apply filter_In; auto).
        destruct (D1 t Hr) as [E _]. injection E as E. subst id.
        rewrite N.eqb_refl in Q. discriminate.
    - assert (Hr : In t (refreshTimers a))
        by (apply filter_In; auto).
      destruct (D1 t Hr) as [E _]. discriminate. }
  destruct D' as (D1 & D2 & D3 & D4).
  unfold debounced, refreshTimers. simpl. rewrite filter_app.
  rewrite (filter_none isRefresh (timers a1) NR). simpl.
  split; [|split; [lia|split]].
  - intros t [<-|[]]. simpl. auto.
  - intros t Ht. apply in_app_or in Ht. destruct Ht as [Ht|[<-|[]]].
    + specialize (D3 t Ht). lia.
    + simpl. lia.
  - rewrite map_app. simpl. apply NoDup_app; auto.
    + constructor; [intros []|constructor].
    + intros x H1 [<-|[]]. apply in_map_iff in H1.
      destruct H1 as (t & E & Ht). specialize (D3 t Ht). lia.
Qed.

Lemma debounced_handle (h : Host) (ev : Event) (a : App) :
  debounced a -> debounced (handle h a ev).
Proof.
  intros D. destruct ev as
    [ofile| | |item activeFile|activeFile|item activeFile|activeFile|item|item activeFile result|item|item activeFile net|id|lv act|v|s];
    simpl.
  - eapply debounced_arms; [apply sameTimers_arms, refreshForFile_timers|].
    exact D.
  - apply debounced_onEditorChange, D.
  - eapply debounced_arms; [apply sameTimers_arms, refresh_timers | exact D].
  - unfold uploadItem.
    destruct (nth_error (localHeap a) item) as [it|]; [|exact D].
    destruct (file it); [|exact D].
    destruct (usable _) as [baseUrl|].
    + eapply debounced_arms; [|exact D].
      eapply armsOnly_trans;
        [apply doUpload_arms | apply sameTimers_arms, handler_timers].
    + eapply debounced_arms; [|exact D].
      apply sameTimers_arms. unfold sameTimers. simpl. auto.
  - unfold uploadAll. destruct (usable _) as [baseUrl|].
    + eapply debounced_arms; [|exact D].
      eapply armsOnly_trans;
        [|apply sameTimers_arms, handler_timers].
      apply forEach_arms. intros item b. apply doUpload_arms.
    + eapply debounced_arms; [|exact D].
      apply sameTimers_arms. unfold sameTimers. simpl. auto.
  - eapply debounced_arms; [apply doDownload_arms | exact D].
  - eapply debounced_arms; [|exact D]. unfold downloadAll.
    apply forEach_arms. intros item b. apply doDownload_arms.
  - eapply debounced_arms; [|exact D].
    apply sameTimers_arms. unfold sameTimers. simpl. auto.
  - eapply debounced_arms; [|exact D].
    eapply armsOnly_trans;
      [apply doUpload_finish_arms | apply sameTimers_arms, handler_timers].
  - eapply debounced_arms; [|exact D].
    apply sameTimers_arms. unfold sameTimers. simpl. auto.
  - eapply debounced_arms; [apply doDownload_finish_arms | exact D].
  - apply debounced_fire, D.
  - eapply debounced_arms; [|exact D].
    apply sameTimers_arms. unfold sameTimers. simpl. auto.
  - eapply debounced_arms; [|exact D].
    apply sameTimers_arms. unfold sameTimers. simpl. auto.
  - eapply debounced_arms; [|exact D].
    apply sameTimers_arms. unfold sameTimers. simpl. auto.
Qed.

Lemma debounced_run (h : Host) (evs : list Event) (a : App) :
  debounced a -> debounced (fold_left (handle h) evs a).
Proof.
  revert a; induction evs as [|ev evs IH]; intros a D; simpl; [exact D|].
  apply IH, debounced_handle, D.
Qed.

Lemma debounced_one (a : App) :
  debounced a -> length (refreshTimers a) <= 1.
Proof.
  intros (D1 & _ & _ & D4).
  pose proof (NoDup_map_filter timerId isRefresh (timers a) D4) as N.
  fold (refreshTimers a) in N.
  destruct (refreshTimers a) as [|t1 [|t2 rest]]; simpl; try lia.
  exfalso.
  destruct (D1 t1 (or_introl eq_refl)) as [E1 _].
  destruct (D1 t2 (or_intror (or_introl eq_refl))) as [E2 _].
  simpl in N. inversion N as [|x xs Hx Hxs]; subst.
  apply Hx. left. congruence.
Qed.

(** X19.  The debounce holds over any run of the view.  After [onOpen]
    and any sequence of events: notifications, button clicks, the two parts
    of transfers with any answer of the network, timeouts firing, and
    changes of the workspace, the vault and the settings: at most one
    rebuild from the editor is pending; it is the timeout [refreshTimer]
    names and it waits 800 ms; and timer ids are positive, distinct and
    below the next id. *)
Theorem at_most_one_rebuild_is_pending (h : Host) (s : ImagesR2Settings)
        (l : list MarkdownView) (act : option nat) (v : list Entry)
        (d : Records.Disk) (evs : list Event) :
  debounced (after h s l act v d evs)
  /\ length (refreshTimers (after h s l act v d evs)) <= 1.
Proof.
  assert (D : debounced (after h s l act v d evs)).
  { unfold after. apply debounced_run.
    eapply debounced_arms; [apply sameTimers_arms, refresh_timers|].
    unfold debounced, refreshTimers. simpl.
    split; [intros t []|]. split; [lia|]. split; [intros t []|constructor]. }
  split; [exact D | apply debounced_one, D].
Qed.

Example two_changes_one_pending_rebuild :
  refreshTimers
    (after Scenario.offline Scenario.configured
           [mkMarkdownView (Some Scenario.note) Scenario.photoLink] (Some 0)
           [] None [EditorChange; EditorChange])
  = [mkTimer 2 800 RefreshFromEditor].
Proof. reflexivity. Qed.

(** ** The tracked items over any run of events *)

Lemma withStatus_same (x : ImageItem) : withStatus (status x) (error x) x = x.
Proof. destruct x; reflexivity. Qed.

Lemma rWithStatus_same (x : RemoteImageItem) :
  rWithStatus (rStatus x) (rError x) x = x.
Proof. destruct x; reflexivity. Qed.

Lemma statusOnly_refl (a : App) : statusOnly a a.
Proof.
  unfold statusOnly. repeat split; auto; intros r.
  - destruct (nth_error (localHeap a) r) as [x|]; [|reflexivity].
    exists (status x), (error x). rewrite withStatus_same. reflexivity.
  - destruct (nth_error (remoteHeap a) r) as [x|]; [|reflexivity].
    exists (rStatus x), (rError x). rewrite rWithStatus_same. reflexivity.
Qed.

Lemma statusOnly_trans (a b c : App) :
  statusOnly a b -> statusOnly b c -> statusOnly a c.
Proof.
  intros (A1 & A2 & A3 & A4) (B1 & B2 & B3 & B4).
  unfold statusOnly. split; [congruence|]. split; [congruence|].
  split; intros r.
  - specialize (A3 r). specialize (B3 r).
    destruct (nth_error (localHeap a) r) as [x|].
    + destruct A3 as (st & e & A3). rewrite A3 in B3.
      destruct B3 as (st' & e' & B3). exists st', e'.
      rewrite B3, withStatus_twice. reflexivity.
    + rewrite A3 in B3. exact B3.
  - specialize (A4 r). specialize (B4 r).
    destruct (nth_error (remoteHeap a) r) as [x|].
    + destruct A4 as (st & e & A4). rewrite A4 in B4.
      destruct B4 as (st' & e' & B4). exists st', e'.
      rewrite B4, rWithStatus_twice. reflexivity.
    + rewrite A4 in B4. exact B4.
Qed.

Lemma sameItems_status (a a' : App) : sameItems a a' -> statusOnly a a'.
Proof.
  intros (B1 & B2 & B3 & B4 & _).
  destruct (statusOnly_refl a) as (_ & _ & R3 & R4).
  unfold statusOnly. rewrite B1, B2, B3, B4. auto.
Qed.

Lemma assign_local_status (item : nat) (f : ImageItem -> ImageItem)
      (a : App) :
  (forall x, exists st e, f x = withStatus st e x) ->
  statusOnly a (set_localHeap (assign item f (localHeap a)) a).
Proof.
  intros Hf. destruct (statusOnly_refl a) as (_ & _ & R3 & R4).
  unfold statusOnly. simpl. split; [reflexivity|]. split; [reflexivity|].
  split; [|exact R4]. intros r.
  destruct (Nat.eq_dec item r) as [->|Hne].
  - rewrite nth_error_assign.
    destruct (nth_error (localHeap a) r) as [x|]; [|reflexivity].
    simpl. destruct (Hf x) as (st & e & ->). eauto.
  - rewrite nth_error_assign_other by exact Hne. apply R3.
Qed.

Lemma assign_remote_status (item : nat)
      (f : RemoteImageItem -> RemoteImageItem) (a : App) :
  (forall x, exists st e, f x = rWithStatus st e x) ->
  statusOnly a (set_remoteHeap (assign item f (remoteHeap a)) a).
Proof.
  intros Hf. destruct (statusOnly_refl a) as (_ & _ & R3 & R4).
  unfold statusOnly. simpl. split; [reflexivity|]. split; [reflexivity|].
  split; [exact R3|]. intros r.
  destruct (Nat.eq_dec item r) as [->|Hne].
  - rewrite nth_error_assign.
    destruct (nth_error (remoteHeap a) r) as [x|]; [|reflexivity].
    simpl. destruct (Hf x) as (st & e & ->). eauto.
  - rewrite nth_error_assign_other by exact Hne. apply R4.
Qed.

Lemma doUpload_finish_status (h : Host) (item : nat) (activeFile : TFile)
      (result : UploadResult) (a : App) :
  statusOnly a (fst (doUpload_finish h item activeFile result a)).
Proof.
  unfold doUpload_finish. destruct result as [publicUrl|err].
  2:{ apply assign_local_status. intros x. eauto. }
  cbv zeta.
  assert (S1 : statusOnly
                 a (set_localHeap (assign item (setStatus done) (localHeap a))
                                  a)).
  { apply assign_local_status. intros x. unfold setStatus. eauto. }
  destruct (nth_error _ item) as [it|]; [|exact S1].
  match goal with
  | |- context [rewrite h activeFile ?t ?r ?b] =>
      pose proof (rewrite_same h activeFile t r b) as S2;
      destruct (rewrite h activeFile t r b) as [a2 [|msg]]
  end; simpl in S2;
    [|exact (statusOnly_trans S1 (sameItems_status S2))].
  assert (S12 : statusOnly
                  a a2) by exact (statusOnly_trans S1 (sameItems_status S2)).
  destruct (file it) as [f|]; [|exact S12].
  destruct (if truthy (customDomain (settings a2)) then _ else _)
    as [customUrl|]; [|exact S12].
  cbn [fst]. eapply statusOnly_trans; [exact S12|].
  apply sameItems_status.
  eapply sameItems_trans; [apply recordUpload_same | apply setTimeout_same].
Qed.

Lemma doUpload_status (h : Host) (item : nat) (activeFile : TFile)
      (baseUrl : str) (a : App) :
  statusOnly a (fst (doUpload h item activeFile baseUrl a)).
Proof.
  unfold doUpload. cbv zeta.
  eapply statusOnly_trans; [|apply doUpload_finish_status].
  apply assign_local_status. intros x. eauto.
Qed.

Lemma doDownload_finish_status (h : Host) (item : nat) (activeFile : TFile)
      (net : Net.NetResult) (a : App) :
  statusOnly a (doDownload_finish h item activeFile net a).
Proof.
  unfold doDownload_finish.
  destruct (nth_error (remoteHeap a) item) as [it|];
    [|apply statusOnly_refl].
  assert (F : forall msg b,
             sameItems a b -> statusOnly a (failDownload item msg b)).
  { intros msg b S. eapply statusOnly_trans; [apply sameItems_status, S|].
    apply assign_remote_status. intros x. eauto. }
  destruct net as [msg|response]; [apply F, sameItems_refl|].
  destruct (_ || _); [apply F, sameItems_refl|].
  pose proof (saveDownload_same h activeFile (rFileName it) a) as S2.
  destruct (saveDownload h activeFile (rFileName it) a) as [a2 [msg|saved]];
    simpl in S2; [apply F, S2|].
  pose proof (rewrite_same h activeFile (rFullMatch it)
                           (u "![[" ++ name saved ++ u "]]") a2) as S3.
  destruct (rewrite h activeFile (rFullMatch it) _ a2) as [a3 [|msg]];
    simpl in S3; [|apply F; exact (sameItems_trans S2 S3)].
  cbv zeta.
  eapply statusOnly_trans;
    [apply sameItems_status; exact (sameItems_trans S2 S3)|].
  apply (@statusOnly_trans
           a3
           (set_remoteHeap (assign item (rSetStatus done) (remoteHeap a3)) a3)).
  - apply assign_remote_status. intros x. unfold rSetStatus. eauto.
  - apply sameItems_status.
    eapply sameItems_trans;
      [apply recordDownload_same | apply setTimeout_same].
Qed.

Lemma doDownload_status (h : Host) (item : nat) (activeFile : TFile)
      (a : App) :
  statusOnly a (doDownload h item activeFile a).
Proof.
  unfold doDownload. cbv zeta.
  assert (S1 : statusOnly a (doDownload_start item a))
    by (apply assign_remote_status; intros x; eauto).
  destruct (nth_error _ item) as [it|]; [|exact S1].
  eapply statusOnly_trans; [exact S1 | apply doDownload_finish_status].
Qed.

Lemma forEach_status (step : nat -> App -> App * Outcome) (l : list nat)
      (a : App) :
  (forall item b, statusOnly b (fst (step item b))) ->
  statusOnly a (fst (forEach step l a)).
Proof.
  intros H. revert a; induction l as [|item rest IH]; intros a.
  - apply statusOnly_refl.
  - cbn [forEach]. pose proof (H item a) as S1.
    destruct (step item a) as [a1 [|msg]]; simpl in S1; [|exact S1].
    eapply statusOnly_trans; [exact S1 | apply IH].
Qed.

Lemma localItemOk_withStatus (st : ItemStatus) (e : option str)
      (x : ImageItem) :
  localItemOk x -> localItemOk (withStatus st e x).
Proof. destruct x; exact (fun H => H). Qed.

Lemma remoteItemOk_rWithStatus (st : ItemStatus) (e : option str)
      (x : RemoteImageItem) :
  remoteItemOk x -> remoteItemOk (rWithStatus st e x).
Proof. destruct x; exact (fun H => H). Qed.

Lemma objs_cons (A : Type) (heap : list A) (r : nat) (refs : list nat) :
  objs heap (r :: refs)
  = match nth_error heap r with
    | Some x => [x]
    | None => []
    end ++ objs heap refs.
Proof. reflexivity. Qed.

Lemma objs_status (A : Type) (upd : A -> A -> Prop) (heap heap' : list A)
      (refs : list nat) :
  (forall r, match nth_error heap r with
             | Some x => exists x', nth_error heap' r = Some x' /\ upd x x'
             | None => nth_error heap' r = None
             end) ->
  Forall2 upd (objs heap refs) (objs heap' refs).
Proof.
  intros H. induction refs as [|r refs IH]; [constructor|].
  rewrite !objs_cons. specialize (H r).
  destruct (nth_error heap r) as [x|].
  - destruct H as (x' & -> & U). simpl. constructor; auto.
  - rewrite H. exact IH.
Qed.

Lemma Forall2_keys (A K : Type) (upd : A -> A -> Prop) (key : A -> K)
      (l l' : list A) :
  (forall x x', upd x x' -> key x' = key x) ->
  Forall2 upd l l' -> map key l' = map key l.
Proof.
  intros H F. induction F as [|x x' l l' U F IH]; simpl; [reflexivity|].
  rewrite (H x x' U), IH. reflexivity.
Qed.

Lemma Forall2_keeps (A : Type) (upd : A -> A -> Prop) (P : A -> Prop)
      (l l' : list A) :
  (forall x x', upd x x' -> P x -> P x') ->
  Forall2 upd l l' -> Forall P l -> Forall P l'.
Proof.
  intros H F. induction F as [|x x' l l' U F IH]; intros Q; [constructor|].
  inversion Q; subst. constructor; eauto.
Qed.

Lemma wellTracked_status (a a' : App) :
  statusOnly a a' -> wellTracked a -> wellTracked a'.
Proof.
  intros (A1 & A2 & A3 & A4) (W1 & W2 & W3 & W4).
  assert (L : Forall2 (fun x x' => exists st e, x' = withStatus st e x)
                      (tracked a) (tracked a')).
  { unfold tracked. rewrite A1. apply objs_status. intros r.
    specialize (A3 r). destruct (nth_error (localHeap a) r) as [x|]; [|auto].
    destruct A3 as (st & e & ->). eauto. }
  assert (R : Forall2 (fun x x' => exists st e, x' = rWithStatus st e x)
                      (trackedRemote a) (trackedRemote a')).
  { unfold trackedRemote. rewrite A2. apply objs_status. intros r.
    specialize (A4 r). destruct (nth_error (remoteHeap a) r) as [x|]; [|auto].
    destruct A4 as (st & e & ->). eauto. }
  unfold wellTracked. split; [|split; [|split]].
  - eapply Forall2_keeps; [|exact L|exact W1].
    intros x x' (st & e & ->). apply localItemOk_withStatus.
  - eapply Forall2_keeps; [|exact R|exact W2].
    intros x x' (st & e & ->). apply remoteItemOk_rWithStatus.
  - rewrite (@Forall2_keys _ _ _ fullMatch _ _
               (fun x x' (U : exists st e, x' = withStatus st e x) =>
                  match U with
                  | ex_intro _ st (ex_intro _ e E) =>
                      eq_trans (f_equal fullMatch E)
                               (match x with
                                | mkImageItem _ _ _ _ _ _ _ => eq_refl
                                end)
                  end) L).
    exact W3.
  - rewrite (@Forall2_keys _ _ _ rFullMatch _ _
               (fun x x' (U : exists st e, x' = rWithStatus st e x) =>
                  match U with
                  | ex_intro _ st (ex_intro _ e E) =>
                      eq_trans (f_equal rFullMatch E)
                               (match x with
                                | mkRemoteImageItem _ _ _ _ _ _ _ _ => eq_refl
                                end)
                  end) R).
    exact W4.
Qed.

Lemma statusOnly_of_eq (a a' : App) :
  localHeap a' = localHeap a -> remoteHeap a' = remoteHeap a ->
  items a' = items a -> remoteItems a' = remoteItems a ->
  statusOnly a a'.
Proof.
  intros B1 B2 B3 B4.
  destruct (statusOnly_refl a) as (_ & _ & R3 & R4).
  unfold statusOnly. rewrite B1, B2, B3, B4. auto.
Qed.

Lemma wellTracked_buildItems (h : Host) (f : TFile) (content : str)
      (a : App) :
  wellTracked a -> wellTracked (buildItems h f content a).
Proof.
  intros (W1 & W2 & _).
  destruct (@rebuilt_items_ok h f content a (or_intror (conj W1 W2)))
    as [O1 O2].
  destruct (buildItems_NoDup h f content a) as [N1 N2].
  unfold wellTracked. auto.
Qed.

Lemma wellTracked_cleared (a : App) :
  wellTracked (set_remoteItems [] (set_items [] (set_currentFilePath None a))).
Proof. unfold wellTracked. simpl. repeat split; constructor. Qed.

Lemma objs_filter_In (A : Type) (heap : list A) (p : nat -> bool)
      (refs : list nat) (x : A) :
  In x (objs heap (filter p refs)) -> In x (objs heap refs).
Proof.
  induction refs as [|r refs IH]; simpl; [auto|].
  destruct (p r).
  - rewrite objs_cons. intros H. apply in_app_or in H. apply in_or_app.
    destruct H; [left | right]; auto.
  - intros H. apply in_or_app. right. auto.
Qed.

Lemma objs_filter_Forall (A : Type) (P : A -> Prop) (heap : list A)
      (p : nat -> bool) (refs : list nat) :
  Forall P (objs heap refs) -> Forall P (objs heap (filter p refs)).
Proof.
  rewrite !Forall_forall. intros H x Hx. apply H.
  eapply objs_filter_In. exact Hx.
Qed.

Lemma objs_filter_NoDup (A K : Type) (key : A -> K) (heap : list A)
      (p : nat -> bool) (refs : list nat) :
  NoDup (map key (objs heap refs)) ->
  NoDup (map key (objs heap (filter p refs))).
Proof.
  induction refs as [|r refs IH]; simpl; [auto|].
  fold (objs heap refs). intros H.
  destruct (nth_error heap r) as [x|] eqn:E; simpl in H.
  - inversion H as [|k ks Hk Hks]; subst.
    destruct (p r); [|auto].
    rewrite objs_cons, E. simpl. constructor; [|auto].
    intros C. apply Hk. apply in_map_iff in C.
    destruct C as (y & Ey & Hy). apply in_map_iff. exists y.
    split; [exact Ey|]. eapply objs_filter_In. exact Hy.
  - destruct (p r); [|auto].
    rewrite objs_cons, E. simpl. auto.
Qed.

Lemma wellTracked_runCallback (h : Host) (cb : Callback) (a : App) :
  wellTracked a -> wellTracked (runCallback h cb a).
Proof.
  intros W. destruct cb as [|item activeFile|item activeFile]; simpl.
  - unfold refreshFromEditor.
    destruct (getActiveView a) as [mv|]; [|exact W].
    destruct (mvFile mv); [apply wellTracked_buildItems, W | exact W].
  - destruct (negb _); [exact W|].
    destruct W as (W1 & W2 & W3 & W4). unfold wellTracked, tracked. simpl.
    split; [apply objs_filter_Forall, W1|]. split; [exact W2|].
    split; [apply objs_filter_NoDup, W3 | exact W4].
  - destruct (negb _); [exact W|].
    destruct W as (W1 & W2 & W3 & W4).
    unfold wellTracked, trackedRemote. simpl.
    split; [exact W1|]. split; [apply objs_filter_Forall, W2|].
    split; [exact W3 | apply objs_filter_NoDup, W4].
Qed.

Lemma wellTracked_refreshCurrentFile (h : Host) (a : App) :
  wellTracked a -> wellTracked (refreshCurrentFile h a).
Proof.
  intros W. unfold refreshCurrentFile.
  destruct (currentFilePath a) as [p|]; [|exact W].
  destruct (negb _); [exact W|].
  destruct (getAbstractFileByPath (vault a) p) as [[f|q]|];
    [apply wellTracked_buildItems, W | exact W | exact W].
Qed.

Lemma wellTracked_handle (h : Host) (ev : Event) (a : App) :
  wellTracked a -> wellTracked (handle h a ev).
Proof.
  intros W. destruct ev as
    [ofile| | |item activeFile|activeFile|item activeFile|activeFile|item|item activeFile result|item|item activeFile net|id|lv act|v|s];
    simpl.
  - unfold refreshForFile.
    destruct ofile as [f|]; [destruct (str_eqb _ _)|];
      [apply wellTracked_buildItems, W | apply wellTracked_cleared
       | apply wellTracked_cleared].
  - eapply wellTracked_status; [|exact W]. unfold onEditorChange.
    destruct (transferring a); [apply statusOnly_refl|].
    destruct (refreshTimer a) as [id|]; [destruct (N.eqb id 0)|];
      apply statusOnly_of_eq; reflexivity.
  - unfold refresh.
    destruct (getActiveView a) as [mv|];
      [|apply wellTracked_refreshCurrentFile, W].
    destruct (mvFile mv);
      [apply wellTracked_buildItems, W
      | apply wellTracked_refreshCurrentFile, W].
  - eapply wellTracked_status; [|exact W]. unfold uploadItem.
    destruct (nth_error (localHeap a) item) as [it|];
      [|apply statusOnly_refl].
    destruct (file it); [|apply statusOnly_refl].
    destruct (usable _) as [baseUrl|].
    + eapply statusOnly_trans; [apply doUpload_status|].
      apply sameItems_status, handler_same.
    + apply statusOnly_of_eq; reflexivity.
  - eapply wellTracked_status; [|exact W]. unfold uploadAll.
    destruct (usable _) as [baseUrl|].
    + eapply statusOnly_trans;
        [|apply sameItems_status, handler_same].
      apply forEach_status. intros item b. apply doUpload_status.
    + apply statusOnly_of_eq; reflexivity.
  - eapply wellTracked_status; [apply doDownload_status | exact W].
  - eapply wellTracked_status; [|exact W]. unfold downloadAll.
    apply forEach_status. intros item b. apply doDownload_status.
  - eapply wellTracked_status; [|exact W].
    apply assign_local_status. intros x. eauto.
  - eapply wellTracked_status; [|exact W].
    eapply statusOnly_trans;
      [apply doUpload_finish_status | apply sameItems_status, handler_same].
  - eapply wellTracked_status; [|exact W].
    apply assign_remote_status. intros x. eauto.
  - eapply wellTracked_status; [apply doDownload_finish_status | exact W].
  - unfold fire. destruct (find _ (timers a)) as [t|]; [|exact W].
    apply wellTracked_runCallback.
    eapply wellTracked_status; [|exact W].
    apply statusOnly_of_eq; reflexivity.
  - eapply wellTracked_status; [|exact W].
    apply statusOnly_of_eq; reflexivity.
  - eapply wellTracked_status; [|exact W].
    apply statusOnly_of_eq; reflexivity.
  - eapply wellTracked_status; [|exact W].
    apply statusOnly_of_eq; reflexivity.
Qed.

Lemma wellTracked_run (h : Host) (evs : list Event) (a : App) :
  wellTracked a -> wellTracked (fold_left (handle h) evs a).
Proof.
  revert a; induction evs as [|ev evs IH]; intros a W; simpl; [exact W|].
  apply IH, wellTracked_handle, W.
Qed.

(** X20.  Whatever happened since the view opened, the lists it shows are
    sound.  After [onOpen] and any sequence of events (notifications,
    clicks, transfers in parts with any answer of the network, timeouts,
    and changes of the workspace, the vault and the settings), every local
    item is a well-formed embed of an image name whose displayed name is
    that of the resolved file or else the path as written, every remote
    item is a well-formed image link to an http or https URL, and no two
    items of a list have the same raw text. *)
Theorem every_run_tracks_well_formed_distinct_items
        (h : Host) (s : ImagesR2Settings) (l : list MarkdownView)
        (act : option nat) (v : list Entry) (d : Records.Disk)
        (evs : list Event) :
  Forall localItemOk (tracked (after h s l act v d evs))
  /\ Forall remoteItemOk (trackedRemote (after h s l act v d evs))
  /\ NoDup (map fullMatch (tracked (after h s l act v d evs)))
  /\ NoDup (map rFullMatch (trackedRemote (after h s l act v d evs))).
Proof.
  unfold after. apply wellTracked_run.
  unfold refresh, refreshCurrentFile. simpl.
  assert (W0 : wellTracked (initial s l act v d))
    by (unfold wellTracked; simpl; repeat split; constructor).
  destruct (getActiveView (initial s l act v d)) as [mv|]; [|exact W0].
  destruct (mvFile mv); [apply wellTracked_buildItems, W0 | exact W0].
Qed.

(** ** A removal timeout that outlives a rebuild *)

Lemma filter_all (A : Type) (p : A -> bool) (l : list A) :
  (forall x, In x l -> p x = true) -> filter p l = l.
Proof.
  induction l as [|x l IH]; intros H; simpl; [reflexivity|].
  rewrite (H x (or_introl eq_refl)). f_equal. apply IH.
  intros y Hy. apply H. right. exact Hy.
Qed.

Lemma filter_fresh (item n len : nat) :
  item < n ->
  filter (fun r => negb (Nat.eqb r item)) (seq n len) = seq n len.
Proof.
  intros H. apply filter_all. intros r Hr. apply in_seq in Hr.
  apply negb_true_iff, Nat.eqb_neq. lia.
Qed.

Lemma removal_after_rebuild (h : Host) (f activeFile : TFile) (content : str)
      (a : App) (item : nat) :
  (item < length (localHeap a) ->
   items (runCallback h (RemoveUploaded item activeFile)
                      (buildItems h f content a))
   = items (buildItems h f content a)
   /\ tracked (runCallback h (RemoveUploaded item activeFile)
                           (buildItems h f content a))
      = tracked (buildItems h f content a))
  /\ (item < length (remoteHeap a) ->
      remoteItems (runCallback h (RemoveDownloaded item activeFile)
                               (buildItems h f content a))
      = remoteItems (buildItems h f content a)
      /\ trackedRemote (runCallback h (RemoveDownloaded item activeFile)
                                    (buildItems h f content a))
         = trackedRemote (buildItems h f content a)).
Proof.
  split; intros H; cbn [runCallback]; destruct (negb _); auto.
  - assert (E : items (notice
                         (u "Uploaded: "
                            ++ match nth_error
                                       (localHeap (buildItems h f content a))
                                       item with
                               | Some it => fileName it
                               | None => []
                               end)
                         (set_items
                            (filter (fun r => negb (Nat.eqb r item))
                                    (items (buildItems h f content a)))
                            (buildItems h f content a)))
                = items (buildItems h f content a)).
    { unfold buildItems. simpl. apply filter_fresh. exact H. }
    split; [exact E|]. unfold tracked. rewrite E. reflexivity.
  - assert (E : remoteItems
                  (notice
                     (u "Downloaded: "
                        ++ match nth_error
                                   (remoteHeap (buildItems h f content a))
                                   item with
                           | Some it => rFileName it
                           | None => []
                           end)
                     (set_remoteItems
                        (filter (fun r => negb (Nat.eqb r item))
                                (remoteItems (buildItems h f content a)))
                        (buildItems h f content a)))
                = remoteItems (buildItems h f content a)).
    { unfold buildItems. simpl. apply filter_fresh. exact H. }
    split; [exact E|]. unfold trackedRemote. rewrite E. reflexivity.
Qed.

(** X21.  A rebuild orphans the pending removals.  The timeout armed when
    a transfer ends removes its item from the list by the identity of the
    object, and [buildItems] puts new objects in the lists, also for the
    items it carries over.  So once the lists have been rebuilt, the
    timeout of an item that existed before removes nothing: the lists and
    what they show stay as the rebuild left them. *)
Theorem rebuild_orphans_pending_removal (h : Host) (f activeFile : TFile)
        (content : str) (a : App) (item ritem : nat) :
  item < length (localHeap a) ->
  ritem < length (remoteHeap a) ->
  tracked (runCallback h (RemoveUploaded item activeFile)
                       (buildItems h f content a))
  = tracked (buildItems h f content a)
  /\ trackedRemote (runCallback h (RemoveDownloaded ritem activeFile)
                                (buildItems h f content a))
     = trackedRemote (buildItems h f content a).
Proof.
  intros H1 H2.
  destruct (removal_after_rebuild h f activeFile content a item) as [L _].
  destruct (removal_after_rebuild h f activeFile content a ritem) as [_ R].
  split; [apply L, H1 | apply R, H2].
Qed.

Lemma rebuild_orphans_witness :
  let a := set_remoteHeap [Scenario.catItem done None]
             (Scenario.tracking Scenario.configured Scenario.photoLink []
                (Scenario.photoItem (Some Scenario.photo) done None)) in
  let b := buildItems Scenario.offline Scenario.note Scenario.photoLink a in
  0 < length (localHeap a)
  /\ 0 < length (remoteHeap a)
  /\ map status (tracked b) = [done]
  /\ tracked (runCallback Scenario.offline
                          (RemoveUploaded 0 Scenario.note) b)
     = tracked b.
Proof.
  intros a b.
  assert (H1 : 0 < length (localHeap a)) by (simpl; lia).
  assert (H2 : 0 < length (remoteHeap a)) by (simpl; lia).
  split; [exact H1|]. split; [exact H2|]. split; [reflexivity|].
  exact (proj1 (@rebuild_orphans_pending_removal
                  Scenario.offline Scenario.note Scenario.note
                  Scenario.photoLink a 0 0 H1 H2)).
Defined.

(** ** Folders *)
Import Folders.

Lemma getAbstractFileByPath_app (v w : list Entry) (p : str) :
  getAbstractFileByPath (v ++ w) p
  = match getAbstractFileByPath v p with
    | Some e => Some e
    | None => getAbstractFileByPath w p
    end.
Proof.
  unfold getAbstractFileByPath. induction v as [|e v IH]; simpl; [reflexivity|].
  destruct (str_eqb (entryPath e) p); [reflexivity | exact IH].
Qed.

Lemma ensureParts_appends (h : Host) (parts : list str) (current : str)
      (v : list Entry) :
  exists added,
    ensureParts h parts current v = v ++ added /\ Forall isFolder added.
Proof.
  revert current v; induction parts as [|part parts IH]; intros current v.
  - exists []. rewrite app_nil_r. split; [reflexivity | constructor].
  - cbn [ensureParts]. cbv zeta.
    set (c' := if truthy current then current ++ u "/" ++ part else part).
    destruct (getAbstractFileByPath v c') as [e|]; [apply IH|].
    destruct (createFolderFault h); [apply IH|].
    destruct (IH c' (v ++ [EFolder c'])) as (added & -> & F).
    exists (EFolder c' :: added). rewrite <- app_assoc.
    split; [reflexivity|]. constructor; [exists c'; reflexivity | exact F].
Qed.

Lemma ensureParts_visited (h : Host) (parts : list str) (current : str)
      (v : list Entry) (q : str) :
  createFolderFault h = None ->
  In q (visited parts current) ->
  getAbstractFileByPath (ensureParts h parts current v) q <> None.
Proof.
  intros NF. revert current v; induction parts as [|part parts IH];
    intros current v; [intros []|].
  cbn [ensureParts visited]. cbv zeta.
  set (c' := if truthy current then current ++ u "/" ++ part else part).
  intros [<-|Hq]; [|apply IH; exact Hq].
  match goal with
  | |- getAbstractFileByPath (ensureParts h parts c' ?v') c' <> None =>
      assert (E : getAbstractFileByPath v' c' <> None);
      [|destruct (ensureParts_appends h parts c' v') as (added & -> & _);
        rewrite getAbstractFileByPath_app;
        destruct (getAbstractFileByPath v' c'); [discriminate | congruence]]
  end.
  destruct (getAbstractFileByPath v c') as [e|] eqn:G; [congruence|].
  rewrite NF, getAbstractFileByPath_app, G.
  unfold getAbstractFileByPath. simpl. rewrite str_eqb_refl. discriminate.
Qed.

Lemma ensureParts_nothing_to_do (h : Host) (parts : list str) (current : str)
      (v : list Entry) :
  (forall q, In q (visited parts current) ->
             getAbstractFileByPath v q <> None) ->
  ensureParts h parts current v = v.
Proof.
  revert current v; induction parts as [|part parts IH]; intros current v H;
    [reflexivity|].
  cbn [ensureParts]. cbv zeta. cbn [visited] in H. cbv zeta in H.
  set (c' := if truthy current then current ++ u "/" ++ part else part) in *.
  destruct (getAbstractFileByPath v c') as [e|] eqn:G.
  - apply IH. intros q Hq. apply H. right. exact Hq.
  - exfalso. apply (H c'); [left; reflexivity | exact G].
Qed.

Lemma ensureParts_fault (h : Host) (parts : list str) (current : str)
      (v : list Entry) :
  createFolderFault h <> None -> ensureParts h parts current v = v.
Proof.
  intros F. revert current v; induction parts as [|part parts IH];
    intros current v; [reflexivity|].
  cbn [ensureParts]. cbv zeta.
  destruct (getAbstractFileByPath v _); [apply IH|].
  destruct (createFolderFault h); [apply IH | congruence].
Qed.

Lemma split_go_nonempty (sep s : str) (skip : nat) (cur : str) :
  split_go sep s skip cur <> [].
Proof.
  revert skip cur; induction s as [|c s IH]; intros skip cur; simpl;
    [discriminate|].
  destruct skip; [|apply IH].
  destruct (startsWith sep (c :: s)); [discriminate | apply IH].
Qed.

Lemma join_cons (sep p : str) (rest : list str) :
  rest <> [] -> join sep (p :: rest) = p ++ sep ++ join sep rest.
Proof. destruct rest; [congruence | reflexivity]. Qed.

Lemma join_split_go_unit (c : N) (s cur : str) :
  join [c] (split_go [c] s 0 cur) = rev cur ++ s.
Proof.
  revert cur; induction s as [|x s IH]; intros cur.
  - simpl. rewrite app_nil_r. reflexivity.
  - cbn [split_go startsWith]. rewrite andb_true_r.
    destruct (N.eqb_spec c x) as [<-|Hne].
    + cbn [length Nat.sub]. rewrite join_cons by apply split_go_nonempty.
      rewrite IH. reflexivity.
    + rewrite IH. simpl. rewrite <- app_assoc. reflexivity.
Qed.

(** Splitting at a one-unit separator and joining with it gives the text
    back. *)
Lemma join_split_unit (c : N) (s : str) : join [c] (split [c] s) = s.
Proof. unfold split. apply (join_split_go_unit c s []). Qed.

Lemma split_go_head (c : N) (s cur : str) :
  cur <> [] ->
  exists p ps, split_go [c] s 0 cur = p :: ps /\ p <> [].
Proof.
  revert cur; induction s as [|x s IH]; intros cur H.
  - simpl. exists (rev cur), []. split; [reflexivity|].
    destruct cur; [congruence|]. simpl. intros E.
    apply app_eq_nil in E. destruct E; discriminate.
  - cbn [split_go]. destruct (startsWith [c] (x :: s)).
    + exists (rev cur), (split_go [c] s (length [c] - 1) []).
      split; [reflexivity|].
      destruct cur; [congruence|]. simpl. intros E.
      apply app_eq_nil in E. destruct E; discriminate.
    + apply IH. discriminate.
Qed.

Lemma split_head (c : N) (s : str) :
  s <> [] -> hd_error s <> Some c ->
  exists p ps, split [c] s = p :: ps /\ p <> [].
Proof.
  intros Hne Hh. destruct s as [|x s]; [congruence|].
  unfold split. cbn [split_go startsWith]. rewrite andb_true_r.
  destruct (N.eqb_spec c x) as [->|Hx]; [exfalso; apply Hh; reflexivity|].
  apply split_go_head. discriminate.
Qed.

Lemma visited_prefixes (parts : list str) (current : str) (k : nat) :
  current <> [] -> 1 <= k <= length parts ->
  In (join (u "/") (current :: firstn k parts)) (visited parts current).
Proof.
  revert current k; induction parts as [|p ps IH]; intros current k Hc Hk;
    [simpl in Hk; lia|].
  cbn [visited]. cbv zeta.
  destruct current as [|x cur]; [congruence|]. cbn [truthy].
  destruct k as [|[|k]]; [lia | left; reflexivity |].
  right. change (firstn (S (S k)) (p :: ps)) with (p :: firstn (S k) ps).
  assert (Hk' : 1 <= S k <= length ps) by (simpl in Hk; lia).
  assert (Hn : firstn (S k) ps <> []).
  { destruct ps; [simpl in Hk'; lia | discriminate]. }
  specialize (IH ((x :: cur) ++ u "/" ++ p) (S k)).
  rewrite join_cons in IH by exact Hn.
  rewrite join_cons by discriminate.
  rewrite (join_cons (u "/") p Hn).
  rewrite <- !app_assoc in IH.
  apply IH; [discriminate | exact Hk'].
Qed.

Lemma visited_prefixes_top (p : str) (ps : list str) (k : nat) :
  p <> [] -> 1 <= k <= length (p :: ps) ->
  In (join (u "/") (firstn k (p :: ps))) (visited (p :: ps) []).
Proof.
  intros Hp Hk. cbn [visited truthy]. cbv zeta.
  destruct k as [|[|k]]; [lia | left; reflexivity |].
  right. change (firstn (S (S k)) (p :: ps)) with (p :: firstn (S k) ps).
  apply visited_prefixes; [exact Hp|].
  simpl in Hk. lia.
Qed.

Lemma ensureFolder_spec (h : Host) (folderPath : str) (v : list Entry) :
  (exists added,
      ensureFolder h folderPath v = v ++ added /\ Forall isFolder added)
  /\ (forall p e,
        getAbstractFileByPath v p = Some e ->
        getAbstractFileByPath (ensureFolder h folderPath v) p = Some e)
  /\ (createFolderFault h <> None -> ensureFolder h folderPath v = v)
  /\ ensureFolder h folderPath (ensureFolder h folderPath v)
     = ensureFolder h folderPath v
  /\ (createFolderFault h = None ->
      folderPath <> [] -> hd_error folderPath <> Some 47%N ->
      getAbstractFileByPath (ensureFolder h folderPath v) folderPath <> None
      /\ forall k,
          1 <= k <= length (split (u "/") folderPath) ->
          getAbstractFileByPath
            (ensureFolder h folderPath v)
            (join (u "/") (firstn k (split (u "/") folderPath)))
          <> None).
Proof.
  assert (A : exists added,
             ensureFolder h folderPath v = v ++ added
             /\ Forall isFolder added).
  { unfold ensureFolder. destruct (negb _).
    - exists []. rewrite app_nil_r. split; [reflexivity | constructor].
    - apply ensureParts_appends. }
  split; [exact A|]. split; [|split; [|split]].
  - intros p e G. destruct A as (added & -> & _).
    rewrite getAbstractFileByPath_app, G. reflexivity.
  - intros F. unfold ensureFolder. destruct (negb _); [reflexivity|].
    apply ensureParts_fault, F.
  - unfold ensureFolder. destruct (negb _); [reflexivity|].
    destruct (createFolderFault h) as [msg|] eqn:F.
    + rewrite !ensureParts_fault by (rewrite F; discriminate). reflexivity.
    + apply ensureParts_nothing_to_do. intros q Hq.
      apply ensureParts_visited; assumption.
  - intros NF Hne Hh.
    destruct (@split_head 47%N folderPath Hne Hh) as (p & ps & Es & Hp).
    change [47%N] with (u "/") in Es.
    assert (J : join (u "/") (p :: ps) = folderPath).
    { rewrite <- Es. exact (join_split_unit 47%N folderPath). }
    assert (G : forall k,
               1 <= k <= length (p :: ps) ->
               getAbstractFileByPath
                 (ensureFolder h folderPath v)
                 (join (u "/") (firstn k (p :: ps)))
               <> None).
    { intros k Hk. unfold ensureFolder.
      destruct folderPath as [|x fp]; [congruence|]. cbn [truthy negb].
      apply ensureParts_visited; [exact NF|].
      rewrite Es. apply visited_prefixes_top; assumption. }
    rewrite Es. split; [|exact G].
    specialize (G (length (p :: ps))).
    rewrite firstn_all, J in G. apply G. simpl. lia.
Qed.

Lemma ensureFolder_appends_only (h : Host) (folderPath : str)
      (v : list Entry) :
  exists added,
    ensureFolder h folderPath v = v ++ added /\ Forall isFolder added.
Proof. apply ensureFolder_spec. Qed.

(** X22.  [ensureFolder] makes the folder and its ancestors.  When
    [createFolder] raises nothing and the path is not empty and does not
    begin with a slash, then after [ensureFolder] the path itself and every
    leading run of its segments, joined by slashes, name an entry of the
    vault. *)
Theorem ensureFolder_makes_path_and_ancestors (h : Host) (folderPath : str)
        (v : list Entry) :
  createFolderFault h = None ->
  folderPath <> [] ->
  hd_error folderPath <> Some 47%N ->
  getAbstractFileByPath (ensureFolder h folderPath v) folderPath <> None
  /\ forall k,
      1 <= k <= length (split (u "/") folderPath) ->
      getAbstractFileByPath
        (ensureFolder h folderPath v)
        (join (u "/") (firstn k (split (u "/") folderPath)))
      <> None.
Proof.
  intros NF Hne Hh.
  destruct (ensureFolder_spec h folderPath v) as (_ & _ & _ & _ & G).
  apply G; assumption.
Qed.

Lemma ensureFolder_makes_witness :
  createFolderFault Scenario.offline = None
  /\ getAbstractFileByPath
       (ensureFolder Scenario.offline (u "assets/img/2026")
                     [EFolder (u "assets")])
       (u "assets/img/2026") <> None
  /\ getAbstractFileByPath
       (ensureFolder Scenario.offline (u "assets/img/2026")
                     [EFolder (u "assets")])
       (u "assets/img") <> None.
Proof.
  assert (NF : createFolderFault Scenario.offline = None) by reflexivity.
  assert (Hne : u "assets/img/2026" <> []) by discriminate.
  assert (Hh : hd_error (u "assets/img/2026") <> Some 47%N)
    by discriminate.
  destruct (@ensureFolder_makes_path_and_ancestors
              Scenario.offline (u "assets/img/2026") [EFolder (u "assets")]
              NF Hne Hh) as [G1 G2].
  split; [exact NF|]. split; [exact G1|].
  apply (G2 2). simpl. lia.
Defined.

(** X23.  [ensureFolder] only ever adds folders, and never raises.  The
    vault after it is the vault before followed by new folder entries, so
    every path that named an entry names the same entry; when [createFolder]
    raises, the exception is swallowed and the vault is as before; and
    running it again on its own result changes nothing. *)
Theorem ensureFolder_only_adds_folders (h : Host) (folderPath : str)
        (v : list Entry) :
  (exists added,
      ensureFolder h folderPath v = v ++ added /\ Forall isFolder added)
  /\ (forall p e,
        getAbstractFileByPath v p = Some e ->
        getAbstractFileByPath (ensureFolder h folderPath v) p = Some e)
  /\ (createFolderFault h <> None -> ensureFolder h folderPath v = v)
  /\ ensureFolder h folderPath (ensureFolder h folderPath v)
     = ensureFolder h folderPath v.
Proof.
  destruct (ensureFolder_spec h folderPath v) as (A & B & C & D & _).
  auto.
Qed.

(** ** The rewrite of the document *)







Import Text.






(** ** The settings tab *)
Import SettingsTab.

Lemma trimStart_blank (s : str) : blank s -> trimStart s = [].
Proof.
  induction 1 as [|c s Hc Hs IH]; [reflexivity|]. simpl. rewrite Hc. exact IH.
Qed.

Lemma trim_blank (s : str) : blank s -> trim s = [].
Proof. intros H. unfold trim. rewrite (trimStart_blank H). reflexivity. Qed.

Lemma missing_configuration (h : Host) (s : ImagesR2Settings)
      (imageFile : option TFile) (baseUrl : str) :
  accountId s = [] \/ r2Token s = [] \/ bucketName s = [] ->
  uploadImageFile h s imageFile baseUrl
  = (Failure (u "Missing configuration"), [])
  /\ (customDomain s = [] -> resolveBaseUrl h s = (None, [])).
Proof.
  intros H.
  assert (C : negb (truthy (accountId s)) || negb (truthy (r2Token s))
              || negb (truthy (bucketName s)) = true).
  { rewrite !orb_true_iff, !negb_true_iff, !truthy_false. tauto. }
  unfold uploadImageFile, resolveBaseUrl. rewrite C.
  split; [reflexivity|]. intros ->. reflexivity.
Qed.

(** X26.  A credential field left blank switches uploading off.  When the
    text entered for the account id, the token or the bucket name is white
    space only, the stored value is the empty string, so that with these
    settings every upload fails with the missing-configuration message and
    sends no request, and without a custom domain no base URL is resolved
    and no request is sent for one. *)
Theorem blank_credential_disables_upload
        (h : Host) (s : ImagesR2Settings) (value : str)
        (imageFile : option TFile) (baseUrl : str) :
  blank value ->
  forall s',
    s' = onAccountId value s \/ s' = onR2Token value s
    \/ s' = onBucketName value s ->
    uploadImageFile h s' imageFile baseUrl
    = (Failure (u "Missing configuration"), [])
    /\ (customDomain s = [] -> resolveBaseUrl h s' = (None, [])).
Proof.
  intros B s' H.
  assert (E : accountId s' = [] \/ r2Token s' = [] \/ bucketName s' = []).
  { destruct H as [-> | [-> | ->]]; simpl; rewrite (trim_blank B); auto. }
  destruct (missing_configuration h s' imageFile baseUrl E) as [U R].
  split; [exact U|]. intros Hc. apply R.
  destruct H as [-> | [-> | ->]]; exact Hc.
Qed.

Lemma blank_credential_witness :
  blank (u "   ")
  /\ uploadImageFile Scenario.online
                     (onR2Token (u "   ") Scenario.configured)
                     (Some Scenario.photo) (u "https://cdn.example.com")
     = (Failure (u "Missing configuration"), []).
Proof.
  assert (B : blank (u "   ")) by (repeat constructor).
  split; [exact B|].
  exact (proj1 (@blank_credential_disables_upload
                  Scenario.online Scenario.configured (u "   ")
                  (Some Scenario.photo) (u "https://cdn.example.com") B
                  (onR2Token (u "   ") Scenario.configured)
                  (or_intror (or_introl eq_refl)))).
Defined.

Lemma dropSlash_spec (t : str) :
  (t = dropSlash t ++ [47%N])
  \/ (dropSlash t = t /\ forall t', t <> t' ++ [47%N]).
Proof.
  unfold dropSlash. destruct (rev t) as [|c r] eqn:E.
  - right. split; [reflexivity|]. intros t' ->.
    rewrite rev_app_distr in E. discriminate.
  - assert (T : t = rev r ++ [c]).
    { rewrite <- (rev_involutive t), E. reflexivity. }
    destruct (N.eq_dec c 47) as [->|Hc].
    + left. exact T.
    + assert (G : forall t', t <> t' ++ [47%N]).
      { intros t' ->. rewrite rev_app_distr in E. simpl in E.
        injection E as E _. congruence. }
      right. split; [|exact G].
      destruct c as [|p]; [reflexivity|].
      do 6 (destruct p as [p|p|]; try reflexivity).
      exfalso. apply Hc. reflexivity.
Qed.

(** X27.  The custom domain is stored trimmed and less one slash at its
    end: the trimmed text is the stored value followed by a slash, or it is
    the stored value and does not end in a slash.  A blank text or a lone
    slash stores the empty string, and then [resolveBaseUrl] takes the
    managed-domain path as if no custom domain had been entered; any other
    stored value is what [resolveBaseUrl] returns, sending no request. *)
Theorem custom_domain_is_stored_without_trailing_slash
        (h : Host) (s : ImagesR2Settings) (value : str) :
  (trim value = customDomain (onCustomDomain value s) ++ u "/"
   \/ (customDomain (onCustomDomain value s) = trim value
       /\ forall t', trim value <> t' ++ u "/"))
  /\ (blank value \/ trim value = u "/" ->
      customDomain (onCustomDomain value s) = []
      /\ resolveBaseUrl h (onCustomDomain value s)
         = resolveBaseUrl h (onCustomDomain [] s))
  /\ (customDomain (onCustomDomain value s) <> [] ->
      resolveBaseUrl h (onCustomDomain value s)
      = (Some (customDomain (onCustomDomain value s)), [])).
Proof.
  split; [|split].
  - simpl. apply dropSlash_spec.
  - intros H.
    assert (E : dropSlash (trim value) = []).
    { destruct H as [B|T]; [rewrite (trim_blank B) | rewrite T];
        reflexivity. }
    simpl. split; [exact E|].
    unfold resolveBaseUrl, onCustomDomain. simpl. rewrite E. reflexivity.
  - intros H. unfold resolveBaseUrl. apply truthy_true in H. rewrite H.
    reflexivity.
Qed.

(** ** Downloads and the vault *)

Lemma createBinary_new (h : Host) (p : str) (v v' : list Entry) :
  createBinary h p v = inr v' ->
  getAbstractFileByPath v p = None
  /\ exists f, v' = v ++ [EFile f] /\ path f = p
               /\ getAbstractFileByPath v' p = Some (EFile f).
Proof.
  unfold createBinary. destruct (createBinaryFault h); [discriminate|].
  destruct (getAbstractFileByPath v p) eqn:G; [discriminate|].
  intros [= <-]. split; [reflexivity|]. eexists. split; [reflexivity|].
  split; [reflexivity|].
  rewrite getAbstractFileByPath_app, G. unfold getAbstractFileByPath. simpl.
  rewrite str_eqb_refl. reflexivity.
Qed.

Lemma getAbstractFileByPath_prefix (v w : list Entry) (p : str) :
  getAbstractFileByPath (v ++ w) p = None -> getAbstractFileByPath v p = None.
Proof.
  rewrite getAbstractFileByPath_app.
  destruct (getAbstractFileByPath v p); [discriminate | reflexivity].
Qed.

Lemma saveDownload_vault (h : Host) (activeFile : TFile) (fileName : str)
      (a : App) :
  exists folders,
    Forall isFolder folders
    /\ match snd (saveDownload h activeFile fileName a) with
       | inl _ =>
           vault (fst (saveDownload h activeFile fileName a))
           = vault a ++ folders
       | inr saved =>
           vault (fst (saveDownload h activeFile fileName a))
           = vault a ++ folders ++ [EFile saved]
           /\ getAbstractFileByPath (vault a) (path saved) = None
       end.
Proof.
  unfold saveDownload. cbv zeta.
  set (folder := resolveDownloadFolder h a activeFile).
  destruct (ensureFolder_appends_only h folder (vault a))
    as (folders & Ev & Ff).
  exists folders. split; [exact Ff|].
  replace (vault (set_vault (ensureFolder h folder (vault a)) a))
    with (ensureFolder h folder (vault a)) by reflexivity.
  match goal with
  | |- context [createBinary h ?p ?v] =>
      set (savePath := p); destruct (createBinary h savePath v)
        as [msg|v'] eqn:C
  end.
  - simpl. exact Ev.
  - apply createBinary_new in C. destruct C as (Nn & f & -> & Pf & G).
    replace (vault (set_vault (ensureFolder h folder (vault a) ++ [EFile f])
                              (set_vault (ensureFolder h folder (vault a))
                                         a)))
      with (ensureFolder h folder (vault a) ++ [EFile f]) by reflexivity.
    rewrite G. simpl.
    rewrite Ev, <- app_assoc. split; [reflexivity|].
    rewrite Pf. rewrite Ev in Nn.
    eapply getAbstractFileByPath_prefix. exact Nn.
Qed.

Lemma rewrite_vault (h : Host) (activeFile : TFile)
      (target replacement : str) (a : App) :
  vault (fst (rewrite h activeFile target replacement a)) = vault a.
Proof.
  unfold rewrite.
  destruct (findEditorForFile a activeFile) as [i|]; [|reflexivity].
  destruct (str_eqb _ _); [reflexivity|].
  destruct (setValueFault h); reflexivity.
Qed.

Lemma recordDownload_vault (h : Host) (r : Records.DownloadRecord)
      (a : App) :
  vault (recordDownload h r a) = vault a.
Proof.
  unfold recordDownload.
  destruct (Records.addDownload _ _ _ _ _ _ _) as [[c d] [|msg]];
    reflexivity.
Qed.

Lemma failDownload_not_done (item : nat) (msg : str) (b : App)
      (it' : RemoteImageItem) :
  nth_error (remoteHeap (failDownload item msg b)) item = Some it' ->
  rStatus it' <> done.
Proof.
  unfold failDownload. simpl. rewrite nth_error_assign.
  destruct (nth_error (remoteHeap b) item) as [x|]; [|discriminate].
  simpl. intros [= <-]. destruct x; discriminate.
Qed.

Lemma doDownload_finish_vault (h : Host) (item : nat) (activeFile : TFile)
      (net : Net.NetResult) (a : App) :
  exists added,
    vault (doDownload_finish h item activeFile net a) = vault a ++ added
    /\ forall it',
        nth_error (remoteHeap (doDownload_finish h item activeFile net a))
                  item = Some it' ->
        rStatus it' = done ->
        nth_error (remoteHeap a) item <> None
        /\ exists folders saved,
            added = folders ++ [EFile saved]
            /\ Forall isFolder folders
            /\ getAbstractFileByPath (vault a) (path saved) = None.
Proof.
  unfold doDownload_finish.
  destruct (nth_error (remoteHeap a) item) as [it|] eqn:Hit.
  2:{ exists []. rewrite app_nil_r. split; [reflexivity|].
      intros it' H. congruence. }
  assert (F : forall msg b added,
             vault b = vault a ++ added ->
             exists added0,
               vault (failDownload item msg b) = vault a ++ added0
               /\ forall it',
                   nth_error (remoteHeap (failDownload item msg b)) item
                   = Some it' ->
                   rStatus it' = done ->
                   Some it <> None
                   /\ exists folders saved,
                       added0 = folders ++ [EFile saved]
                       /\ Forall isFolder folders
                       /\ getAbstractFileByPath (vault a) (path saved)
                          = None).
  { intros msg b added Hv. exists added. split; [exact Hv|].
    intros it' H D. exfalso.
    exact (failDownload_not_done item msg b H D). }
  destruct net as [msg|response];
    [apply (F msg a []); rewrite app_nil_r; reflexivity|].
  destruct (_ || _);
    [apply (F _ a []); rewrite app_nil_r; reflexivity|].
  destruct (saveDownload_vault h activeFile (rFileName it) a)
    as (folders & Ff & Hs).
  destruct (saveDownload h activeFile (rFileName it) a)
    as [a2 [msg|saved]]; cbn [fst snd] in Hs.
  { apply (F msg a2 folders). exact Hs. }
  destruct Hs as [Hv Hn].
  pose proof (rewrite_vault h activeFile (rFullMatch it)
                            (u "![[" ++ name saved ++ u "]]") a2) as Hr.
  destruct (rewrite h activeFile (rFullMatch it) _ a2) as [a3 [|msg]];
    cbn [fst] in Hr.
  2:{ apply (F msg a3 (folders ++ [EFile saved])). congruence. }
  exists (folders ++ [EFile saved]). cbv zeta. split.
  - cbn [snd setTimeout vault set_nextTimer set_timers].
    rewrite recordDownload_vault. cbn [vault set_remoteHeap]. congruence.
  - intros it' _ _. split; [discriminate|]. exists folders, saved. auto.
Qed.

(** X28.  A download never overwrites or removes an entry of the vault.
    After [doDownload] the vault is the vault before followed by new
    entries, so every path that named an entry names the same entry; and
    when the item ends done, the new entries are the folders made on the
    way and, last, one file, saved at a path that named nothing before. *)
Theorem download_never_overwrites (h : Host) (item : nat)
        (activeFile : TFile) (a : App) :
  exists added,
    vault (doDownload h item activeFile a) = vault a ++ added
    /\ (forall p e,
          getAbstractFileByPath (vault a) p = Some e ->
          getAbstractFileByPath (vault (doDownload h item activeFile a)) p
          = Some e)
    /\ forall it',
        nth_error (remoteHeap (doDownload h item activeFile a)) item
        = Some it' ->
        rStatus it' = done ->
        exists folders saved,
          added = folders ++ [EFile saved]
          /\ Forall isFolder folders
          /\ getAbstractFileByPath (vault a) (path saved) = None.
Proof.
  assert (G : exists added,
             vault (doDownload h item activeFile a) = vault a ++ added
             /\ forall it',
                 nth_error (remoteHeap (doDownload h item activeFile a)) item
                 = Some it' ->
                 rStatus it' = done ->
                 exists folders saved,
                   added = folders ++ [EFile saved]
                   /\ Forall isFolder folders
                   /\ getAbstractFileByPath (vault a) (path saved) = None).
  { unfold doDownload. cbv zeta.
    destruct (nth_error (remoteHeap (doDownload_start item a)) item)
      as [it|] eqn:Hit.
    - destruct (doDownload_finish_vault
                  h item activeFile
                  (requestUrl h (Net.mkRequest (url it) Net.GET [] None))
                  (doDownload_start item a)) as (added & Hv & Hd).
      exists added. split; [exact Hv|].
      intros it' H D. destruct (Hd it' H D) as [_ E]. exact E.
    - exists []. rewrite app_nil_r. split; [reflexivity|].
      intros it' H. congruence. }
  destruct G as (added & Hv & Hd). exists added.
  split; [exact Hv|]. split; [|exact Hd].
  intros p e Hp. rewrite Hv, getAbstractFileByPath_app, Hp. reflexivity.
Qed.
